(** * LiveLoop Studio: control-plane model and its verified properties

    A shallow embedding of the TypeScript sources of LiveLoop Studio:
    - [src/utils/audio.ts]            (module [DecodeQueue])
    - [src/utils/serialPlugin.ts]     (module [Serial])
    - [src/components/DmxPanel.tsx]   (module [Dmx])
    - [src/App.tsx], and [src/components/AudioCard.tsx]
                                      (modules [Session] and [Studio])

    JavaScript numbers that the program only stores, compares and clamps
    are rationals ([Q]); the sums of the volume steps are rounded as
    doubles are ([js_add]); integer inputs are [Z].  Promise continuations
    and DOM events are explicit transitions of a state machine. *)

From Stdlib Require Import ZArith QArith Qabs Qminmax Lqa List Bool String
  Ascii Permutation.
From stdpp Require Import gmap strings list fin_maps.
Import ListNotations.

Local Open Scope Z_scope.
Set Warnings "-register-all".

(* ===================================================================== *)
(** * src/utils/audio.ts : the decode queue                               *)
(* ===================================================================== *)

Module DecodeQueue.

Section Queue.

(** Payload types of the Web Audio API; the queue never inspects them. *)
Variable ArrayBuffer : Type.
Variable AudioBuffer : Type.
Variable DecodeError : Type.

(** An entry of [decodeQueue].  The [resolve]/[reject] pair of the entry
    belongs to the promise created by [decodeAudioDataSafely]; [promise]
    is the identity of that promise. *)
Record Task := mkTask { arrayBuffer : ArrayBuffer; promise : nat }.

(** How [ctx.decodeAudioData(task.arrayBuffer)] ends. *)
Inductive DecodeResult :=
| Decoded (b : AudioBuffer)
| Failed (e : DecodeError).

(** What was delivered to a promise: [task.resolve(audioBuffer)] or
    [task.reject(err)]. *)
Inductive Settlement :=
| Resolved (b : AudioBuffer)
| Rejected (e : DecodeError).

Definition MAX_CONCURRENT_DECODES : Z := 2.

(** Module-level state of audio.ts.  [decodeQueue] and [activeDecodes]
    are the two variables of the source.  [awaiting] holds the
    activations of [processQueue] that are suspended at
    [await ctx.decodeAudioData].  [submitted], [started] and [settled]
    are histories: every push, every shift, every resolve/reject call, in
    the order in which they happened. *)
Record State := mkState {
  decodeQueue : list Task;
  activeDecodes : Z;
  awaiting : list Task;
  nextPromise : nat;
  submitted : list Task;
  started : list Task;
  settled : list (nat * Settlement)
}.

Definition init : State :=
  {| decodeQueue := []; activeDecodes := 0; awaiting := [];
     nextPromise := 0; submitted := []; started := []; settled := [] |}.

(** [processQueue], up to its [await]: the guard, [shift],
    [activeDecodes++], and the call of [decodeAudioData], which leaves
    the activation suspended. *)
Definition processQueue (s : State) : State :=
  if (MAX_CONCURRENT_DECODES <=? activeDecodes s)
     || (Nat.eqb (List.length (decodeQueue s)) 0)
  then s
  else
    match decodeQueue s with
    | [] => s
    | task :: rest =>
        {| decodeQueue := rest;
           activeDecodes := activeDecodes s + 1;
           awaiting := awaiting s ++ [task];
           nextPromise := nextPromise s;
           submitted := submitted s;
           started := started s ++ [task];
           settled := settled s |}
    end.

(** [decodeAudioDataSafely]: the executor of the new promise pushes the
    entry and calls [processQueue]. *)
Definition decodeAudioDataSafely (buf : ArrayBuffer) (s : State) : State :=
  let task := {| arrayBuffer := buf; promise := nextPromise s |} in
  processQueue
    {| decodeQueue := decodeQueue s ++ [task];
       activeDecodes := activeDecodes s;
       awaiting := awaiting s;
       nextPromise := S (nextPromise s);
       submitted := submitted s ++ [task];
       started := started s;
       settled := settled s |}.

Definition settle (r : DecodeResult) : Settlement :=
  match r with
  | Decoded b => Resolved b   (* try:   task.resolve(audioBuffer) *)
  | Failed e => Rejected e    (* catch: task.reject(err)          *)
  end.

Fixpoint remove_task (p : nat) (l : list Task) : list Task :=
  match l with
  | [] => []
  | t :: l' => if Nat.eqb (promise t) p then l' else t :: remove_task p l'
  end.

Definition find_task (p : nat) (l : list Task) : option Task :=
  List.find (fun t => Nat.eqb (promise t) p) l.

(** The rest of [processQueue] for the activation that holds [task], run
    when its [decodeAudioData] ends with [r]: the [try] or the [catch]
    branch, then the [finally] block ([activeDecodes--; processQueue()]). *)
Definition resume (task : Task) (r : DecodeResult) (s : State) : State :=
  processQueue
    {| decodeQueue := decodeQueue s;
       activeDecodes := activeDecodes s - 1;
       awaiting := remove_task (promise task) (awaiting s);
       nextPromise := nextPromise s;
       submitted := submitted s;
       started := started s;
       settled := settled s ++ [(promise task, settle r)] |}.

(** What can happen to the module: a caller submits a buffer, or the
    browser finishes the decode of the task of promise [p]. *)
Inductive Event :=
| Submit (buf : ArrayBuffer)
| Complete (p : nat) (r : DecodeResult).

Definition step (s : State) (e : Event) : State :=
  match e with
  | Submit buf => decodeAudioDataSafely buf s
  | Complete p r =>
      match find_task p (awaiting s) with
      | Some task => resume task r s
      | None => s  (* no decode of [p] is running: nothing to finish *)
      end
  end.

Definition run (evs : list Event) : State := fold_left step evs init.

(** The decodes still owed a settlement. *)
Definition outstanding (s : State) : nat :=
  (List.length (awaiting s) + List.length (decodeQueue s))%nat.

(** The browser finishes running decodes one after the other, in an
    order and with results of its choosing: at step [k] the decode at
    position [fst (pick k)] (modulo the number of running decodes) ends
    with [snd (pick k)]. *)
Definition complete_choice (c : nat * DecodeResult) (s : State) : State :=
  match nth_error (awaiting s) (fst c mod List.length (awaiting s)) with
  | Some task => step s (Complete (promise task) (snd c))
  | None => s
  end.

Fixpoint drain (n : nat) (pick : nat -> nat * DecodeResult) (s : State) : State :=
  match n with
  | O => s
  | S n' => drain n' (fun k => pick (S k)) (complete_choice (pick O) s)
  end.

End Queue.

Arguments mkTask {ArrayBuffer} _ _.
Arguments arrayBuffer {ArrayBuffer} _.
Arguments promise {ArrayBuffer} _.
Arguments Decoded {AudioBuffer DecodeError} _.
Arguments Failed {AudioBuffer DecodeError} _.
Arguments Resolved {AudioBuffer DecodeError} _.
Arguments Rejected {AudioBuffer DecodeError} _.
Arguments Submit {ArrayBuffer AudioBuffer DecodeError} _.
Arguments Complete {ArrayBuffer AudioBuffer DecodeError} _ _.
Arguments decodeQueue {ArrayBuffer AudioBuffer DecodeError} _.
Arguments activeDecodes {ArrayBuffer AudioBuffer DecodeError} _.
Arguments awaiting {ArrayBuffer AudioBuffer DecodeError} _.
Arguments nextPromise {ArrayBuffer AudioBuffer DecodeError} _.
Arguments submitted {ArrayBuffer AudioBuffer DecodeError} _.
Arguments started {ArrayBuffer AudioBuffer DecodeError} _.
Arguments settled {ArrayBuffer AudioBuffer DecodeError} _.
Arguments init {ArrayBuffer AudioBuffer DecodeError}.
Arguments processQueue {ArrayBuffer AudioBuffer DecodeError} _.
Arguments decodeAudioDataSafely {ArrayBuffer AudioBuffer DecodeError} _ _.
Arguments resume {ArrayBuffer AudioBuffer DecodeError} _ _ _.
Arguments step {ArrayBuffer AudioBuffer DecodeError} _ _.
Arguments run {ArrayBuffer AudioBuffer DecodeError} _.
Arguments outstanding {ArrayBuffer AudioBuffer DecodeError} _.
Arguments complete_choice {ArrayBuffer AudioBuffer DecodeError} _ _.
Arguments drain {ArrayBuffer AudioBuffer DecodeError} _ _ _.
Arguments find_task {ArrayBuffer} _ _.
Arguments remove_task {ArrayBuffer} _ _.
Arguments settle {AudioBuffer DecodeError} _.

(** The invariant of the module state: the counter counts the suspended
    activations, of which there are at most two; tasks wait only while
    both slots are taken; tasks start in the order of submission; every
    started task is either settled or still being decoded; promise
    identities are not reused. *)
Record Inv {ArrayBuffer AudioBuffer DecodeError}
       (s : State ArrayBuffer AudioBuffer DecodeError) : Prop := mkInv {
  inv_count : activeDecodes s = Z.of_nat (List.length (awaiting s));
  inv_bound : (List.length (awaiting s) <= 2)%nat;
  inv_busy : decodeQueue s <> [] -> List.length (awaiting s) = 2%nat;
  inv_fifo : started s ++ decodeQueue s = submitted s;
  inv_started :
    Permutation (List.map promise (started s))
                (List.map fst (settled s) ++ List.map promise (awaiting s));
  inv_fresh : Forall (fun t => (promise t < nextPromise s)%nat) (submitted s);
  inv_nodup : List.NoDup (List.map promise (submitted s))
}.

(** Two events with the same part in the scheduling: the same submission,
    or the end of the same decode, whatever its result. *)
Definition same_event {ArrayBuffer AudioBuffer DecodeError}
           (e1 e2 : Event ArrayBuffer AudioBuffer DecodeError) : Prop :=
  match e1, e2 with
  | Submit b1, Submit b2 => b1 = b2
  | Complete p1 _, Complete p2 _ => p1 = p2
  | _, _ => False
  end.

(** Two states that agree on everything but the values delivered to the
    promises. *)
Definition same_schedule {ArrayBuffer AudioBuffer DecodeError}
           (s1 s2 : State ArrayBuffer AudioBuffer DecodeError) : Prop :=
  decodeQueue s1 = decodeQueue s2 /\
  awaiting s1 = awaiting s2 /\
  activeDecodes s1 = activeDecodes s2 /\
  nextPromise s1 = nextPromise s2 /\
  submitted s1 = submitted s2 /\
  started s1 = started s2 /\
  List.map fst (settled s1) = List.map fst (settled s2).

(** ** [getAudioContext]

    [window._sharedAudioContext] is empty until the first call.  A context
    is identified by the number of contexts constructed before it;
    [constructed] counts the calls of [new AudioContextClass()]. *)
Record Window := mkWindow {
  _sharedAudioContext : option nat;
  constructed : nat
}.

Definition getAudioContext (w : Window) : nat * Window :=
  match _sharedAudioContext w with
  | None =>
      let ctx := constructed w in
      (ctx, {| _sharedAudioContext := Some ctx; constructed := S (constructed w) |})
  | Some ctx => (ctx, w)
  end.

(** [n] calls in a row: the contexts returned, and the window left. *)
Fixpoint getAudioContexts (n : nat) (w : Window) : list nat * Window :=
  match n with
  | O => ([], w)
  | S n' =>
      let '(ctx, w1) := getAudioContext w in
      let '(rest, w2) := getAudioContexts n' w1 in
      (ctx :: rest, w2)
  end.

End DecodeQueue.

(* ===================================================================== *)
(** * src/utils/serialPlugin.ts : the serial port wrapper                 *)
(* ===================================================================== *)

Module Serial.

Inductive DataBits := Five | Six | Seven | Eight.
Inductive FlowControl := FlowNone | Software | Hardware.
Inductive Parity := ParityNone | Odd | Even.
Inductive StopBits := One | Two.

(** An optional property of an object literal: the key is absent, or it
    is present and holds [undefined] or a value. *)
Inductive Optional (A : Type) :=
| Absent
| Present (v : option A).
Arguments Absent {A}.
Arguments Present {A} _.

(** The [options] argument of the constructor ([SerialportOptions]). *)
Record SerialportOptions := mkOptions {
  path : string;
  baudRate : Z;
  dataBits : Optional DataBits;
  flowControl : Optional FlowControl;
  parity : Optional Parity;
  stopBits : Optional StopBits;
  timeout : Optional Z
}.

(** [this.options] after the constructor: every key is present; a key
    holds [undefined] ([None]) only when the caller passed it so. *)
Record StoredOptions := mkStored {
  s_path : string;
  s_baudRate : Z;
  s_dataBits : option DataBits;
  s_flowControl : option FlowControl;
  s_parity : option Parity;
  s_stopBits : option StopBits;
  s_timeout : option Z
}.

(** [{ key: dflt, ...options }] for one key: a key of [options] wins
    over the default whenever it is present. *)
Definition spread {A} (dflt : A) (given : Optional A) : option A :=
  match given with
  | Absent => Some dflt
  | Present v => v
  end.

(** [new SerialPort(options)]. *)
Definition constructor (options : SerialportOptions) : StoredOptions :=
  {| s_path := path options;
     s_baudRate := baudRate options;
     s_dataBits := spread Eight (dataBits options);
     s_flowControl := spread FlowNone (flowControl options);
     s_parity := spread ParityNone (parity options);
     s_stopBits := spread One (stopBits options);
     s_timeout := spread 200 (timeout options) |}.

(** The message that [open()] hands to the native side:
    [invoke('plugin:serialplugin|open', { path, baudRate, ... })]. *)
Record Invoke := mkInvoke { command : string; args : StoredOptions }.

Definition open (this : StoredOptions) : Invoke :=
  {| command := "plugin:serialplugin|open";
     args := {| s_path := s_path this;
                s_baudRate := s_baudRate this;
                s_dataBits := s_dataBits this;
                s_flowControl := s_flowControl this;
                s_parity := s_parity this;
                s_stopBits := s_stopBits this;
                s_timeout := s_timeout this |} |}.

(** The options object of a caller that gives only [path] and
    [baudRate]. *)
Definition only_path_and_baud (p : string) (baud : Z) : SerialportOptions :=
  {| path := p; baudRate := baud; dataBits := Absent; flowControl := Absent;
     parity := Absent; stopBits := Absent; timeout := Absent |}.

(** The DMX-512 framing, 8N2 without flow control. *)
Definition is_8N2 (o : StoredOptions) : Prop :=
  s_dataBits o = Some Eight /\ s_stopBits o = Some Two /\
  s_parity o = Some ParityNone /\ s_flowControl o = Some FlowNone.

(** The second sentence of the framing claim, as the specification words
    it: with only [path] and [baudRate] given, the port is opened 8N2. *)
Definition framing_claim : Prop :=
  forall (p : string) (baud : Z),
    is_8N2 (args (open (constructor (only_path_and_baud p baud)))).

End Serial.

(* ===================================================================== *)
(** * src/components/DmxPanel.tsx : the channel editor                    *)
(* ===================================================================== *)

Module Dmx.

(** A JavaScript array of numbers; [None] is a hole (reads as
    [undefined]). *)
Abbreviation JsArray := (list (option Z)).

(** [new Array(512).fill(0)]. *)
Definition createEmptyLevels : JsArray := repeat (Some 0) 512.

(** [a[i] = v] for an integer [i], on the elements of the array: inside
    the array the element is replaced; at or beyond [length] the array
    grows, with holes in between; a negative [i] names an ordinary
    property and leaves the elements alone. *)
Definition array_set (a : JsArray) (i : Z) (v : Z) : JsArray :=
  if i <? 0 then a
  else if i <? Z.of_nat (List.length a) then <[Z.to_nat i := Some v]> a
  else a ++ repeat None (Z.to_nat i - List.length a) ++ [Some v].

(** The state of [DmxPanel] that channel edits touch. *)
Record DmxPanel := mkPanel {
  dmxLevels : JsArray;
  selectedChannel : Z
}.

Definition initial : DmxPanel :=
  {| dmxLevels := createEmptyLevels; selectedChannel := 1 |}.

Definition handleChannelChange (value : Z) (st : DmxPanel) : DmxPanel :=
  let channel := Z.min 512 (Z.max 1 value) in
  {| dmxLevels := dmxLevels st; selectedChannel := channel |}.

Definition handleLevelChange (value : Z) (st : DmxPanel) : DmxPanel :=
  let next := Z.min 255 (Z.max 0 value) in
  let updated := array_set (dmxLevels st) (selectedChannel st - 1) next in
  {| dmxLevels := updated; selectedChannel := selectedChannel st |}.

(** A channel write: the operator selects channel [channel] and moves the
    level control to [value]. *)
Definition setChannel (channel value : Z) (st : DmxPanel) : DmxPanel :=
  handleLevelChange value (handleChannelChange channel st).

(** The panel states that the two handlers can produce from [initial]. *)
Inductive Edit :=
| ChannelChange (value : Z)
| LevelChange (value : Z).

Definition edit (st : DmxPanel) (e : Edit) : DmxPanel :=
  match e with
  | ChannelChange v => handleChannelChange v st
  | LevelChange v => handleLevelChange v st
  end.

Definition edits (es : list Edit) : DmxPanel := fold_left edit es initial.

(** The levels hold 512 numbers between 0 and 255, without holes, and the
    selected channel is one of the 512. *)
Definition panel_ok (st : DmxPanel) : Prop :=
  List.length (dmxLevels st) = 512%nat /\
  Forall (fun x => exists v, x = Some v /\ 0 <= v <= 255) (dmxLevels st) /\
  1 <= selectedChannel st <= 512.

(** ** The rest of the panel *)

(** [a[i]] for an integer [i]; [None] is [undefined]. *)
Definition array_get (a : JsArray) (i : Z) : option Z :=
  if i <? 0 then None
  else match a !! Z.to_nat i with
       | Some x => x
       | None => None
       end.

(** [selectedValue]: [dmxLevels[selectedChannel - 1] ?? 0]. *)
Definition selectedValue (st : DmxPanel) : Z :=
  default 0 (array_get (dmxLevels st) (selectedChannel st - 1)).

(** [applyToAll]: [prev.map(() => selectedValue)]; [map] leaves holes as
    holes. *)
Definition applyToAll (st : DmxPanel) : DmxPanel :=
  {| dmxLevels := List.map (fun x => match x with
                                     | Some _ => Some (selectedValue st)
                                     | None => None
                                     end) (dmxLevels st);
     selectedChannel := selectedChannel st |}.

Record DmxPortInfo := mkPort {
  path : string;
  kind : option string;
  manufacturer : option string;
  product : option string;
  serial_number : option string
}.

(** The whole state of [DmxPanel]. *)
Record PanelView := mkView {
  panel : DmxPanel;
  ports : list DmxPortInfo;
  selectedPort : string;
  status : string;
  isLoading : bool
}.

Definition initialView : PanelView :=
  {| panel := initial; ports := []; selectedPort := "";
     status := "Selecciona un puerto DMX para empezar"; isLoading := false |}.

Definition with_panel (p : DmxPanel) (v : PanelView) : PanelView :=
  mkView p (ports v) (selectedPort v) (status v) (isLoading v).

(** A call of [sendDmxLevels(portPath, levels)], that is
    [invoke('dmx_set_levels', { port_path, levels })]. *)
Record Send := mkSend { port_path : string; levels : JsArray }.

(** [pushLevels]; [send_ok] tells whether [sendDmxLevels] was fulfilled.
    The state is the one after the [finally] block. *)
Definition pushLevels (send_ok : bool) (v : PanelView) : PanelView * list Send :=
  if String.eqb (selectedPort v) "" then
    (mkView (panel v) (ports v) (selectedPort v)
            "Selecciona un puerto antes de enviar niveles" (isLoading v),
     [])
  else
    (mkView (panel v) (ports v) (selectedPort v)
            (if send_ok then "Reenviando frames DMX a 40Hz"
             else "No se pudieron enviar los niveles DMX")
            false,
     [mkSend (selectedPort v) (dmxLevels (panel v))]).

(** [refreshPorts]; [result] is what [listDmxPorts()] gave, [None] when it
    was rejected. *)
Definition refreshPorts (result : option (list DmxPortInfo)) (v : PanelView)
  : PanelView :=
  match result with
  | Some available =>
      let sel := match available with
                 | first :: _ =>
                     if String.eqb (selectedPort v) "" then path first
                     else selectedPort v
                 | [] => selectedPort v
                 end in
      let st := match available with
                | [] => "No se detectaron interfaces DMX/USB disponibles"
                | _ => status v
                end in
      mkView (panel v) available sel st false
  | None =>
      mkView (panel v) (ports v) (selectedPort v)
             "No se pudo listar los puertos. Revisa permisos o drivers." false
  end.

(** Everything that can happen to the panel: the operator's edits, the
    choice of a port in the select box, a port scan, and a transmission
    (by the button or by the 200 ms timer of the effect). *)
Inductive Action :=
| SetChannel (value : Z)
| SetLevel (value : Z)
| ApplyToAll
| SelectPort (p : string)
| Refresh (result : option (list DmxPortInfo))
| Push (send_ok : bool).

Definition act (v : PanelView) (a : Action) : PanelView * list Send :=
  match a with
  | SetChannel value => (with_panel (handleChannelChange value (panel v)) v, [])
  | SetLevel value => (with_panel (handleLevelChange value (panel v)) v, [])
  | ApplyToAll => (with_panel (applyToAll (panel v)) v, [])
  | SelectPort p =>
      (mkView (panel v) (ports v) p (status v) (isLoading v), [])
  | Refresh result => (refreshPorts result v, [])
  | Push send_ok => pushLevels send_ok v
  end.

(** The state after a sequence of actions, and the frames sent on the
    way, oldest first. *)
Fixpoint perform (acts : list Action) (v : PanelView) : PanelView * list Send :=
  match acts with
  | [] => (v, [])
  | a :: rest =>
      let '(v1, out1) := act v a in
      let '(v2, out2) := perform rest v1 in
      (v2, out1 ++ out2)
  end.

(** A frame for the wire: 512 levels between 0 and 255. *)
Definition frame_ok (l : JsArray) : Prop :=
  List.length l = 512%nat /\
  Forall (fun x => exists b, x = Some b /\ 0 <= b <= 255) l.

End Dmx.

(* ===================================================================== *)
(** * src/App.tsx : the session loader ([handleLoadSession])              *)
(* ===================================================================== *)

Module Session.

(** The values the loader handles at run time: what [JSON.parse] returns,
    and [undefined], which reading a missing property gives.  The fields
    of [JObj] are the properties of the parsed object. *)
Inductive JsVal :=
| JUndefined
| JNull
| JBool (b : bool)
| JNum (q : Q)
| JStr (s : string)
| JArr (elems : list JsVal)
| JObj (fields : list (string * JsVal)).

(** An evaluation either finishes with a value or throws. *)
Inductive Completion (A : Type) :=
| Normal (a : A)
| Throw (err : string).
Arguments Normal {A} _.
Arguments Throw {A} _.

Definition bind {A B} (c : Completion A) (k : A -> Completion B) : Completion B :=
  match c with
  | Normal a => k a
  | Throw e => Throw e
  end.

Fixpoint lookup_field (key : string) (fields : list (string * JsVal)) : option JsVal :=
  match fields with
  | [] => None
  | (k, v) :: rest => if String.eqb k key then Some v else lookup_field key rest
  end.

(** [v.key] for the property names the loader reads ([name], [items],
    [id], [path], [volume], [startPoint], [isLooping], [assignedKey]):
    a [TypeError] on [null] and [undefined]; the property of an object,
    or [undefined] when it has none; [undefined] on every other value,
    whose prototypes define none of these names. *)
Definition get (v : JsVal) (key : string) : Completion JsVal :=
  match v with
  | JUndefined | JNull => Throw "TypeError"
  | JObj fields =>
      match lookup_field key fields with
      | Some x => Normal x
      | None => Normal JUndefined
      end
  | _ => Normal JUndefined
  end.

(** JavaScript truthiness. *)
Definition truthy (v : JsVal) : bool :=
  match v with
  | JUndefined | JNull => false
  | JBool b => b
  | JNum q => negb (Qeq_bool q 0)
  | JStr s => negb (String.eqb s "")
  | JArr _ | JObj _ => true
  end.

(** [a || b] and [a ?? b]. *)
Definition or_else (a b : JsVal) : JsVal := if truthy a then a else b.

Definition nullish (a b : JsVal) : JsVal :=
  match a with
  | JUndefined | JNull => b
  | _ => a
  end.

(** The item objects that the loader builds ([StudioItem] after type
    erasure: the loader copies whatever the document holds). *)
Record StudioItem := mkItem {
  id : JsVal;
  type : string;
  name : JsVal;
  fileUrl : JsVal;
  path : JsVal;
  volume : JsVal;
  startPoint : JsVal;
  isLooping : JsVal;
  assignedKey : JsVal;
  duration : JsVal
}.

(** What the loader can change: two pieces of React state, the dialogs
    shown with [alert], the lines written with [console.error], and the
    number of identifiers drawn from [generateId]. *)
Record State := mkState {
  sessionName : JsVal;
  items : list StudioItem;
  alerts : list string;
  errors : list string;
  idsDrawn : nat
}.

Definition setSessionName (v : JsVal) (st : State) : State :=
  {| sessionName := v; items := items st; alerts := alerts st;
     errors := errors st; idsDrawn := idsDrawn st |}.

Definition setItems (l : list StudioItem) (st : State) : State :=
  {| sessionName := sessionName st; items := l; alerts := alerts st;
     errors := errors st; idsDrawn := idsDrawn st |}.

Definition alert (msg : string) (st : State) : State :=
  {| sessionName := sessionName st; items := items st;
     alerts := alerts st ++ [msg];
     errors := errors st; idsDrawn := idsDrawn st |}.

Definition console_error (msg : string) (st : State) : State :=
  {| sessionName := sessionName st; items := items st; alerts := alerts st;
     errors := errors st ++ [msg]; idsDrawn := idsDrawn st |}.

Definition drawId (st : State) : State :=
  {| sessionName := sessionName st; items := items st; alerts := alerts st;
     errors := errors st; idsDrawn := S (idsDrawn st) |}.

Definition legacy_warning : string :=
  "Legacy session format. Some data might be missing.".
Definition failure_warning : string := "Failed to load session.".

Section Loader.

(** [uuidv4] and Tauri's [convertFileSrc] are outside the program:
    [generateId k] is the identifier returned by the [k]-th call. *)
Variable generateId : nat -> string.
Variable convertFileSrc : JsVal -> JsVal.

(** The callback of [session.items.map]. *)
Definition loadItem (item : JsVal) (st : State) : Completion StudioItem * State :=
  match get item "id" with
  | Throw e => (Throw e, st)
  | Normal i =>
      let '(the_id, st1) :=
        if truthy i then (i, st)
        else (JStr (generateId (idsDrawn st)), drawId st) in
      let r :=
        bind (get item "name") (fun n =>
        bind (get item "path") (fun p =>
        bind (get item "volume") (fun v =>
        bind (get item "startPoint") (fun sp =>
        bind (get item "isLooping") (fun lp =>
        bind (get item "assignedKey") (fun k =>
          Normal {| id := the_id;
                    type := "audio";
                    name := n;
                    fileUrl := if truthy p then convertFileSrc p else JStr "";
                    path := p;
                    volume := nullish v (JNum (8 # 10));
                    startPoint := nullish sp (JNum 0);
                    isLooping := nullish lp (JBool false);
                    assignedKey := nullish k JNull;
                    duration := JNum 0 |})))))) in
      (r, st1)
  end.

(** [Array.prototype.map] with that callback: left to right, stopping
    at the first throw. *)
Fixpoint mapItems (elems : list JsVal) (st : State)
  : Completion (list StudioItem) * State :=
  match elems with
  | [] => (Normal [], st)
  | item :: rest =>
      match loadItem item st with
      | (Throw e, st1) => (Throw e, st1)
      | (Normal x, st1) =>
          match mapItems rest st1 with
          | (Throw e, st2) => (Throw e, st2)
          | (Normal xs, st2) => (Normal (x :: xs), st2)
          end
      end
  end.

(** The body of the [try] block from [setSessionName] on; [session] is
    the result of [JSON.parse].  State written before a throw stays
    written. *)
Definition loadParsed (session : JsVal) (st : State) : Completion unit * State :=
  match get session "name" with
  | Throw e => (Throw e, st)
  | Normal n =>
      let st1 := setSessionName (or_else n (JStr "Loaded Session")) st in
      match get session "items" with
      | Throw e => (Throw e, st1)
      | Normal its =>
          if truthy its then
            match its with
            | JArr elems =>
                match mapItems elems st1 with
                | (Throw e, st2) => (Throw e, st2)
                | (Normal newItems, st2) => (Normal tt, setItems newItems st2)
                end
            | _ => (Throw "TypeError", st1)  (* [.map] is not a function *)
            end
          else
            (Normal tt, alert legacy_warning st1)
      end
  end.

(** What the steps before [setSessionName] deliver. *)
Inductive Picked :=
| Cancelled                   (* the dialog returned no path *)
| Unreadable                  (* [readTextFile] threw *)
| Malformed                   (* [JSON.parse] threw *)
| Parsed (session : JsVal).

Definition handleLoadSession (input : Picked) (st : State) : State :=
  let caught (st' : State) :=
    alert failure_warning (console_error "Failed to load session" st') in
  match input with
  | Cancelled => st
  | Unreadable | Malformed => caught st
  | Parsed session =>
      match loadParsed session st with
      | (Normal _, st') => st'
      | (Throw _, st') => caught st'
      end
  end.

End Loader.

Definition missing (key : string) (fields : list (string * JsVal)) : Prop :=
  lookup_field key fields = None.

Definition is_object (v : JsVal) : Prop := exists fields, v = JObj fields.

(** The value of property [key] of an object with properties [f]. *)
Definition field (key : string) (f : list (string * JsVal)) : JsVal :=
  match lookup_field key f with
  | Some x => x
  | None => JUndefined
  end.

(** How a field of a loaded item follows from the item object [f] of the
    document: the default when the key is missing, else what the document
    holds (the default again for [null]). *)
Definition loaded_field (key : string) (dflt : JsVal)
           (f : list (string * JsVal)) (got : JsVal) : Prop :=
  (missing key f -> got = dflt) /\
  (forall v, lookup_field key f = Some v -> got = nullish v dflt).

Definition loaded_from (f : list (string * JsVal)) (r : StudioItem) : Prop :=
  loaded_field "volume" (JNum (8 # 10)) f (volume r) /\
  loaded_field "startPoint" (JNum 0) f (startPoint r) /\
  loaded_field "isLooping" (JBool false) f (isLooping r) /\
  loaded_field "assignedKey" JNull f (assignedKey r).

(** The loader showed no dialog and logged no error. *)
Definition quiet (st st' : State) : Prop :=
  alerts st' = alerts st /\ errors st' = errors st.

(** Two documents: one of the first format, with [tracks] and no [items];
    one whose items leave optional fields out. *)
Definition legacy_document : list (string * JsVal) :=
  [("version", JNum 1); ("name", JStr "Old set");
   ("tracks", JArr [JObj [("id", JStr "t1"); ("name", JStr "Kick")]])].

Definition sparse_items : list JsVal :=
  [JObj [("id", JStr "t1"); ("name", JStr "Kick")];
   JObj [("name", JStr "Snare"); ("volume", JNum (1 # 2));
         ("isLooping", JBool true); ("assignedKey", JStr "Digit1");
         ("path", JStr "C:/snare.wav")]].

Definition sparse_document : list (string * JsVal) :=
  [("version", JNum 2); ("name", JStr ""); ("items", JArr sparse_items)].

Definition fresh : State :=
  {| sessionName := JStr "My Set"; items := []; alerts := []; errors := [];
     idsDrawn := 0 |}.

Definition uuid (k : nat) : string :=
  String.append "uuid-" (String (ascii_of_nat (48 + k)) "").

Definition asset (p : JsVal) : JsVal :=
  match p with
  | JStr s => JStr (String.append "asset://" s)
  | _ => p
  end.

(** An element of [items] for which the loader draws a fresh id: an object
    whose [id] is missing or falsy. *)
Definition needs_id (item : JsVal) : bool :=
  match item with
  | JObj f => negb (truthy (field "id" f))
  | _ => false
  end.

End Session.

(* ===================================================================== *)
(** * src/types.ts, src/components/AudioCard.tsx, src/App.tsx             *)
(* ===================================================================== *)

Module Studio.

(** ** types.ts *)

Inductive ItemType := audio.

Record TrackData := mkTrack {
  id : string;
  type : ItemType;
  name : string;
  fileUrl : string;
  volume : Q;
  startPoint : Q;
  isLooping : bool;
  assignedKey : option string;
  duration : Q;
  path : option string
}.

(** [Partial<TrackData>]: [None] is a key that the object literal does
    not have. *)
Record Updates := mkUpdates {
  u_id : option string;
  u_type : option ItemType;
  u_name : option string;
  u_fileUrl : option string;
  u_volume : option Q;
  u_startPoint : option Q;
  u_isLooping : option bool;
  u_assignedKey : option (option string);
  u_duration : option Q;
  u_path : option (option string)
}.

(** The object literals that the program passes as updates. *)
Definition upd_volume (v : Q) : Updates :=
  {| u_id := None; u_type := None; u_name := None; u_fileUrl := None;
     u_volume := Some v; u_startPoint := None; u_isLooping := None;
     u_assignedKey := None; u_duration := None; u_path := None |}.

Definition upd_startPoint (t : Q) : Updates :=
  {| u_id := None; u_type := None; u_name := None; u_fileUrl := None;
     u_volume := None; u_startPoint := Some t; u_isLooping := None;
     u_assignedKey := None; u_duration := None; u_path := None |}.

Definition upd_isLooping (b : bool) : Updates :=
  {| u_id := None; u_type := None; u_name := None; u_fileUrl := None;
     u_volume := None; u_startPoint := None; u_isLooping := Some b;
     u_assignedKey := None; u_duration := None; u_path := None |}.

Definition upd_assignedKey (code : string) : Updates :=
  {| u_id := None; u_type := None; u_name := None; u_fileUrl := None;
     u_volume := None; u_startPoint := None; u_isLooping := None;
     u_assignedKey := Some (Some code); u_duration := None; u_path := None |}.

(** [{ ...item, ...updates }]. *)
Definition apply_updates (item : TrackData) (u : Updates) : TrackData :=
  {| id := default (id item) (u_id u);
     type := default (type item) (u_type u);
     name := default (name item) (u_name u);
     fileUrl := default (fileUrl item) (u_fileUrl u);
     volume := default (volume item) (u_volume u);
     startPoint := default (startPoint item) (u_startPoint u);
     isLooping := default (isLooping item) (u_isLooping u);
     assignedKey := default (assignedKey item) (u_assignedKey u);
     duration := default (duration item) (u_duration u);
     path := default (path item) (u_path u) |}.

Definition is_audio (t : ItemType) : bool := match t with audio => true end.

(** ** Numbers and key codes *)

Definition Qltb (x y : Q) : bool := negb (Qle_bool y x).

(** [Math.min(hi, Math.max(lo, x))]. *)
Definition clamp (lo hi x : Q) : Q := Qmin hi (Qmax lo x).

Definition step : Q := 1 # 20.   (* 0.05 *)

(** *** Sums of doubles

    Rounding of [num / den] ([den > 0]) to the nearest integer, ties to
    the even one. *)
Definition nearest_even (num den : Z) : Z :=
  let fl := num / den in
  match 2 * (num mod den) ?= den with
  | Lt => fl
  | Gt => fl + 1
  | Eq => if Z.even fl then fl else fl + 1
  end.

(** The double nearest to [n / d], for [n > 0]: the exponent of the unit
    in the last place is [floor (log2 (n / d)) - 52], and not below
    [-1074] (subnormal numbers). *)
Definition round_pos (n : Z) (d : positive) : Q :=
  let k := Z.log2 n - Z.log2 (Zpos d) in
  let below := if 0 <=? k then n <? 2 ^ k * Zpos d
               else n * 2 ^ (- k) <? Zpos d in
  let e0 := if below then k - 1 else k in
  let e := Z.max (e0 - 52) (-1074) in
  if 0 <=? e
  then inject_Z (nearest_even n (Zpos d * 2 ^ e) * 2 ^ e)
  else nearest_even (n * 2 ^ (- e)) (Zpos d) # Z.to_pos (2 ^ (- e)).

(** [double_round q]: the IEEE 754 binary64 number nearest to [q], ties
    to even; a number literal such as [0.05] and a stored rational stand
    for the double nearest to them.  Beyond the largest double, where
    JavaScript has [Infinity], the value is the one an unbounded exponent
    gives ([Math.min(1, Math.max(0, x))] is the same for both). *)
Definition double_round (q : Q) : Q :=
  match Qnum q with
  | Z0 => 0
  | Zpos n => Qred (round_pos (Zpos n) (Qden q))
  | Zneg n => Qred (- round_pos (Zpos n) (Qden q))
  end%Q.

(** [x + y] of JavaScript, on the doubles that [x] and [y] stand for. *)
Definition js_add (x y : Q) : Q :=
  double_round (double_round x + double_round y).

(** Half a unit in the last place of the doubles between 1 and 2. *)
Definition ulp52 : Q := 1 # (2 ^ 52).

Definition is_digit (c : ascii) : bool :=
  (Nat.leb 48 (nat_of_ascii c)) && (Nat.leb (nat_of_ascii c) 57).

(** The normalisation shared by the key capture and the router:
    [if (code.startsWith('Numpad') && /\d/.test(code))
       code = code.replace('Numpad', 'Digit')]. *)
Definition normalizeCode (code : string) : string :=
  if String.prefix "Numpad" code
     && existsb is_digit (list_ascii_of_string code)
  then String.append "Digit" (String.substring 6 (String.length code - 6) code)
  else code.

(** ** The audio element of a card *)

(** The part of an [HTMLAudioElement] that the program reads and
    writes.  [el_playable] tells whether the promise of [play()] is
    fulfilled; when it is rejected the program only logs
    ("Playback failed") and the element stays as it was. *)
Record HTMLAudioElement := mkAudio {
  el_paused : bool;
  el_currentTime : Q;
  el_playable : bool
}.

Record DOMRect := mkRect { left : Q; width : Q }.

(** ** AudioCard.tsx : one mounted card *)

(** The [track] prop, the refs, the React state of the card, and the
    state ([lastVolume]) of its [VolumeControl] child.  The states that
    only drive loading and drawing ([audioSrc], [waveformGenerated]) are
    left out. *)
Record AudioCard := mkCard {
  track : TrackData;
  audioRef : option HTMLAudioElement;
  progressRef : option DOMRect;
  isPlaying : bool;
  currentTime : Q;
  cardDuration : Q;
  waitingForKey : bool;
  isScrubbing : bool;
  lastVolume : Q
}.

Definition set_track (t : TrackData) (c : AudioCard) : AudioCard :=
  mkCard t (audioRef c) (progressRef c) (isPlaying c) (currentTime c)
         (cardDuration c) (waitingForKey c) (isScrubbing c) (lastVolume c).
Definition set_audio (a : HTMLAudioElement) (c : AudioCard) : AudioCard :=
  mkCard (track c) (Some a) (progressRef c) (isPlaying c) (currentTime c)
         (cardDuration c) (waitingForKey c) (isScrubbing c) (lastVolume c).
Definition setIsPlaying (b : bool) (c : AudioCard) : AudioCard :=
  mkCard (track c) (audioRef c) (progressRef c) b (currentTime c)
         (cardDuration c) (waitingForKey c) (isScrubbing c) (lastVolume c).
Definition setCurrentTime (t : Q) (c : AudioCard) : AudioCard :=
  mkCard (track c) (audioRef c) (progressRef c) (isPlaying c) t
         (cardDuration c) (waitingForKey c) (isScrubbing c) (lastVolume c).
Definition setWaitingForKey (b : bool) (c : AudioCard) : AudioCard :=
  mkCard (track c) (audioRef c) (progressRef c) (isPlaying c) (currentTime c)
         (cardDuration c) b (isScrubbing c) (lastVolume c).
Definition setIsScrubbing (b : bool) (c : AudioCard) : AudioCard :=
  mkCard (track c) (audioRef c) (progressRef c) (isPlaying c) (currentTime c)
         (cardDuration c) (waitingForKey c) b (lastVolume c).
Definition setLastVolume (v : Q) (c : AudioCard) : AudioCard :=
  mkCard (track c) (audioRef c) (progressRef c) (isPlaying c) (currentTime c)
         (cardDuration c) (waitingForKey c) (isScrubbing c) v.

(** The card as React mounts it for [t]: [useState(false)],
    [useState(0)], [useState(track.duration || 0)], ..., and
    [useState(1)] in [VolumeControl]. *)
Definition mount (t : TrackData) (a : option HTMLAudioElement)
           (r : option DOMRect) : AudioCard :=
  {| track := t; audioRef := a; progressRef := r;
     isPlaying := false; currentTime := 0;
     cardDuration := if Qeq_bool (duration t) 0 then 0 else duration t;
     waitingForKey := false; isScrubbing := false;
     lastVolume := 1 |}.

(** *** The element's methods, with the listeners they set off

    [audio.pause()] on a playing element sets [paused] and fires
    [pause], whose listener [handlePause] is [setIsPlaying(false)]. *)
Definition audio_pause (c : AudioCard) : AudioCard :=
  match audioRef c with
  | None => c
  | Some a =>
      if el_paused a then c
      else setIsPlaying false
             (set_audio (mkAudio true (el_currentTime a) (el_playable a)) c)
  end.

(** [audio.play().catch(...)]: a paused element that accepts the call
    starts and fires [play], whose listener [handlePlay] is
    [setIsPlaying(true)]; a rejected call is logged and changes
    nothing. *)
Definition audio_play (c : AudioCard) : AudioCard :=
  match audioRef c with
  | None => c
  | Some a =>
      if el_playable a then
        if el_paused a then
          setIsPlaying true
            (set_audio (mkAudio false (el_currentTime a) (el_playable a)) c)
        else c
      else c
  end.

(** [audio.currentTime = t]. *)
Definition audio_seek (t : Q) (c : AudioCard) : AudioCard :=
  match audioRef c with
  | None => c
  | Some a => set_audio (mkAudio (el_paused a) t (el_playable a)) c
  end.

(** *** The handle of [useImperativeHandle] *)

Definition play (c : AudioCard) : AudioCard :=
  match audioRef c with
  | Some a =>
      let c1 := if Qltb (el_currentTime a) (startPoint (track c))
                then audio_seek (startPoint (track c)) c
                else c in
      audio_play c1
  | None => c
  end.

Definition pause (c : AudioCard) : AudioCard := audio_pause c.

Definition stop (c : AudioCard) : AudioCard :=
  match audioRef c with
  | Some _ =>
      setIsPlaying false (audio_seek (startPoint (track c)) (audio_pause c))
  | None => c
  end.

(** *** Listeners of the element *)

Definition handleTimeUpdate (c : AudioCard) : AudioCard :=
  match audioRef c with
  | Some a => if isScrubbing c then c else setCurrentTime (el_currentTime a) c
  | None => c
  end.

Definition handleEnded (c : AudioCard) : AudioCard :=
  if isLooping (track c) then
    audio_play (audio_seek (startPoint (track c)) c)
  else
    audio_seek (startPoint (track c)) (setIsPlaying false c).

(** *** Handlers of the card's controls

    What a handler asks of its parent: the calls of the [onUpdate] and
    [onPlayRequest] props. *)
Inductive Callback :=
| onUpdate (i : string) (updates : Updates)
| onPlayRequest (i : string) (shiftKey : bool).

Definition handlePlayClick (shiftKey : bool) (c : AudioCard)
  : AudioCard * list Callback :=
  if isPlaying c then (audio_pause c, [])
  else (c, [onPlayRequest (id (track c)) shiftKey]).

Definition handleStopClick (c : AudioCard) : AudioCard * list Callback :=
  match audioRef c with
  | Some _ => (audio_seek (startPoint (track c)) (audio_pause c), [])
  | None => (c, [])
  end.

(** [handleScrub(clientX)].  The rectangle of the laid-out progress bar
    has a positive width; the quotient by a zero width is not a number
    and is outside this model. *)
Definition handleScrub (clientX : Q) (c : AudioCard) : AudioCard :=
  match progressRef c with
  | Some rect =>
      if Qeq_bool (cardDuration c) 0 then c
      else
        let x := (clientX - left rect)%Q in
        let p := Qmax 0 (Qmin 1 (x / width rect)) in
        let newTime := (p * cardDuration c)%Q in
        setCurrentTime newTime (audio_seek newTime c)
  | None => c
  end.

Definition startScrub (button : Z) (clientX : Q) (c : AudioCard) : AudioCard :=
  if negb (button =? 0) then c
  else handleScrub clientX (setIsScrubbing true c).

(** [handleSetStartPoint]: the SET CUE button. *)
Definition handleSetStartPoint (c : AudioCard) : AudioCard * list Callback :=
  let newStart := currentTime c in
  (c, [onUpdate (id (track c)) (upd_startPoint newStart)]).

(** The [keydown] listener installed while [waitingForKey] holds. *)
Definition handleKeyDown (code : string) (c : AudioCard)
  : AudioCard * list Callback :=
  if waitingForKey c then
    (setWaitingForKey false c,
     [onUpdate (id (track c)) (upd_assignedKey (normalizeCode code))])
  else (c, []).

(** [VolumeControl.toggleMute]; [volume] is the prop [track.volume] and
    [onChange(vol)] is [onUpdate(track.id, { volume: vol })]. *)
Definition toggleMute (c : AudioCard) : AudioCard * list Callback :=
  let volume := volume (track c) in
  if Qltb 0 volume then
    (setLastVolume volume c, [onUpdate (id (track c)) (upd_volume 0)])
  else
    let restored := if Qeq_bool (lastVolume c) 0 then (8 # 10)%Q
                    else lastVolume c in
    (c, [onUpdate (id (track c)) (upd_volume restored)]).

Inductive CardEvent :=
| ClickPlay (shiftKey : bool)
| ClickStop
| ClickLoop
| ClickKeyBadge
| KeyDown (code : string)
| MouseDownProgress (button : Z) (clientX : Q)
| ClickSetCue
| ClickMute
| TimeUpdate
| Ended.

Definition card_handler (e : CardEvent) (c : AudioCard)
  : AudioCard * list Callback :=
  match e with
  | ClickPlay shiftKey => handlePlayClick shiftKey c
  | ClickStop => handleStopClick c
  | ClickLoop =>
      (c, [onUpdate (id (track c)) (upd_isLooping (negb (isLooping (track c))))])
  | ClickKeyBadge => (setWaitingForKey true c, [])
  | KeyDown code => handleKeyDown code c
  | MouseDownProgress button clientX => (startScrub button clientX c, [])
  | ClickSetCue => handleSetStartPoint c
  | ClickMute => toggleMute c
  | TimeUpdate => (handleTimeUpdate c, [])
  | Ended =>
      (* the browser pauses the element at the end of the media, then
         fires [ended] *)
      (handleEnded (audio_pause c), [])
  end.

(** ** App.tsx *)

(** [trackRefs.current] is an object keyed by track id; a key can hold
    [null] (the ref callback of an unmounted card).

    The [keydown] listener is installed by an effect with dependencies
    [[items, handlePlayRequest]]: it is the closure of the last render in
    which [items] changed ([handlePlayRequest] never changes), so the
    [selectedItemId] it reads is the one of that render,
    [listener_selectedItemId]; its [items] are the current ones, and
    [trackRefs.current] is read through the ref. *)
Record App := mkApp {
  items : list TrackData;
  sessionName : string;
  trackRefs : gmap string (option AudioCard);
  selectedItemId : option string;
  listener_selectedItemId : option string
}.

(** [setItems(l)] with a new array, as every caller passes one (the
    results of [map], [filter] and of a spread): the render that follows
    runs the effect again, and the new listener closes over the current
    [selectedItemId]. *)
Definition setItems (l : list TrackData) (st : App) : App :=
  mkApp l (sessionName st) (trackRefs st) (selectedItemId st)
        (selectedItemId st).
Definition set_trackRefs (m : gmap string (option AudioCard)) (st : App) : App :=
  mkApp (items st) (sessionName st) m (selectedItemId st)
        (listener_selectedItemId st).

(** [onSelect(track.id)], that is [setSelectedItemId]: a click on a card.
    [items] does not change, so the listener stays as it is. *)
Definition setSelectedItemId (i : string) (st : App) : App :=
  mkApp (items st) (sessionName st) (trackRefs st) (Some i)
        (listener_selectedItemId st).

Definition handleUpdateTrack (i : string) (updates : Updates)
           (prev : list TrackData) : list TrackData :=
  List.map (fun item =>
              if String.eqb (id item) i && is_audio (type item)
              then apply_updates item updates
              else item) prev.

(** [handle.isPlaying()] for an entry of [trackRefs.current]. *)
Definition ref_isPlaying (ref : option AudioCard) : bool :=
  match ref with
  | Some handle => isPlaying handle
  | None => false
  end.

Definition handlePlayRequest (targetId : string) (shiftKey : bool)
           (refs : gmap string (option AudioCard))
  : gmap string (option AudioCard) :=
  let targetRef := refs !! targetId in
  let refs1 :=
    if negb shiftKey then
      (* Exclusive mode: stop others *)
      map_imap (fun i ref =>
                  Some (if negb (String.eqb i targetId) && ref_isPlaying ref
                        then stop <$> ref
                        else ref)) refs
    else refs in
  match targetRef with
  | Some (Some handle) => <[targetId := Some (play handle)]> refs1
  | _ => refs1
  end.

Inductive Target := HTMLInputElement | HTMLTextAreaElement | OtherElement.

Record KeyboardEvent := mkKey {
  target : Target;
  code : string;
  shiftKey : bool
}.

Definition holds_key (k : string) (t : TrackData) : bool :=
  match assignedKey t with
  | Some k' => String.eqb k' k
  | None => false
  end.

(** The ids of the entries of [trackRefs.current] that are playing. *)
Definition playingIds (refs : gmap string (option AudioCard)) : list string :=
  (map_to_list (filter (fun kv => ref_isPlaying (snd kv) = true) refs)).*1.

Definition selected_truthy (sel : option string) : bool :=
  match sel with
  | Some s => negb (String.eqb s "")
  | None => false
  end.

(** [handleGlobalKeyDown]; the first component tells whether
    [e.preventDefault()] was called. *)
Definition handleGlobalKeyDown (e : KeyboardEvent) (st : App) : bool * App :=
  match target e with
  | HTMLInputElement | HTMLTextAreaElement => (false, st)
  | OtherElement =>
      if String.eqb (code e) "Space" then
        (true,
         set_trackRefs
           ((fun ref => if ref_isPlaying ref then pause <$> ref else ref)
              <$> trackRefs st) st)
      else
        let code := normalizeCode (code e) in
        if selected_truthy (listener_selectedItemId st)
           && (String.eqb code "ArrowUp" || String.eqb code "ArrowDown")
        then
          (true,
           match listener_selectedItemId st with
           | Some sel =>
               match List.find (fun i => String.eqb (id i) sel) (items st) with
               | Some item =>
                   if is_audio (type item) then
                     let delta := if String.eqb code "ArrowUp" then step
                                  else (- step)%Q in
                     let newVol := clamp 0 1 (js_add (volume item) delta) in
                     setItems (handleUpdateTrack (id item) (upd_volume newVol)
                                                 (items st)) st
                   else st
               | None => st
               end
           | None => st
           end)
        else if String.eqb code "Comma" || String.eqb code "Period" then
          let delta := if String.eqb code "Period" then step else (- step)%Q in
          let ids := playingIds (trackRefs st) in
          if Nat.ltb 0 (List.length ids) then
            (true,
             setItems
               (List.map
                  (fun item =>
                     if bool_decide (id item ∈ ids) && is_audio (type item)
                     then apply_updates item
                            (upd_volume (clamp 0 1 (js_add (volume item) delta)))
                     else item)
                  (items st)) st)
          else (false, st)
        else
          match List.find
                  (fun t => is_audio (type t) && holds_key code t)
                  (items st) with
          | Some matchedTrack =>
              (true,
               match trackRefs st !! id matchedTrack with
               | Some (Some ref) =>
                   if isPlaying ref then
                     set_trackRefs
                       (<[id matchedTrack := Some (play (stop ref))]>
                          (trackRefs st)) st
                   else
                     set_trackRefs
                       (handlePlayRequest (id matchedTrack) (shiftKey e)
                                          (trackRefs st)) st
               | _ => st
               end)
          | None => (false, st)
          end
  end.

(** *** Events of a card, seen from [App]

    React renders again after a state change: every mounted card gets
    the current item of its id as [track] prop. *)
Definition rerender (st : App) : App :=
  set_trackRefs
    ((fun ref : option AudioCard =>
        (fun c =>
           match List.find (fun t => String.eqb (id t) (id (track c)))
                           (items st) with
           | Some t => set_track t c
           | None => c
           end) <$> ref) <$> trackRefs st) st.

Definition perform (st : App) (cb : Callback) : App :=
  match cb with
  | onUpdate i updates => setItems (handleUpdateTrack i updates (items st)) st
  | onPlayRequest i shiftKey =>
      set_trackRefs (handlePlayRequest i shiftKey (trackRefs st)) st
  end.

(** Event [e] reaches the card registered under [i]: its handler runs,
    the callbacks it made run in [App], and React renders. *)
Definition dispatch (i : string) (e : CardEvent) (st : App) : App :=
  match trackRefs st !! i with
  | Some (Some c) =>
      let '(c', cbs) := card_handler e c in
      rerender
        (fold_left perform cbs
                   (set_trackRefs (<[i := Some c']> (trackRefs st)) st))
  | _ => st
  end.

(** ** Transport states of a card, and sound application states *)

(** Playing: the card shows itself as playing and its element runs. *)
Definition Playing (c : AudioCard) : Prop :=
  isPlaying c = true /\
  exists a, audioRef c = Some a /\ el_paused a = false.

(** Stopped: not playing, with the playhead on the start cue. *)
Definition Stopped (c : AudioCard) : Prop :=
  isPlaying c = false /\
  exists a, audioRef c = Some a /\ el_paused a = true /\
            el_currentTime a = startPoint (track c).

#[global] Instance Q_eq_dec : EqDecision Q.
Proof. solve_decision. Defined.
#[global] Instance ItemType_eq_dec : EqDecision ItemType.
Proof. solve_decision. Defined.
#[global] Instance TrackData_eq_dec : EqDecision TrackData.
Proof. solve_decision. Defined.

Definition keys_unique (l : list TrackData) : Prop :=
  forall k, (List.length (List.filter (holds_key k) l) <= 1)%nat.

Definition keys_uniqueb (l : list TrackData) : bool :=
  forallb (fun t => match assignedKey t with
                    | Some k => Nat.leb (List.length (List.filter (holds_key k) l)) 1
                    | None => true
                    end) l.

(** The card registered for item [t] shows [t], has its audio element,
    that element accepts [play()], and [isPlaying] agrees with it. *)
Definition card_okb (st : App) (t : TrackData) : bool :=
  match trackRefs st !! id t with
  | Some (Some c) =>
      bool_decide (track c = t)
      && match audioRef c with
         | Some a => el_playable a && Bool.eqb (isPlaying c) (negb (el_paused a))
         | None => false
         end
  | _ => false
  end.

(** A state as the running application keeps it: ids and assigned keys
    are not shared, and every item has its card. *)
Definition well_formed (st : App) : bool :=
  bool_decide (NoDup (List.map id (items st)))
  && keys_uniqueb (items st)
  && forallb (card_okb st) (items st).

(** ** Concrete stages *)

Definition clip (i : string) (key : option string) (start : Q) : TrackData :=
  {| id := i; type := audio; name := i; fileUrl := ""; volume := 8 # 10;
     startPoint := start; isLooping := false; assignedKey := key;
     duration := 10; path := None |}.

Definition card_of (t : TrackData) (playing : bool) (time : Q) : AudioCard :=
  {| track := t;
     audioRef := Some (mkAudio (negb playing) time true);
     progressRef := Some (mkRect 0 100);
     isPlaying := playing; currentTime := time; cardDuration := duration t;
     waitingForKey := false; isScrubbing := false; lastVolume := 1 |}.

(** Clip "a" plays, five seconds in, with its cue at one second; clip "b"
    is stopped on its cue at zero. *)
Definition stage (keyA keyB : option string) : App :=
  let a := clip "a" keyA 1 in
  let b := clip "b" keyB 0 in
  {| items := [a; b];
     sessionName := "My Set";
     trackRefs := <["a" := Some (card_of a true 5)]>
                    (<["b" := Some (card_of b false 0)]> ∅);
     selectedItemId := None;
     listener_selectedItemId := None |}.

Definition press (c : string) (shift : bool) : KeyboardEvent :=
  {| target := OtherElement; code := c; shiftKey := shift |}.

(** ** Routing and key assignment *)

(** The router gets to the key lookup when the target is no text field
    and the key is none of those it keeps for itself: Space (pause all),
    Comma and Period (volume of the playing clips), and the arrow keys
    while the listener holds a selection (volume of that clip). *)
Definition routed (e : KeyboardEvent) (st : App) : Prop :=
  target e = OtherElement /\
  code e <> "Space" /\
  normalizeCode (code e) <> "Comma" /\
  normalizeCode (code e) <> "Period" /\
  (selected_truthy (listener_selectedItemId st) = true ->
   normalizeCode (code e) <> "ArrowUp" /\ normalizeCode (code e) <> "ArrowDown").

(** The lookup of the router: the first item, in list order, that is
    bound to the pressed key. *)
Definition matchedTrack (e : KeyboardEvent) (st : App) : option TrackData :=
  List.find (fun t => is_audio (type t) && holds_key (normalizeCode (code e)) t)
            (items st).

(** [{ ...t, assignedKey: k }]. *)
Definition assign_key (k : string) (t : TrackData) : TrackData :=
  mkTrack (id t) (type t) (name t) (fileUrl t) (volume t) (startPoint t)
          (isLooping t) (Some k) (duration t) (path t).

(** ** The claims of the specification, worded over this model *)

(** Key-assignment uniqueness: capturing a key for a clip keeps assigned
    keys unshared. *)
Definition key_uniqueness_claim : Prop :=
  forall (st : App) (b code : string),
    well_formed st = true ->
    keys_unique (items (dispatch b (KeyDown code) st)).

(** Start-cue setter: the stored cue lies in [0, duration). *)
Definition start_cue_claim : Prop :=
  forall (st : App) (i : string) (c : AudioCard),
    well_formed st = true ->
    trackRefs st !! i = Some (Some c) ->
    forall t, In t (items (dispatch i ClickSetCue st)) ->
              id t = id (track c) ->
              (0 <= startPoint t)%Q /\ (startPoint t < duration t)%Q.

(** Mute round trip, and the volume restored when nothing was
    remembered. *)
Definition mute_claim : Prop :=
  (forall (st : App) (i : string) (c : AudioCard),
      trackRefs st !! i = Some (Some c) ->
      In (track c) (items st) ->
      (0 < volume (track c))%Q ->
      let st1 := dispatch i ClickMute st in
      let st2 := dispatch i ClickMute st1 in
      (forall t, In t (items st1) -> id t = id (track c) -> volume t = 0%Q) /\
      (forall t, In t (items st2) -> id t = id (track c) ->
                 volume t = volume (track c)))
  /\
  (forall (t : TrackData) (a : option HTMLAudioElement) (r : option DOMRect),
      (volume t == 0)%Q ->
      snd (toggleMute (mount t a r)) = [onUpdate (id t) (upd_volume (8 # 10))]).

(** ** More of App.tsx and AudioCard.tsx *)

(** [handleRemoveItem], with the listener that the render after it
    installs ([filter] gives a new array); the card itself is unmounted by
    that render. *)
Definition handleRemoveItem (i : string) (st : App) : App :=
  let item := List.find (fun t => String.eqb (id t) i) (items st) in
  let refs := match item with
              | Some t => if is_audio (type t) then delete i (trackRefs st)
                          else trackRefs st
              | None => trackRefs st
              end in
  mkApp (List.filter (fun t => negb (String.eqb (id t) i)) (items st))
        (sessionName st) refs (selectedItemId st) (selectedItemId st).

Definition is_sep (c : ascii) : bool :=
  Ascii.eqb c "/" || Ascii.eqb c "\".

(** The longest prefix of [l] without an element that satisfies [p], and
    what follows it. *)
Fixpoint span_until {A} (p : A -> bool) (l : list A) : list A * list A :=
  match l with
  | [] => ([], [])
  | x :: l' =>
      if p x then ([], l)
      else let '(a, b) := span_until p l' in (x :: a, b)
  end.

(** [path.split(/[\\/]/).pop()]: what follows the last separator. *)
Definition last_segment (cs : list ascii) : list ascii :=
  rev (fst (span_until is_sep (rev cs))).

(** [seg.replace(/\.[^/.]+$/, "")]: a final dot with at least one
    character after it, none of them a dot or a slash, is cut off. *)
Definition strip_extension (seg : list ascii) : list ascii :=
  let '(ext, rest) :=
    span_until (fun c => Ascii.eqb c "." || Ascii.eqb c "/") (rev seg) in
  match rest, ext with
  | dot :: before, _ :: _ => if Ascii.eqb dot "." then rev before else seg
  | _, _ => seg
  end.

(** The name given to a new track:
    [path.split(/[\\/]/).pop()?.replace(/\.[^/.]+$/, "") || "Untitled"]. *)
Definition trackName (path : string) : string :=
  match strip_extension (last_segment (list_ascii_of_string path)) with
  | [] => "Untitled"
  | cs => string_of_list_ascii cs
  end.

(** A character that neither the split nor the extension pattern
    stops at: no dot and no separator. *)
Definition plain (c : ascii) : Prop := c <> "."%char /\ is_sep c = false.

Section AddFiles.

(** [uuidv4] and Tauri's [convertFileSrc]; [generateId k] is the id
    returned by the [k]-th call. *)
Variable generateId : nat -> string.
Variable convertFileSrc : string -> string.

Definition newTrack (k : nat) (p : string) : TrackData :=
  {| id := generateId k;
     type := audio;
     name := trackName p;
     fileUrl := convertFileSrc p;
     volume := 8 # 10;
     startPoint := 0;
     isLooping := false;
     assignedKey := None;
     duration := 0;
     path := Some p |}.

Fixpoint newTracks (k : nat) (paths : list string) : list TrackData :=
  match paths with
  | [] => []
  | p :: rest => newTrack k p :: newTracks (S k) rest
  end.

(** [handleAddFiles]; [selected] is what the dialog returned ([None] when
    it was closed), [drawn] the number of ids drawn so far. *)
Definition handleAddFiles (selected : option (list string)) (drawn : nat)
           (st : App) : App :=
  match selected with
  | Some paths => setItems (items st ++ newTracks drawn paths) st
  | None => st
  end.

End AddFiles.

(** The wheel listener of [VolumeControl]: [deltaY > 0] turns the volume
    down. *)
Definition onWheel (deltaY : Q) (c : AudioCard) : AudioCard * list Callback :=
  let delta := if Qltb 0 deltaY then (- step)%Q else step in
  let newVol := clamp 0 1 (js_add (volume (track c)) delta) in
  (c, [onUpdate (id (track c)) (upd_volume newVol)]).

(** [st'] is [st] but for the listener: same items, name, cards and
    selection. *)
Definition same_but_listener (st st' : App) : Prop :=
  items st' = items st /\ sessionName st' = sessionName st /\
  trackRefs st' = trackRefs st /\ selectedItemId st' = selectedItemId st.

(** The card registered under [i] shows itself as playing. *)
Definition plays (refs : gmap string (option AudioCard)) (i : string) : bool :=
  match refs !! i with
  | Some ref => ref_isPlaying ref
  | None => false
  end.

(** What the Space branch of the router does to an entry. *)
Definition pause_if_playing (ref : option AudioCard) : option AudioCard :=
  if ref_isPlaying ref then pause <$> ref else ref.

(** The card's flag and its element agree: the card shows itself as
    playing exactly when it has an element and the element runs. *)
Definition in_sync (c : AudioCard) : Prop :=
  isPlaying c = match audioRef c with
                | Some a => negb (el_paused a)
                | None => false
                end.

Definition all_in_sync (refs : gmap string (option AudioCard)) : Prop :=
  forall i c, refs !! i = Some (Some c) -> in_sync c.

End Studio.

(* ===================================================================== *)
(** * src/App.tsx : saving a session ([handleSaveSession])                *)
(* ===================================================================== *)

Module Persist.
Import Session.

(** The object that [handleSaveSession] builds for an item; a track
    without path has [path: undefined]. *)
Definition savedTrack (t : Studio.TrackData) : JsVal :=
  JObj [("id", JStr (Studio.id t));
        ("type", JStr "audio");
        ("name", JStr (Studio.name t));
        ("volume", JNum (Studio.volume t));
        ("startPoint", JNum (Studio.startPoint t));
        ("isLooping", JBool (Studio.isLooping t));
        ("assignedKey", match Studio.assignedKey t with
                        | Some k => JStr k
                        | None => JNull
                        end);
        ("path", match Studio.path t with
                 | Some p => JStr p
                 | None => JUndefined
                 end)].

(** [sessionData]. *)
Definition sessionData (st : Studio.App) : JsVal :=
  JObj [("version", JNum 2);
        ("name", JStr (Studio.sessionName st));
        ("items", JArr (List.map savedTrack (Studio.items st)))].

(** [JSON.parse(JSON.stringify(v))] for a value made of objects, arrays,
    strings, numbers, booleans, [null] and [undefined]: a property that
    holds [undefined] is left out, [undefined] in an array comes back as
    [null], everything else comes back as it was. *)
Fixpoint reparse (v : JsVal) : JsVal :=
  match v with
  | JArr elems =>
      JArr (List.map (fun x => match x with
                               | JUndefined => JNull
                               | _ => reparse x
                               end) elems)
  | JObj fields =>
      JObj (List.flat_map (fun '(k, x) => match x with
                                          | JUndefined => []
                                          | _ => [(k, reparse x)]
                                          end) fields)
  | _ => v
  end.

(** What [handleSaveSession] did: the dialog shown, and the file written,
    as the path and the value whose JSON text went into it. *)
Record Saved := mkSaved {
  shown : list string;
  written : option (string * JsVal)
}.

(** [handleSaveSession]; [picked] is what the save dialog returned and
    [write_ok] tells whether [writeTextFile] was fulfilled. *)
Definition handleSaveSession (picked : option string) (write_ok : bool)
           (st : Studio.App) : Saved :=
  match picked with
  | None => mkSaved [] None
  | Some file =>
      if String.eqb file "" then mkSaved [] None
      else if write_ok
           then mkSaved ["Session saved successfully!"]
                        (Some (file, sessionData st))
           else mkSaved ["Failed to save session."] None
  end.

(** The item that the loader builds from a saved track. *)
Definition restored (convertFileSrc : JsVal -> JsVal) (t : Studio.TrackData)
  : StudioItem :=
  {| id := JStr (Studio.id t);
     type := "audio";
     name := JStr (Studio.name t);
     fileUrl := match Studio.path t with
                | Some p => if String.eqb p "" then JStr ""
                            else convertFileSrc (JStr p)
                | None => JStr ""
                end;
     path := match Studio.path t with
             | Some p => JStr p
             | None => JUndefined
             end;
     volume := JNum (Studio.volume t);
     startPoint := JNum (Studio.startPoint t);
     isLooping := JBool (Studio.isLooping t);
     assignedKey := match Studio.assignedKey t with
                    | Some k => JStr k
                    | None => JNull
                    end;
     duration := JNum 0 |}.

End Persist.

(* ===================================================================== *)
(** * Properties of the decode queue                                      *)
(* ===================================================================== *)

Module DecodeQueueFacts.
Import DecodeQueue.

Section Facts.
Context {ArrayBuffer AudioBuffer DecodeError : Type}.
Abbreviation State := (State ArrayBuffer AudioBuffer DecodeError).
Abbreviation Event := (Event ArrayBuffer AudioBuffer DecodeError).
Implicit Types (s : State) (t : Task ArrayBuffer) (r : DecodeResult AudioBuffer DecodeError).

Lemma inv_init : Inv (@init ArrayBuffer AudioBuffer DecodeError).
Proof.
  constructor; simpl; try reflexivity; try lia; try constructor.
  intros H; congruence.
Qed.

Lemma find_task_some p (l : list (Task ArrayBuffer)) t :
  find_task p l = Some t -> In t l /\ promise t = p.
Proof.
  unfold find_task. intros H. apply find_some in H as [H1 H2].
  split; [exact H1|]. now apply Nat.eqb_eq.
Qed.

Lemma find_task_in (l : list (Task ArrayBuffer)) t :
  List.NoDup (List.map promise l) -> In t l -> find_task (promise t) l = Some t.
Proof.
  induction l as [|a l IH]; simpl; intros Hnd Hin; [tauto|].
  inversion Hnd as [|? ? Hni Hnd']; subst.
  destruct Hin as [->|Hin].
  - now rewrite Nat.eqb_refl.
  - destruct (Nat.eqb_spec (promise a) (promise t)) as [e|ne].
    + exfalso. apply Hni. rewrite e. now apply in_map.
    + now apply IH.
Qed.

Lemma remove_task_perm p (l : list (Task ArrayBuffer)) t :
  find_task p l = Some t -> Permutation l (t :: remove_task p l).
Proof.
  unfold find_task. induction l as [|a l IH]; simpl; [discriminate|].
  destruct (Nat.eqb (promise a) p).
  - intros [= ->]. reflexivity.
  - intros H. rewrite perm_swap. constructor. now apply IH.
Qed.

Lemma remove_task_length p (l : list (Task ArrayBuffer)) t :
  find_task p l = Some t -> S (List.length (remove_task p l)) = List.length l.
Proof.
  intros H. apply remove_task_perm in H. apply Permutation_length in H.
  simpl in H. lia.
Qed.


Lemma nodup_awaiting s : Inv s -> List.NoDup (List.map promise (awaiting s)).
Proof.
  intros I. pose proof (inv_nodup s I) as Hnd.
  rewrite <- (inv_fifo s I), map_app in Hnd.
  apply NoDup_app_remove_r in Hnd.
  apply (Permutation_NoDup (inv_started s I)) in Hnd.
  now apply NoDup_app_remove_l in Hnd.
Qed.

Lemma nodup_settled s : Inv s -> List.NoDup (List.map fst (settled s)).
Proof.
  intros I. pose proof (inv_nodup s I) as Hnd.
  rewrite <- (inv_fifo s I), map_app in Hnd.
  apply NoDup_app_remove_r in Hnd.
  apply (Permutation_NoDup (inv_started s I)) in Hnd.
  now apply NoDup_app_remove_r in Hnd.
Qed.

Lemma idle_queue_empty s :
  Inv s -> List.length (awaiting s) <> 2%nat -> decodeQueue s = [].
Proof.
  intros I Hlen. destruct (decodeQueue s) eqn:E; [reflexivity|].
  exfalso. apply Hlen. apply (inv_busy s I). rewrite E. discriminate.
Qed.

Lemma inv_submit buf s : Inv s -> Inv (decodeAudioDataSafely buf s).
Proof.
  intros I. pose proof I as [Hc Hb Hbusy Hfifo Hperm Hfresh Hnd].
  assert (Hnd' : List.NoDup (List.map promise
                   (submitted s ++ [mkTask buf (nextPromise s)]))).
  { rewrite map_app. simpl.
    eapply Permutation_NoDup; [apply Permutation_app_comm|].
    simpl. constructor; [|exact Hnd].
    rewrite in_map_iff. intros (t & Ht & Hin).
    rewrite List.Forall_forall in Hfresh. apply Hfresh in Hin. lia. }
  assert (Hfresh' : Forall (fun t => (promise t < S (nextPromise s))%nat)
                           (submitted s ++ [mkTask buf (nextPromise s)])).
  { apply List.Forall_app. split.
    - eapply List.Forall_impl; [|exact Hfresh]. simpl. intros; lia.
    - constructor; [simpl; lia|constructor]. }
  unfold decodeAudioDataSafely, processQueue; simpl.
  unfold MAX_CONCURRENT_DECODES.
  destruct (Z.leb_spec 2 (activeDecodes s)) as [Hfull|Hfree]; simpl.
  - constructor; simpl.
    + exact Hc.
    + exact Hb.
    + intros _. lia.
    + rewrite <- Hfifo. now rewrite app_assoc.
    + exact Hperm.
    + exact Hfresh'.
    + exact Hnd'.
  - assert (Hq : decodeQueue s = []) by (apply idle_queue_empty; [exact I|lia]).
    rewrite Hq in *. simpl.
    constructor; simpl.
    + rewrite length_app. simpl. lia.
    + rewrite length_app. simpl. lia.
    + congruence.
    + rewrite app_nil_r in *. congruence.
    + rewrite !map_app, Hperm. simpl. now rewrite app_assoc.
    + exact Hfresh'.
    + exact Hnd'.
Qed.

Lemma inv_resume p t r s :
  Inv s -> find_task p (awaiting s) = Some t -> Inv (resume t r s).
Proof.
  intros I Hfind. pose proof I as [Hc Hb Hbusy Hfifo Hperm Hfresh Hnd].
  destruct (find_task_some _ _ _ Hfind) as [Hin Hp]. subst p.
  pose proof (remove_task_length _ _ _ Hfind) as Hlen.
  pose proof (remove_task_perm _ _ _ Hfind) as Hrem.
  apply (Permutation_map promise) in Hrem. simpl in Hrem.
  unfold resume, processQueue; simpl. unfold MAX_CONCURRENT_DECODES.
  destruct (Z.leb_spec 2 (activeDecodes s - 1)) as [Hfull|Hfree]; [lia|]. simpl.
  destruct (decodeQueue s) as [|w rest] eqn:Hq; simpl.
  - constructor; simpl.
    + lia.
    + lia.
    + congruence.
    + exact Hfifo.
    + rewrite Hperm, Hrem, map_app. simpl.
      rewrite <- app_assoc. reflexivity.
    + exact Hfresh.
    + exact Hnd.
  - assert (Hfullq : List.length (awaiting s) = 2%nat)
      by (apply Hbusy; discriminate).
    constructor; simpl.
    + rewrite length_app. simpl. lia.
    + rewrite length_app. simpl. lia.
    + intros _. rewrite length_app. simpl. lia.
    + rewrite <- Hfifo, <- app_assoc. reflexivity.
    + rewrite !map_app, Hperm, Hrem. simpl.
      rewrite <- !app_assoc. reflexivity.
    + exact Hfresh.
    + exact Hnd.
Qed.

Lemma inv_step s (e : Event) : Inv s -> Inv (step s e).
Proof.
  intros I. destruct e as [buf|p r]; simpl.
  - now apply inv_submit.
  - destruct (find_task p (awaiting s)) eqn:E; [|exact I].
    now apply (inv_resume p).
Qed.

Lemma inv_run_from (evs : list Event) s : Inv s -> Inv (fold_left step evs s).
Proof.
  revert s. induction evs as [|e evs IH]; simpl; intros s I; [exact I|].
  apply IH. now apply inv_step.
Qed.

Lemma inv_run (evs : list Event) : Inv (run evs).
Proof. apply inv_run_from, inv_init. Qed.


Lemma complete_admits s t r :
  Inv s -> In t (awaiting s) ->
  let s' := step s (Complete (promise t) r) in
  settled s' = settled s ++ [(promise t, settle r)] /\
  submitted s' = submitted s /\
  match decodeQueue s with
  | [] =>
      started s' = started s /\ decodeQueue s' = [] /\
      awaiting s' = remove_task (promise t) (awaiting s)
  | w :: rest =>
      started s' = started s ++ [w] /\ decodeQueue s' = rest /\
      awaiting s' = remove_task (promise t) (awaiting s) ++ [w]
  end.
Proof.
  intros I Hin. simpl.
  rewrite (find_task_in _ _ (nodup_awaiting s I) Hin).
  pose proof (remove_task_length _ _ _ (find_task_in _ _ (nodup_awaiting s I) Hin)) as Hlen.
  pose proof (inv_count s I) as Hc. pose proof (inv_bound s I) as Hb.
  unfold resume, processQueue; simpl. unfold MAX_CONCURRENT_DECODES.
  destruct (Z.leb_spec 2 (activeDecodes s - 1)) as [Hfull|Hfree]; [lia|]. simpl.
  destruct (decodeQueue s) as [|w rest]; simpl; auto.
Qed.

Lemma awaiting_nonempty s n :
  Inv s -> outstanding s = S n -> awaiting s <> [].
Proof.
  intros I Hout Hnil. unfold outstanding in Hout.
  rewrite (idle_queue_empty s I) in Hout; rewrite Hnil in *; simpl in *; lia.
Qed.

Lemma drain_quiescent n :
  forall (pick : nat -> nat * DecodeResult AudioBuffer DecodeError) s,
    Inv s -> outstanding s = n ->
    Inv (drain n pick s) /\ outstanding (drain n pick s) = O /\
    submitted (drain n pick s) = submitted s.
Proof.
  induction n as [|n IH]; intros pick s I Hout; simpl; [auto|].
  pose proof (awaiting_nonempty s n I Hout) as Hne.
  unfold complete_choice.
  destruct (nth_error (awaiting s) (fst (pick O) mod List.length (awaiting s)))
    as [t|] eqn:Hnth.
  2:{ exfalso. apply nth_error_None in Hnth.
      assert (List.length (awaiting s) <> O)
        by (destruct (awaiting s); [congruence|discriminate]).
      pose proof (Nat.mod_upper_bound (fst (pick O)) (List.length (awaiting s)) H).
      lia. }
  apply nth_error_In in Hnth.
  pose proof (complete_admits s t (snd (pick O)) I Hnth) as (_ & Hsub & Hshape).
  pose proof (inv_step s (Complete (promise t) (snd (pick O))) I) as I'.
  pose proof (remove_task_length _ _ _
                (find_task_in _ _ (nodup_awaiting s I) Hnth)) as Hlen.
  set (s' := step s (Complete (promise t) (snd (pick O)))) in *.
  assert (Hout' : outstanding s' = n).
  { unfold outstanding in *.
    destruct (decodeQueue s) as [|w rest]; destruct Hshape as (_ & -> & ->);
      simpl in *; rewrite ?length_app; simpl; lia. }
  destruct (IH (fun k => pick (S k)) s' I' Hout') as (J & Hz & Hs).
  split; [exact J|split; [exact Hz|congruence]].
Qed.

(** C4. For every sequence of submissions and completions: at most two
    decodes are active at any time; tasks are started in the order in which
    they were submitted, and the waiting ones keep that order; a task waits
    only while both slots are taken; every completion, with either result,
    settles its own promise and admits exactly the head of the queue (when
    a task waits); no promise is settled twice; and however the browser
    orders and ends the running decodes, after as many completions as
    there are unsettled tasks the queue is empty, nothing is active, every
    submitted task has been started and every submitted promise has been
    settled exactly once. *)
Theorem C4_decode_queue_admission (evs : list Event) :
  let s := run evs in
  (0 <= activeDecodes s <= MAX_CONCURRENT_DECODES
   /\ activeDecodes s = Z.of_nat (List.length (awaiting s)))
  /\ started s ++ decodeQueue s = submitted s
  /\ (decodeQueue s = [] \/ activeDecodes s = MAX_CONCURRENT_DECODES)
  /\ (forall t r,
         In t (awaiting s) ->
         let s' := step s (Complete (promise t) r) in
         settled s' = settled s ++ [(promise t, settle r)]
         /\ match decodeQueue s with
            | [] => started s' = started s /\ decodeQueue s' = []
            | w :: rest =>
                started s' = started s ++ [w] /\ decodeQueue s' = rest
                /\ In w (awaiting s')
            end)
  /\ List.NoDup (List.map fst (settled s))
  /\ Permutation (List.map promise (submitted s))
                 (List.map fst (settled s) ++ List.map promise (awaiting s)
                    ++ List.map promise (decodeQueue s))
  /\ (forall pick,
         let s' := drain (outstanding s) pick s in
         decodeQueue s' = [] /\ awaiting s' = [] /\ activeDecodes s' = 0
         /\ started s' = submitted s
         /\ List.NoDup (List.map fst (settled s'))
         /\ Permutation (List.map fst (settled s'))
                        (List.map promise (submitted s))).
Proof.
  intros s. pose proof (inv_run evs) as I. fold s in I.
  pose proof I as [Hc Hb Hbusy Hfifo Hperm Hfresh Hnd].
  unfold MAX_CONCURRENT_DECODES.
  split; [split; [lia|exact Hc]|].
  split; [exact Hfifo|].
  split.
  { destruct (decodeQueue s) eqn:E; [now left|right].
    rewrite Hc, Hbusy; [reflexivity|discriminate]. }
  split.
  { intros t r Hin.
    destruct (complete_admits s t r I Hin) as (Hset & _ & Hshape).
    split; [exact Hset|].
    destruct (decodeQueue s) as [|w rest].
    - tauto.
    - destruct Hshape as (Hst & Hdq & Haw).
      split; [exact Hst|]. split; [exact Hdq|].
      rewrite Haw. apply in_or_app. right. now left. }
  split; [now apply nodup_settled|].
  split.
  { rewrite <- Hfifo, map_app, Hperm, <- app_assoc. reflexivity. }
  intros pick.
  destruct (drain_quiescent (outstanding s) pick s I eq_refl) as (J & Hz & Hs).
  set (s' := drain (outstanding s) pick s) in *. unfold outstanding in Hz.
  assert (Haw : awaiting s' = []) by (destruct (awaiting s'); [reflexivity|simpl in Hz; lia]).
  assert (Hq : decodeQueue s' = []) by (destruct (decodeQueue s'); [reflexivity|simpl in Hz; lia]).
  pose proof (inv_fifo s' J) as Hf. pose proof (inv_started s' J) as Hp.
  rewrite Hq, app_nil_r in Hf. rewrite Haw in Hp. simpl in Hp. rewrite app_nil_r in Hp.
  split; [exact Hq|]. split; [exact Haw|].
  split; [rewrite (inv_count s' J), Haw; reflexivity|].
  split; [congruence|].
  split; [now apply nodup_settled|].
  rewrite <- Hs, <- Hf. symmetry. exact Hp.
Qed.

End Facts.

(** Five submissions with two slots, then the decodes end, the second one
    with a failure. *)
Lemma C4_decode_queue_admission_witness :
  let evs : list (DecodeQueue.Event nat nat string) :=
    [Submit 10%nat; Submit 11%nat; Submit 12%nat; Submit 13%nat; Submit 14%nat] in
  let s := run evs in
  0 <= activeDecodes s <= 2 /\
  (forall pick,
      let s' := drain (outstanding s) pick s in
      decodeQueue s' = [] /\ awaiting s' = [] /\
      Permutation (List.map fst (settled s')) [0; 1; 2; 3; 4]%nat).
Proof.
  intros evs s.
  pose proof (C4_decode_queue_admission evs) as (Ha & _ & _ & _ & _ & _ & Hd).
  split; [exact (proj1 Ha)|].
  intros pick s'. destruct (Hd pick) as (Hq & Haw & _ & _ & _ & Hp).
  split; [exact Hq|]. split; [exact Haw|exact Hp].
Defined.

Example five_tasks_two_slots :
  let s := run (AudioBuffer:=nat) (DecodeError:=string)
             [Submit 10%nat; Submit 11%nat; Submit 12%nat; Submit 13%nat;
              Submit 14%nat; Complete 1%nat (Failed "corrupt"%string);
              Complete 0%nat (Decoded 7%nat)] in
  activeDecodes s = 2 /\
  List.map promise (awaiting s) = [2; 3]%nat /\
  List.map promise (decodeQueue s) = [4]%nat /\
  settled s = [(1%nat, Rejected "corrupt"%string); (0%nat, Resolved 7%nat)].
Proof. vm_compute. auto. Qed.

End DecodeQueueFacts.

(* ===================================================================== *)
(** * Properties of the serial port wrapper                               *)
(* ===================================================================== *)

Module SerialFacts.
Import Serial.

Lemma open_forwards (o : SerialportOptions) :
  args (open (constructor o)) = constructor o.
Proof. reflexivity. Qed.

(** C8 (amended). With only [path] and [baudRate] given, [open()] asks the
    native side to open the port at the caller's baud rate with 8 data
    bits, no parity, no flow control, a timeout of 200, and ONE stop bit;
    two stop bits, and with them the 8N2 framing, are used when the caller
    passes [stopBits: "Two"]. *)
Theorem C8_serial_framing_defaults (p : string) (baud : Z) :
  let sent := open (constructor (only_path_and_baud p baud)) in
  command sent = "plugin:serialplugin|open"%string
  /\ s_path (args sent) = p /\ s_baudRate (args sent) = baud
  /\ s_dataBits (args sent) = Some Eight
  /\ s_stopBits (args sent) = Some One
  /\ s_parity (args sent) = Some ParityNone
  /\ s_flowControl (args sent) = Some FlowNone
  /\ s_timeout (args sent) = Some 200
  /\ is_8N2 (args (open (constructor
                           (mkOptions p baud Absent Absent Absent
                                      (Present (Some Two)) Absent)))).
Proof. cbv. repeat split; reflexivity. Qed.

(** The options built from a path and 250000 baud carry one stop bit. *)
Lemma C8_counterexample : ~ framing_claim.
Proof.
  intros H. destruct (H "COM3"%string 250000) as (_ & Hstop & _).
  discriminate Hstop.
Qed.

End SerialFacts.

(* ===================================================================== *)
(** * Properties of the channel editor                                    *)
(* ===================================================================== *)

Module DmxFacts.
Import Dmx.

Lemma initial_ok : panel_ok initial.
Proof.
  split; [reflexivity|]. split; [|simpl; lia].
  change (dmxLevels initial) with (repeat (Some 0) 512).
  apply List.Forall_forall. intros x Hx. apply repeat_spec in Hx.
  exists 0. split; [exact Hx|lia].
Qed.

Lemma array_set_in_range (a : JsArray) (i v : Z) :
  0 <= i < Z.of_nat (List.length a) ->
  array_set a i v = <[Z.to_nat i := Some v]> a.
Proof.
  intros H. unfold array_set.
  destruct (Z.ltb_spec i 0); [lia|].
  destruct (Z.ltb_spec i (Z.of_nat (List.length a))); [reflexivity|lia].
Qed.

Lemma handleChannelChange_ok (value : Z) (st : DmxPanel) :
  panel_ok st -> panel_ok (handleChannelChange value st).
Proof.
  intros (Hl & Hf & Hc). split; [exact Hl|]. split; [exact Hf|]. simpl. lia.
Qed.

Lemma handleLevelChange_spec (value : Z) (st : DmxPanel) :
  panel_ok st ->
  dmxLevels (handleLevelChange value st)
  = <[Z.to_nat (selectedChannel st - 1) := Some (Z.min 255 (Z.max 0 value))]>
      (dmxLevels st).
Proof.
  intros (Hl & Hf & Hc). unfold handleLevelChange. simpl.
  apply array_set_in_range. rewrite Hl. lia.
Qed.

Lemma handleLevelChange_ok (value : Z) (st : DmxPanel) :
  panel_ok st -> panel_ok (handleLevelChange value st).
Proof.
  intros Hok. pose proof Hok as (Hl & Hf & Hc).
  split; [|split].
  - rewrite handleLevelChange_spec by exact Hok. now rewrite length_insert.
  - rewrite handleLevelChange_spec by exact Hok.
    apply Forall_insert; [exact Hf|].
    eexists. split; [reflexivity|lia].
  - exact Hc.
Qed.

Lemma edits_ok_from (es : list Edit) (st : DmxPanel) :
  panel_ok st -> panel_ok (fold_left edit es st).
Proof.
  revert st. induction es as [|e es IH]; simpl; intros st Hok; [exact Hok|].
  apply IH. destruct e; simpl.
  - now apply handleChannelChange_ok.
  - now apply handleLevelChange_ok.
Qed.

Lemma edits_ok (es : list Edit) : panel_ok (edits es).
Proof. apply edits_ok_from, initial_ok. Qed.

(** C5. For every panel state that the two handlers can produce and every
    integer channel and value (the handlers are total: nothing throws):
    the levels array has 512 entries before and after the write; exactly
    the entry of the channel clamped to 1..512 is written, with the value
    clamped to 0..255; every other entry is what it was; and a level
    change alone also keeps the 512 entries. *)
Theorem C5_channel_write_bounds (es : list Edit) (channel value : Z) :
  let st := edits es in
  let st' := setChannel channel value st in
  let i := Z.to_nat (Z.min 512 (Z.max 1 channel) - 1) in
  let v := Z.min 255 (Z.max 0 value) in
  List.length (dmxLevels st) = 512%nat
  /\ List.length (dmxLevels st') = 512%nat
  /\ (i < 512)%nat
  /\ 0 <= v <= 255
  /\ dmxLevels st' = <[i := Some v]> (dmxLevels st)
  /\ dmxLevels st' !! i = Some (Some v)
  /\ (forall j : nat, j <> i -> dmxLevels st' !! j = dmxLevels st !! j)
  /\ List.length (dmxLevels (handleLevelChange value st)) = 512%nat.
Proof.
  intros st st' i v.
  pose proof (edits_ok es) as Hok. fold st in Hok.
  pose proof (handleChannelChange_ok channel st Hok) as Hok1.
  pose proof (handleLevelChange_spec value _ Hok1) as Hspec.
  pose proof (handleLevelChange_ok value _ Hok1) as (Hl' & _ & _).
  pose proof (handleLevelChange_ok value _ Hok) as (Hl2 & _ & _).
  destruct Hok as (Hl & _ & _).
  change (dmxLevels st' = <[i := Some v]> (dmxLevels st)) in Hspec.
  split; [exact Hl|]. split; [exact Hl'|].
  split; [subst i; lia|]. split; [subst v; lia|].
  split; [exact Hspec|].
  split.
  { rewrite Hspec. apply list_lookup_insert_eq. rewrite Hl. subst i; lia. }
  split; [|exact Hl2].
  intros j Hj. rewrite Hspec. now apply list_lookup_insert_ne.
Qed.

(** The two writes of the specification: channel -1 with level 300, and
    channel 600 with level -5. *)
Lemma C5_channel_write_bounds_witness :
  dmxLevels (setChannel (-1) 300 initial)
  = <[0%nat := Some 255]> createEmptyLevels
  /\ List.length (dmxLevels (setChannel (-1) 300 initial)) = 512%nat
  /\ dmxLevels (setChannel 600 (-5) initial)
     = <[511%nat := Some 0]> createEmptyLevels
  /\ List.length (dmxLevels (setChannel 600 (-5) initial)) = 512%nat.
Proof.
  destruct (C5_channel_write_bounds [] (-1) 300) as (_ & Hl1 & _ & _ & Hs1 & _).
  destruct (C5_channel_write_bounds [] 600 (-5)) as (_ & Hl2 & _ & _ & Hs2 & _).
  split; [exact Hs1|]. split; [exact Hl1|]. split; [exact Hs2|exact Hl2].
Defined.

Example setChannel_low_high :
  dmxLevels (setChannel (-1) 300 initial) = <[0%nat := Some 255]> createEmptyLevels.
Proof. reflexivity. Qed.

Example setChannel_high_low :
  dmxLevels (setChannel 600 (-5) (setChannel 600 9 initial))
  = <[511%nat := Some 0]> createEmptyLevels.
Proof. vm_compute. reflexivity. Qed.

End DmxFacts.

(* ===================================================================== *)
(** * Properties of the session loader                                    *)
(* ===================================================================== *)

Module SessionFacts.
Import Session.

Section Loader.

Variable generateId : nat -> string.
Variable convertFileSrc : JsVal -> JsVal.

Lemma get_object (f : list (string * JsVal)) (key : string) :
  get (JObj f) key = Normal (field key f).
Proof. unfold get, field. destruct (lookup_field key f); reflexivity. Qed.

Lemma loaded_field_nullish (key : string) (dflt : JsVal)
      (f : list (string * JsVal)) :
  loaded_field key dflt f (nullish (field key f) dflt).
Proof.
  unfold loaded_field, missing, field. split.
  - intros ->. reflexivity.
  - intros v ->. reflexivity.
Qed.

Lemma loadItem_object (f : list (string * JsVal)) (st : State) :
  exists r st1,
    loadItem generateId convertFileSrc (JObj f) st = (Normal r, st1) /\
    loaded_from f r /\ quiet st st1 /\
    sessionName st1 = sessionName st /\ items st1 = items st.
Proof.
  unfold loadItem. rewrite !get_object.
  destruct (truthy (field "id" f)); simpl; eexists; eexists;
    (split; [reflexivity|]);
    (split; [|repeat split; reflexivity]);
    (split; [|split; [|split]]); apply loaded_field_nullish.
Qed.

Lemma mapItems_objects (elems : list JsVal) (st : State) :
  Forall is_object elems ->
  exists rs st1,
    mapItems generateId convertFileSrc elems st = (Normal rs, st1) /\
    Forall2 (fun item r => forall f, item = JObj f -> loaded_from f r) elems rs /\
    quiet st st1 /\ sessionName st1 = sessionName st.
Proof.
  intros H. revert st. induction H as [|item elems [f ->] _ IH]; intros st.
  - exists [], st. simpl. repeat split; constructor.
  - destruct (loadItem_object f st) as (r & st1 & Hr & Hfrom & [Ha He] & Hn & _).
    destruct (IH st1) as (rs & st2 & Hrs & Hall & [Ha2 He2] & Hn2).
    exists (r :: rs), st2. simpl. rewrite Hr, Hrs.
    split; [reflexivity|]. split.
    + constructor; [|exact Hall]. intros f' [= <-]. exact Hfrom.
    + repeat split; congruence.
Qed.

(** C7. For every session document (a JSON object) and every state of the
    application: when the document has no [items] (the key is missing, or
    holds [null]), the loader shows the legacy-format warning, logs no
    error, shows no failure dialog, keeps the items it had, and still takes
    the session name from the document; when [items] is an array of
    objects, the loader shows no dialog, logs no error, and builds one item
    per element, in order, whose volume, startPoint, isLooping and
    assignedKey are 0.8, 0, false and null wherever the element leaves the
    field out, and the element's own value otherwise. *)
Theorem C7_loader_contract (fields : list (string * JsVal)) (st : State) :
  let st' := handleLoadSession generateId convertFileSrc
                               (Parsed (JObj fields)) st in
  (missing "items" fields \/ lookup_field "items" fields = Some JNull ->
   alerts st' = (alerts st ++ [legacy_warning])%list /\
   errors st' = errors st /\
   items st' = items st /\
   sessionName st' = or_else (field "name" fields) (JStr "Loaded Session"))
  /\
  (forall elems,
      lookup_field "items" fields = Some (JArr elems) ->
      Forall is_object elems ->
      quiet st st' /\
      sessionName st' = or_else (field "name" fields) (JStr "Loaded Session") /\
      Forall2 (fun item r => forall f, item = JObj f -> loaded_from f r)
              elems (items st')).
Proof.
  intros st'. subst st'. unfold handleLoadSession, loadParsed.
  rewrite !get_object. split.
  - intros H.
    assert (Hf : truthy (field "items" fields) = false)
      by (unfold field, missing in *; destruct H as [->| ->]; reflexivity).
    rewrite Hf. simpl. auto.
  - intros elems Hit Hobj.
    assert (Hf : field "items" fields = JArr elems)
      by (unfold field; now rewrite Hit).
    rewrite Hf. simpl.
    destruct (mapItems_objects elems
                (setSessionName
                   (or_else (field "name" fields) (JStr "Loaded Session")) st)
                Hobj)
      as (rs & st1 & -> & Hall & [Ha He] & Hn).
    simpl. split; [split; assumption|]. split; assumption.
Qed.

End Loader.

(** A document of the first format, and a document whose items leave
    fields out. *)
Lemma C7_loader_contract_witness :
  (let st' := handleLoadSession uuid asset (Parsed (JObj legacy_document)) fresh in
   alerts st' = [legacy_warning] /\ errors st' = [] /\ items st' = [] /\
   sessionName st' = JStr "Old set")
  /\
  (let st' := handleLoadSession uuid asset (Parsed (JObj sparse_document)) fresh in
   quiet fresh st' /\
   sessionName st' = JStr "Loaded Session" /\
   Forall2 (fun item r => forall f, item = JObj f -> loaded_from f r)
           sparse_items (items st')).
Proof.
  split.
  - apply (proj1 (C7_loader_contract uuid asset legacy_document fresh)).
    left. reflexivity.
  - apply (proj2 (C7_loader_contract uuid asset sparse_document fresh)
                 sparse_items).
    + reflexivity.
    + repeat constructor; eexists; reflexivity.
Defined.

Example sparse_document_loaded :
  List.map (fun r => (volume r, startPoint r, isLooping r, assignedKey r))
           (items (handleLoadSession uuid asset (Parsed (JObj sparse_document)) fresh))
  = [(JNum (8 # 10), JNum 0, JBool false, JNull);
     (JNum (1 # 2), JNum 0, JBool true, JStr "Digit1")].
Proof. reflexivity. Qed.

(** A document that is [null], or whose [items] is no array, fails inside
    the [try] block: the failure dialog is shown instead. *)
Example null_document_fails :
  alerts (handleLoadSession uuid asset (Parsed JNull) fresh) = [failure_warning]
  /\ alerts (handleLoadSession uuid asset
               (Parsed (JObj [("items", JNum 5)])) fresh) = [failure_warning].
Proof. split; reflexivity. Qed.

End SessionFacts.

(* ===================================================================== *)
(** * Properties of the cards and of the trigger router                   *)
(* ===================================================================== *)

Module StudioFacts.
Import Studio.

Lemma Qltb_irrefl (x : Q) : Qltb x x = false.
Proof.
  unfold Qltb. apply negb_false_iff. apply Qle_bool_iff. apply Qle_refl.
Qed.

Lemma Qltb_lt (x y : Q) : Qltb x y = true <-> (x < y)%Q.
Proof.
  unfold Qltb. rewrite negb_true_iff. split.
  - intros H. apply Qnot_le_lt. intros Hle. apply Qle_bool_iff in Hle. congruence.
  - intros H. destruct (Qle_bool y x) eqn:E; [|reflexivity].
    apply Qle_bool_iff in E. exfalso. now apply (Qlt_not_le x y).
Qed.

(** [stop] on a mounted card: the element is paused on the start cue and
    the card no longer shows itself as playing. *)
Lemma stop_mounted (c : AudioCard) (a : HTMLAudioElement) :
  audioRef c = Some a ->
  stop c = mkCard (track c)
                  (Some (mkAudio true (startPoint (track c)) (el_playable a)))
                  (progressRef c) false (currentTime c) (cardDuration c)
                  (waitingForKey c) (isScrubbing c) (lastVolume c).
Proof.
  destruct c as [t ar pr ip ct cd wk sc lv], a as [p tm pl]; simpl.
  intros ->. unfold stop, audio_pause, audio_seek; simpl.
  destruct p; reflexivity.
Qed.

Lemma stop_Stopped (c : AudioCard) (a : HTMLAudioElement) :
  audioRef c = Some a -> Stopped (stop c).
Proof.
  intros H. rewrite (stop_mounted c a H). split; [reflexivity|].
  eexists. split; [reflexivity|]. split; reflexivity.
Qed.

(** [play] on a mounted card whose element is paused and accepts the
    call: the element runs, from the start cue when it was before it. *)
Lemma play_mounted (c : AudioCard) (a : HTMLAudioElement) :
  audioRef c = Some a -> el_paused a = true -> el_playable a = true ->
  play c = mkCard (track c)
                  (Some (mkAudio false
                           (if Qltb (el_currentTime a) (startPoint (track c))
                            then startPoint (track c) else el_currentTime a)
                           true))
                  (progressRef c) true (currentTime c) (cardDuration c)
                  (waitingForKey c) (isScrubbing c) (lastVolume c).
Proof.
  destruct c as [t ar pr ip ct cd wk sc lv], a as [p tm pl]; simpl.
  intros -> -> ->. unfold play; simpl.
  destruct (Qltb tm (startPoint t)); reflexivity.
Qed.

Lemma play_Playing (c : AudioCard) (a : HTMLAudioElement) :
  audioRef c = Some a -> el_paused a = true -> el_playable a = true ->
  Playing (play c).
Proof.
  intros H1 H2 H3. rewrite (play_mounted c a H1 H2 H3). split; [reflexivity|].
  eexists. split; reflexivity.
Qed.

(** A restart: [stop] then [play]. *)
Lemma restart_mounted (c : AudioCard) (a : HTMLAudioElement) :
  audioRef c = Some a -> el_playable a = true ->
  play (stop c) = mkCard (track c)
                         (Some (mkAudio false (startPoint (track c)) true))
                         (progressRef c) true (currentTime c) (cardDuration c)
                         (waitingForKey c) (isScrubbing c) (lastVolume c).
Proof.
  intros H1 H2. rewrite (stop_mounted c a H1).
  erewrite play_mounted; [|reflexivity|reflexivity|exact H2].
  simpl. now rewrite Qltb_irrefl.
Qed.

Lemma handleGlobalKeyDown_routed (e : KeyboardEvent) (st : App) :
  routed e st ->
  handleGlobalKeyDown e st =
  match matchedTrack e st with
  | Some m =>
      (true,
       match trackRefs st !! id m with
       | Some (Some ref) =>
           if isPlaying ref then
             set_trackRefs
               (<[id m := Some (play (stop ref))]> (trackRefs st)) st
           else
             set_trackRefs
               (handlePlayRequest (id m) (shiftKey e) (trackRefs st)) st
       | _ => st
       end)
  | None => (false, st)
  end.
Proof.
  intros (Ht & Hs & Hc & Hp & Ha).
  unfold handleGlobalKeyDown, matchedTrack. rewrite Ht.
  apply String.eqb_neq in Hs, Hc, Hp. rewrite Hs, Hc, Hp. cbv zeta.
  destruct (selected_truthy (listener_selectedItemId st)).
  - destruct (Ha eq_refl) as [Hu Hd].
    apply String.eqb_neq in Hu, Hd. rewrite Hu, Hd. reflexivity.
  - reflexivity.
Qed.

Lemma handlePlayRequest_target (i : string) (shift : bool)
      (refs : gmap string (option AudioCard)) (c : AudioCard) :
  refs !! i = Some (Some c) ->
  handlePlayRequest i shift refs !! i = Some (Some (play c)).
Proof.
  intros H. unfold handlePlayRequest. rewrite H. apply lookup_insert_eq.
Qed.

Lemma handlePlayRequest_layered (i j : string)
      (refs : gmap string (option AudioCard)) :
  j <> i -> handlePlayRequest i true refs !! j = refs !! j.
Proof.
  intros Hne. unfold handlePlayRequest. simpl.
  destruct (refs !! i) as [[h|]|]; [|reflexivity|reflexivity].
  now rewrite lookup_insert_ne.
Qed.

Lemma handlePlayRequest_exclusive (i j : string)
      (refs : gmap string (option AudioCard)) (ref : option AudioCard) :
  j <> i -> refs !! j = Some ref ->
  handlePlayRequest i false refs !! j =
  Some (if ref_isPlaying ref then stop <$> ref else ref).
Proof.
  intros Hne Hj. unfold handlePlayRequest. simpl.
  assert (Hin : map_imap
                  (fun k r => Some (if negb (String.eqb k i) && ref_isPlaying r
                                    then stop <$> r else r)) refs !! j
                = Some (if ref_isPlaying ref then stop <$> ref else ref)).
  { rewrite map_lookup_imap, Hj. simpl.
    apply String.eqb_neq in Hne. rewrite Hne. reflexivity. }
  destruct (refs !! i) as [[h|]|]; [|exact Hin|exact Hin].
  rewrite lookup_insert_ne by congruence. exact Hin.
Qed.

Lemma find_exists {A} (f : A -> bool) (l : list A) (x : A) :
  In x l -> f x = true -> exists y, List.find f l = Some y /\ In y l /\ f y = true.
Proof.
  induction l as [|a l IH]; simpl; [tauto|].
  intros [->|Hin] Hx.
  - rewrite Hx. eauto.
  - destruct (f a) eqn:E; [eauto|].
    destruct (IH Hin Hx) as (y & Hy & Hin' & Hfy). eauto.
Qed.

Lemma handleUpdateTrack_in (j : string) (u : Updates) (l : list TrackData)
      (t : TrackData) :
  In t (handleUpdateTrack j u l) ->
  exists t0, In t0 l /\
             t = if String.eqb (id t0) j then apply_updates t0 u else t0.
Proof.
  unfold handleUpdateTrack. rewrite in_map_iff. intros (t0 & <- & Hin).
  exists t0. split; [exact Hin|].
  destruct (type t0). simpl. now rewrite andb_true_r.
Qed.

Lemma handleUpdateTrack_other (j : string) (u : Updates) (l : list TrackData)
      (t : TrackData) :
  In t l -> id t <> j -> In t (handleUpdateTrack j u l).
Proof.
  intros Hin Hne. unfold handleUpdateTrack. apply in_map_iff.
  exists t. split; [|exact Hin].
  apply String.eqb_neq in Hne. now rewrite Hne.
Qed.

Lemma dispatch_onUpdate (i : string) (e : CardEvent) (st : App)
      (c c' : AudioCard) (j : string) (u : Updates) :
  trackRefs st !! i = Some (Some c) ->
  card_handler e c = (c', [onUpdate j u]) ->
  items (dispatch i e st) = handleUpdateTrack j u (items st) /\
  trackRefs (dispatch i e st) !! i =
  Some (Some (match List.find (fun t => String.eqb (id t) (id (track c')))
                              (handleUpdateTrack j u (items st)) with
              | Some t => set_track t c'
              | None => c'
              end)).
Proof.
  intros Hi Hh. unfold dispatch. rewrite Hi, Hh. simpl.
  split; [reflexivity|].
  rewrite lookup_fmap, lookup_insert_eq. reflexivity.
Qed.

Lemma holders_after_assign (k j : string) (l : list TrackData) :
  List.length (List.filter (holds_key k) (handleUpdateTrack j (upd_assignedKey k) l))
  = (List.length (List.filter (fun t => String.eqb (id t) j) l)
     + List.length (List.filter (fun t => negb (String.eqb (id t) j) && holds_key k t) l))%nat.
Proof.
  induction l as [|t l IH]; simpl; [reflexivity|].
  destruct (type t). simpl. rewrite andb_true_r.
  destruct (String.eqb (id t) j) eqn:E; simpl.
  - unfold holds_key at 1. simpl. rewrite String.eqb_refl. simpl.
    now rewrite IH.
  - destruct (holds_key k t); simpl; rewrite IH; lia.
Qed.

Lemma handleScrub_mounted (x : Q) (c : AudioCard) (rect : DOMRect) :
  progressRef c = Some rect -> Qeq_bool (cardDuration c) 0 = false ->
  let newTime := (Qmax 0 (Qmin 1 ((x - left rect) / width rect)) * cardDuration c)%Q in
  currentTime (handleScrub x c) = newTime /\
  cardDuration (handleScrub x c) = cardDuration c /\
  track (handleScrub x c) = track c /\
  (forall a, audioRef c = Some a ->
             audioRef (handleScrub x c)
             = Some (mkAudio (el_paused a) newTime (el_playable a))).
Proof.
  intros Hp Hd. unfold handleScrub. rewrite Hp, Hd. cbv zeta.
  unfold audio_seek.
  destruct (audioRef c) as [a|] eqn:Ha; simpl.
  - repeat split; auto. intros a0 [= <-]. reflexivity.
  - repeat split; auto. intros a0 Hx. congruence.
Qed.

Lemma scrub_range (p d : Q) :
  (0 <= d)%Q ->
  (0 <= Qmax 0 (Qmin 1 p) * d)%Q /\ (Qmax 0 (Qmin 1 p) * d <= d)%Q.
Proof.
  intros Hd.
  assert (H0 : (0 <= Qmax 0 (Qmin 1 p))%Q) by apply Q.le_max_l.
  assert (H1 : (Qmax 0 (Qmin 1 p) <= 1)%Q).
  { apply Q.max_lub; [discriminate|apply Q.le_min_l]. }
  split.
  - now apply Qmult_le_0_compat.
  - rewrite <- (Qmult_1_l d) at 2. now apply Qmult_le_compat_r.
Qed.

Lemma find_by_id (j : string) (l : list TrackData) (x : TrackData) :
  In x l -> id x = j ->
  exists y, List.find (fun t => String.eqb (id t) j) l = Some y /\
            In y l /\ id y = j.
Proof.
  intros Hin Hid.
  destruct (find_exists (fun t => String.eqb (id t) j) l x Hin)
    as (y & Hy & Hin' & Hfy).
  - rewrite Hid. apply String.eqb_refl.
  - exists y. split; [exact Hy|]. split; [exact Hin'|].
    now apply String.eqb_eq.
Qed.

Lemma updated_volume (j : string) (v : Q) (l : list TrackData) (t : TrackData) :
  In t (handleUpdateTrack j (upd_volume v) l) -> id t = j -> volume t = v.
Proof.
  intros Hin Hid. apply handleUpdateTrack_in in Hin as (t0 & _ & ->).
  destruct (String.eqb (id t0) j) eqn:E; [reflexivity|].
  apply String.eqb_neq in E. contradiction.
Qed.

Lemma updated_has_id (j : string) (u : Updates) (l : list TrackData) (x : TrackData) :
  u_id u = None -> In x l ->
  exists y, In y (handleUpdateTrack j u l) /\ id y = id x.
Proof.
  intros Hu Hin. unfold handleUpdateTrack.
  eexists. split; [apply in_map; exact Hin|].
  simpl. destruct (_ && _); [|reflexivity]. simpl. now rewrite Hu.
Qed.

Lemma toggleMute_mute (c : AudioCard) :
  (0 < volume (track c))%Q ->
  toggleMute c = (setLastVolume (volume (track c)) c,
                  [onUpdate (id (track c)) (upd_volume 0)]).
Proof.
  intros H. unfold toggleMute. apply Qltb_lt in H. now rewrite H.
Qed.

Lemma toggleMute_restore (c : AudioCard) :
  ~ (0 < volume (track c))%Q ->
  toggleMute c =
  (c, [onUpdate (id (track c))
                (upd_volume (if Qeq_bool (lastVolume c) 0 then 8 # 10
                             else lastVolume c))]).
Proof.
  intros H. unfold toggleMute.
  destruct (Qltb 0 (volume (track c))) eqn:E; [|reflexivity].
  apply Qltb_lt in E. contradiction.
Qed.

Lemma mute_round_trip (st : App) (i : string) (c : AudioCard) :
  trackRefs st !! i = Some (Some c) ->
  In (track c) (items st) ->
  (0 < volume (track c))%Q ->
  let st1 := dispatch i ClickMute st in
  let st2 := dispatch i ClickMute st1 in
  (forall t, In t (items st1) -> id t = id (track c) -> volume t = 0%Q) /\
  (forall t, In t (items st2) -> id t = id (track c) ->
             volume t = volume (track c)).
Proof.
  intros Hi Hin Hv st1 st2.
  destruct (dispatch_onUpdate i ClickMute st c _ _ _ Hi (toggleMute_mute c Hv))
    as [Hitems1 Hcard1].
  fold st1 in Hitems1, Hcard1.
  split.
  { intros t Ht Hid. rewrite Hitems1 in Ht. now apply (updated_volume _ _ _ _ Ht). }
  simpl in Hcard1.
  destruct (updated_has_id (id (track c)) (upd_volume 0) (items st) (track c)
              eq_refl Hin) as (y & Hy & Hidy).
  destruct (find_by_id (id (track c)) _ y Hy Hidy) as (t1 & Hfind & Hin1 & Hid1).
  rewrite Hfind in Hcard1.
  pose proof (updated_volume _ _ _ _ Hin1 Hid1) as Hv1.
  set (c1 := set_track t1 (setLastVolume (volume (track c)) c)) in *.
  assert (Hrestore : toggleMute c1 =
                     (c1, [onUpdate (id (track c)) (upd_volume (volume (track c)))])).
  { rewrite toggleMute_restore.
    - simpl. rewrite Hid1.
      destruct (Qeq_bool (volume (track c)) 0) eqn:E; [|reflexivity].
      apply Qeq_bool_iff in E. rewrite E in Hv. discriminate.
    - simpl. rewrite Hv1. discriminate. }
  destruct (dispatch_onUpdate i ClickMute st1 c1 _ _ _ Hcard1 Hrestore)
    as [Hitems2 _].
  fold st2 in Hitems2.
  intros t Ht Hid. rewrite Hitems2 in Ht. now apply (updated_volume _ _ _ _ Ht).
Qed.

(** Routing of a concrete key press. *)
Ltac solve_routed :=
  repeat split; try reflexivity; try discriminate;
  try (intros Hcode; vm_compute in Hcode; discriminate Hcode).

(** C1 (amended). Capturing key [code] on the card of clip B, while that
    card waits for a key, writes the normalised code into the assignedKey
    of every item with B's id and changes nothing else: every other item
    is kept as it is, its own assignedKey included, so a clip that held
    the key still holds it.  Afterwards the key is held by the clips with
    B's id and by every other clip that held it before. *)
Theorem C1_key_assignment_last_write
        (st : App) (b code : string) (c : AudioCard) :
  trackRefs st !! b = Some (Some c) ->
  waitingForKey c = true ->
  let k := normalizeCode code in
  let st' := dispatch b (KeyDown code) st in
  items st' =
    List.map (fun t => if String.eqb (id t) (id (track c))
                       then assign_key k t else t) (items st)
  /\ (forall t, In t (items st) -> id t <> id (track c) -> In t (items st'))
  /\ List.length (List.filter (holds_key k) (items st'))
     = (List.length (List.filter (fun t => String.eqb (id t) (id (track c)))
                                 (items st))
        + List.length (List.filter
                         (fun t => negb (String.eqb (id t) (id (track c)))
                                   && holds_key k t)
                         (items st)))%nat.
Proof.
  intros Hb Hw k st'.
  destruct (dispatch_onUpdate b (KeyDown code) st c (setWaitingForKey false c)
              (id (track c)) (upd_assignedKey k) Hb) as [Hitems _].
  { simpl. unfold handleKeyDown. now rewrite Hw. }
  fold st' in Hitems. rewrite Hitems.
  split.
  { unfold handleUpdateTrack. apply List.map_ext. intros t.
    destruct (type t) eqn:Et. simpl. rewrite andb_true_r.
    destruct (String.eqb (id t) (id (track c))); [|reflexivity].
    destruct t; simpl in *; subst; reflexivity. }
  split.
  { intros t Hin Hne. now apply handleUpdateTrack_other. }
  apply holders_after_assign.
Qed.

(** Clip "a" holds KeyQ; the same key is captured for clip "b". *)
Lemma C1_key_assignment_last_write_witness :
  let st := dispatch "b" ClickKeyBadge (stage (Some "KeyQ") None) in
  let st' := dispatch "b" (KeyDown "KeyQ") st in
  List.map assignedKey (items st') = [Some "KeyQ"; Some "KeyQ"]
  /\ List.length (List.filter (holds_key "KeyQ") (items st')) = 2%nat.
Proof.
  intros st st'.
  destruct (C1_key_assignment_last_write st "b" "KeyQ"
              (setWaitingForKey true
                 (card_of (clip "b" None 0) false 0)))
    as (Hitems & _ & Hcount).
  - reflexivity.
  - reflexivity.
  - split.
    + fold st' in Hitems. rewrite Hitems. reflexivity.
    + exact Hcount.
Defined.

(** Clip "a" holds KeyQ, clip "b" no key; capturing KeyQ for "b" leaves
    two clips with that key. *)
Lemma C1_counterexample : ~ key_uniqueness_claim.
Proof.
  intros H.
  specialize (H (dispatch "b" ClickKeyBadge (stage (Some "KeyQ") None))
                "b" "KeyQ" eq_refl "KeyQ").
  vm_compute in H. lia.
Qed.

(** The trigger of a stopped clip, from the lookup on.  Let the key press
    reach the key lookup of the router, let B be the clip that the lookup
    finds, with its card registered, not playing, its element paused and
    accepting [play()], and let another registered card play.  Without
    shift that card is stopped and B plays; with shift it is left as it
    was, B plays, and no entry other than B's changes. *)
Lemma trigger_of_matched
      (st : App) (e : KeyboardEvent) (b : TrackData) (ia : string)
      (cA cB : AudioCard) (elA elB : HTMLAudioElement) :
  routed e st ->
  matchedTrack e st = Some b ->
  trackRefs st !! id b = Some (Some cB) ->
  isPlaying cB = false -> audioRef cB = Some elB ->
  el_paused elB = true -> el_playable elB = true ->
  ia <> id b ->
  trackRefs st !! ia = Some (Some cA) ->
  isPlaying cA = true -> audioRef cA = Some elA ->
  let st' := snd (handleGlobalKeyDown e st) in
  items st' = items st /\
  trackRefs st' !! id b = Some (Some (play cB)) /\ Playing (play cB) /\
  if shiftKey e
  then trackRefs st' !! ia = Some (Some cA) /\
       forall i, i <> id b -> trackRefs st' !! i = trackRefs st !! i
  else trackRefs st' !! ia = Some (Some (stop cA)) /\ Stopped (stop cA).
Proof.
  intros Hr Hfind HB HBp HBa HBpaused HBok Hne HA HAp HAa.
  rewrite (handleGlobalKeyDown_routed e st Hr), Hfind. simpl.
  rewrite HB, HBp. simpl.
  split; [reflexivity|].
  split; [now apply handlePlayRequest_target|].
  split; [now apply (play_Playing cB elB)|].
  destruct (shiftKey e).
  - split.
    + rewrite handlePlayRequest_layered by exact Hne. exact HA.
    + intros i Hi. now apply handlePlayRequest_layered.
  - split.
    + rewrite (handlePlayRequest_exclusive _ _ _ _ Hne HA). simpl.
      now rewrite HAp.
    + now apply (stop_Stopped cA elA).
Qed.

(** The retrigger of a playing clip, from the lookup on: the router calls
    [stop()] and then [play()] on the handle of the clip that the lookup
    finds, and touches nothing else. *)
Lemma retrigger_of_matched
      (st : App) (e : KeyboardEvent) (a : TrackData)
      (cA : AudioCard) (elA : HTMLAudioElement) :
  routed e st ->
  matchedTrack e st = Some a ->
  trackRefs st !! id a = Some (Some cA) ->
  isPlaying cA = true -> audioRef cA = Some elA -> el_playable elA = true ->
  let st' := snd (handleGlobalKeyDown e st) in
  items st' = items st /\
  trackRefs st' = <[id a := Some (play (stop cA))]> (trackRefs st) /\
  Playing (play (stop cA)) /\
  audioRef (play (stop cA)) = Some (mkAudio false (startPoint (track cA)) true).
Proof.
  intros Hr Hfind HA HAp HAa HAok.
  rewrite (handleGlobalKeyDown_routed e st Hr), Hfind. simpl.
  rewrite HA, HAp. simpl.
  rewrite (restart_mounted cA elA HAa HAok).
  split; [reflexivity|]. split; [reflexivity|].
  split; [|reflexivity].
  split; [reflexivity|]. eexists. split; reflexivity.
Qed.

(** In a list where no key is shared, the lookup finds the clip that is
    bound to the key. *)
Lemma find_the_only (p : TrackData -> bool) (l : list TrackData) (b : TrackData) :
  (List.length (List.filter p l) <= 1)%nat -> In b l -> p b = true ->
  List.find p l = Some b.
Proof.
  induction l as [|x l IH]; simpl; intros Hlen Hin Hp; [destruct Hin|].
  destruct (p x) eqn:Hx.
  - destruct Hin as [->|Hin]; [reflexivity|].
    assert (Hf : In b (List.filter p l)) by (apply filter_In; auto).
    destruct (List.filter p l); [destruct Hf|simpl in Hlen; lia].
  - destruct Hin as [->|Hin]; [congruence|]. now apply IH.
Qed.

Lemma bound_clip_is_matched (st : App) (e : KeyboardEvent) (b : TrackData) :
  well_formed st = true -> In b (items st) ->
  assignedKey b = Some (normalizeCode (code e)) ->
  matchedTrack e st = Some b.
Proof.
  intros Hwf Hin Hkey. unfold well_formed in Hwf.
  apply andb_true_iff in Hwf as [Hwf _].
  apply andb_true_iff in Hwf as [_ Hku].
  unfold keys_uniqueb in Hku. rewrite forallb_forall in Hku.
  specialize (Hku b Hin). rewrite Hkey in Hku. apply Nat.leb_le in Hku.
  unfold matchedTrack. apply find_the_only; [|exact Hin|].
  - erewrite List.filter_ext; [exact Hku|].
    intros t. now destruct (type t).
  - destruct (type b). simpl. unfold holds_key. rewrite Hkey.
    apply String.eqb_refl.
Qed.

(** The card of an item of a well-formed state shows that item and has an
    element that accepts [play()]. *)
Lemma card_of_item (st : App) (t : TrackData) (c : AudioCard) :
  well_formed st = true -> In t (items st) ->
  trackRefs st !! id t = Some (Some c) ->
  track c = t /\ exists el, audioRef c = Some el /\ el_playable el = true.
Proof.
  intros Hwf Hin Hc. unfold well_formed in Hwf.
  apply andb_true_iff in Hwf as [_ Hok].
  rewrite forallb_forall in Hok. specialize (Hok t Hin).
  unfold card_okb in Hok. rewrite Hc in Hok.
  apply andb_true_iff in Hok as [Ht Hel].
  apply bool_decide_eq_true in Ht. split; [exact Ht|].
  destruct (audioRef c) as [el|]; [|discriminate].
  apply andb_true_iff in Hel as [Hp _]. eauto.
Qed.

(** C2. Exclusive and layered trigger.  In a state as the application
    keeps it, let clip A play, let clip B be stopped and bound to the
    pressed key, and let the press reach the key lookup of the router
    (rules 1 to 3 of the router take Space, Comma and Period, and the
    arrow keys of a focused clip before the lookup).  Without shift, A is
    stopped (paused, playhead on its start cue) and B plays; with shift, A
    is left playing as it was, B plays, and no entry other than B's
    changes.  The list of items is not touched. *)
Theorem C2_exclusive_layered_trigger
        (st : App) (e : KeyboardEvent) (a b : TrackData)
        (cA cB : AudioCard) :
  well_formed st = true ->
  routed e st ->
  In a (items st) -> In b (items st) -> id a <> id b ->
  trackRefs st !! id a = Some (Some cA) -> Playing cA ->
  trackRefs st !! id b = Some (Some cB) -> Stopped cB ->
  assignedKey b = Some (normalizeCode (code e)) ->
  let st' := snd (handleGlobalKeyDown e st) in
  items st' = items st /\
  trackRefs st' !! id b = Some (Some (play cB)) /\ Playing (play cB) /\
  if shiftKey e
  then trackRefs st' !! id a = Some (Some cA) /\
       forall i, i <> id b -> trackRefs st' !! i = trackRefs st !! i
  else trackRefs st' !! id a = Some (Some (stop cA)) /\ Stopped (stop cA).
Proof.
  intros Hwf Hr Ha Hb Hne HA [HAp (elA & HAa & _)] HB
         [HBp (elB & HBa & HBpaused & _)] Hkey.
  destruct (card_of_item st b cB Hwf Hb HB) as (_ & el & Hel & Hok).
  rewrite HBa in Hel. injection Hel as <-.
  apply (trigger_of_matched st e b (id a) cA cB elA elB); auto.
  now apply bound_clip_is_matched.
Qed.

(** Clip "a" plays, clip "b" is stopped and bound to KeyB. *)
Lemma C2_exclusive_layered_trigger_witness :
  let st := stage (Some "KeyA") (Some "KeyB") in
  let a := clip "a" (Some "KeyA") 1 in
  let b := clip "b" (Some "KeyB") 0 in
  (let st' := snd (handleGlobalKeyDown (press "KeyB" false) st) in
   trackRefs st' !! "a" = Some (Some (stop (card_of a true 5))) /\
   Stopped (stop (card_of a true 5)) /\
   trackRefs st' !! "b" = Some (Some (play (card_of b false 0))) /\
   Playing (play (card_of b false 0)))
  /\
  (let st' := snd (handleGlobalKeyDown (press "KeyB" true) st) in
   trackRefs st' !! "a" = Some (Some (card_of a true 5)) /\
   Playing (play (card_of b false 0))).
Proof.
  intros st a b.
  assert (HPA : Playing (card_of a true 5))
    by (split; [reflexivity|]; eexists; split; reflexivity).
  assert (HSB : Stopped (card_of b false 0)).
  { split; [reflexivity|]. eexists. split; [reflexivity|].
    split; reflexivity. }
  split.
  - destruct (C2_exclusive_layered_trigger st (press "KeyB" false) a b
                (card_of a true 5) (card_of b false 0))
      as (_ & HB & HBp & HA & HAs);
      [reflexivity|solve_routed|left; reflexivity|right; left; reflexivity
      |discriminate|reflexivity|exact HPA|reflexivity|exact HSB
      |reflexivity|].
    split; [exact HA|]. split; [exact HAs|]. split; [exact HB|exact HBp].
  - destruct (C2_exclusive_layered_trigger st (press "KeyB" true) a b
                (card_of a true 5) (card_of b false 0))
      as (_ & _ & HBp & HA & _);
      [reflexivity|solve_routed|left; reflexivity|right; left; reflexivity
      |discriminate|reflexivity|exact HPA|reflexivity|exact HSB
      |reflexivity|].
    split; [exact HA|exact HBp].
Defined.

(** C3. Retrigger while playing.  In a state as the application keeps
    it, let clip A play and be bound to the pressed key, and let the press
    reach the key lookup of the router (as in C2).  Then, with or without
    shift, the router calls [stop()] and then [play()] on A's handle and
    touches nothing else: A's element runs, from the start cue of A, and
    the card shows itself as playing; it is not paused. *)
Theorem C3_retrigger_restarts
        (st : App) (e : KeyboardEvent) (a : TrackData) (cA : AudioCard) :
  well_formed st = true ->
  routed e st ->
  In a (items st) ->
  trackRefs st !! id a = Some (Some cA) -> Playing cA ->
  assignedKey a = Some (normalizeCode (code e)) ->
  let st' := snd (handleGlobalKeyDown e st) in
  items st' = items st /\
  trackRefs st' = <[id a := Some (play (stop cA))]> (trackRefs st) /\
  Playing (play (stop cA)) /\
  audioRef (play (stop cA)) = Some (mkAudio false (startPoint a) true).
Proof.
  intros Hwf Hr Ha HA [HAp _] Hkey.
  destruct (card_of_item st a cA Hwf Ha HA) as (Ht & el & Hel & Hok).
  pose proof (retrigger_of_matched st e a cA el Hr
                (bound_clip_is_matched st e a Hwf Ha Hkey)
                HA HAp Hel Hok) as H.
  rewrite Ht in H. exact H.
Qed.

(** Clip "a" plays, five seconds in, and is bound to KeyA. *)
Lemma C3_retrigger_restarts_witness :
  let st := stage (Some "KeyA") (Some "KeyB") in
  let cA := card_of (clip "a" (Some "KeyA") 1) true 5 in
  trackRefs (snd (handleGlobalKeyDown (press "KeyA" true) st))
  = <["a" := Some (play (stop cA))]> (trackRefs st)
  /\ Playing (play (stop cA))
  /\ audioRef (play (stop cA)) = Some (mkAudio false 1 true).
Proof.
  intros st cA.
  destruct (C3_retrigger_restarts st (press "KeyA" true)
              (clip "a" (Some "KeyA") 1) cA)
    as (_ & Hrefs & Hp & Ha);
    [reflexivity|solve_routed|left; reflexivity|reflexivity
    |split; [reflexivity|]; eexists; split; reflexivity|reflexivity|].
  split; [exact Hrefs|]. split; [exact Hp|exact Ha].
Defined.

(** C6 (amended). The SET CUE button takes no time argument: it stores the
    playhead that the card shows ([currentTime]) as the startPoint of the
    items with the card's id, without clamping, and leaves the other items
    alone; the playhead, the element and the play state of the card stay
    as they were.  When the shown playhead comes from a scrub on a card
    with a positive duration and a bar of positive width, it lies between
    0 and the duration, both included, and equals the duration when the
    pointer is at or beyond the right edge. *)
Theorem C6_set_cue_stores_playhead (st : App) (i : string) (c : AudioCard) :
  trackRefs st !! i = Some (Some c) ->
  let st' := dispatch i ClickSetCue st in
  (forall t, In t (items st') -> id t = id (track c) ->
             startPoint t = currentTime c)
  /\ (forall t, In t (items st) -> id t <> id (track c) -> In t (items st'))
  /\ (exists c', trackRefs st' !! i = Some (Some c') /\
                 currentTime c' = currentTime c /\
                 audioRef c' = audioRef c /\
                 isPlaying c' = isPlaying c)
  /\ (forall (x : Q) (c0 : AudioCard) (rect : DOMRect),
         c = handleScrub x c0 ->
         progressRef c0 = Some rect -> (0 < width rect)%Q ->
         (0 < cardDuration c0)%Q ->
         (0 <= currentTime c)%Q /\ (currentTime c <= cardDuration c)%Q /\
         ((left rect + width rect <= x)%Q ->
          (currentTime c == cardDuration c)%Q)).
Proof.
  intros Hi st'.
  destruct (dispatch_onUpdate i ClickSetCue st c c (id (track c))
              (upd_startPoint (currentTime c)) Hi eq_refl) as [Hitems Hcard].
  fold st' in Hitems, Hcard.
  split.
  { intros t Hin Hid. rewrite Hitems in Hin.
    apply handleUpdateTrack_in in Hin as (t0 & _ & ->).
    destruct (String.eqb (id t0) (id (track c))) eqn:E; [reflexivity|].
    apply String.eqb_neq in E. contradiction. }
  split.
  { intros t Hin Hne. rewrite Hitems. now apply handleUpdateTrack_other. }
  split.
  { eexists. split; [exact Hcard|].
    destruct (List.find _ _); repeat split; reflexivity. }
  intros x c0 rect -> Hp Hw Hd.
  assert (Hnz : Qeq_bool (cardDuration c0) 0 = false).
  { destruct (Qeq_bool (cardDuration c0) 0) eqn:E; [|reflexivity].
    apply Qeq_bool_iff in E. rewrite E in Hd. discriminate. }
  destruct (handleScrub_mounted x c0 rect Hp Hnz) as (Ht & Hdur & _ & _).
  rewrite Ht, Hdur.
  destruct (scrub_range ((x - left rect) / width rect) (cardDuration c0))
    as [Hlo Hhi]; [now apply Qlt_le_weak|].
  split; [exact Hlo|]. split; [exact Hhi|].
  intros Hx.
  assert (Hp1 : (1 <= (x - left rect) / width rect)%Q).
  { apply Qle_shift_div_l; [exact Hw|]. lra. }
  rewrite (Q.min_l 1 _ Hp1).
  rewrite Q.max_r by discriminate. apply Qmult_1_l.
Qed.

(** A scrub to the middle of the bar of clip "b", then SET CUE. *)
Lemma C6_set_cue_stores_playhead_witness :
  let st := dispatch "b" (MouseDownProgress 0 50) (stage (Some "KeyA") None) in
  let c0 := setIsScrubbing true (card_of (clip "b" None 0) false 0) in
  let c := handleScrub 50 c0 in
  let t := mkTrack "b" audio "b" "" (8 # 10) (500 # 100) false None 10 None in
  trackRefs st !! "b" = Some (Some c)
  /\ In t (items (dispatch "b" ClickSetCue st))
  /\ startPoint t = currentTime c
  /\ (0 <= currentTime c)%Q /\ (currentTime c <= cardDuration c)%Q.
Proof.
  intros st c0 c t.
  assert (Hc : trackRefs st !! "b" = Some (Some c)) by reflexivity.
  assert (Hin : In t (items (dispatch "b" ClickSetCue st)))
    by (vm_compute; right; left; reflexivity).
  destruct (C6_set_cue_stores_playhead st "b" c Hc) as (Hstored & _ & _ & Hrange).
  destruct (Hrange 50%Q c0 (mkRect 0 100) eq_refl eq_refl eq_refl eq_refl)
    as (Hlo & Hhi & _).
  split; [exact Hc|]. split; [exact Hin|].
  split; [apply Hstored; [exact Hin|reflexivity]|].
  split; [exact Hlo|exact Hhi].
Defined.

(** A scrub beyond the right edge of the bar of clip "b" puts the shown
    playhead on the duration; SET CUE then stores a cue equal to the
    duration. *)
Lemma C6_counterexample : ~ start_cue_claim.
Proof.
  intros H.
  pose (st1 := dispatch "b" (MouseDownProgress 0 250) (stage (Some "KeyA") None)).
  pose (b1 := mkTrack "b" audio "b" "" (8 # 10) 10 false None 10 None).
  assert (Hc : exists c, trackRefs st1 !! "b" = Some (Some c) /\ id (track c) = "b").
  { vm_compute. eexists. split; reflexivity. }
  destruct Hc as (c & Hc & Hid).
  destruct (H st1 "b" c eq_refl Hc b1) as [_ Hlt].
  - vm_compute. right. left. reflexivity.
  - rewrite Hid. reflexivity.
  - vm_compute in Hlt. discriminate Hlt.
Qed.

(** C9. For every key event whose target is an input or a textarea, and
    every state, the global keydown handler returns at once: the whole
    application state (items, session name, every registered card, the
    selection) is what it was, and [preventDefault] is not called. *)
Theorem C9_input_guard (e : KeyboardEvent) (st : App) :
  target e = HTMLInputElement \/ target e = HTMLTextAreaElement ->
  handleGlobalKeyDown e st = (false, st).
Proof.
  intros [H|H]; unfold handleGlobalKeyDown; rewrite H; reflexivity.
Qed.

(** The key of the playing clip "a", typed into the session-name field. *)
Lemma C9_input_guard_witness :
  handleGlobalKeyDown (mkKey HTMLInputElement "KeyA" false)
                      (stage (Some "KeyA") (Some "Space"))
  = (false, stage (Some "KeyA") (Some "Space"))
  /\ handleGlobalKeyDown (mkKey HTMLTextAreaElement "Space" true)
                         (stage (Some "KeyA") (Some "Space"))
     = (false, stage (Some "KeyA") (Some "Space")).
Proof.
  split; apply C9_input_guard; [left|right]; reflexivity.
Defined.

(** C10 (amended). For a registered card whose track is among the items
    and has a volume v > 0, a click on the mute button sets the volume of
    the clip to 0 and a second click restores exactly v.  A click at a
    positive volume remembers that volume.  A click at volume 0 restores
    the remembered volume when that is not zero; a freshly mounted control
    remembers 1, so with nothing remembered the click restores 1. *)
Theorem C10_mute_round_trip :
  (forall (st : App) (i : string) (c : AudioCard),
      trackRefs st !! i = Some (Some c) ->
      In (track c) (items st) ->
      (0 < volume (track c))%Q ->
      let st1 := dispatch i ClickMute st in
      let st2 := dispatch i ClickMute st1 in
      (forall t, In t (items st1) -> id t = id (track c) -> volume t = 0%Q) /\
      (forall t, In t (items st2) -> id t = id (track c) ->
                 volume t = volume (track c)))
  /\ (forall c : AudioCard,
         (0 < volume (track c))%Q ->
         lastVolume (fst (toggleMute c)) = volume (track c))
  /\ (forall c : AudioCard,
         ~ (0 < volume (track c))%Q -> ~ (lastVolume c == 0)%Q ->
         toggleMute c = (c, [onUpdate (id (track c)) (upd_volume (lastVolume c))]))
  /\ (forall (t : TrackData) (a : option HTMLAudioElement) (r : option DOMRect),
         ~ (0 < volume t)%Q ->
         toggleMute (mount t a r) = (mount t a r, [onUpdate (id t) (upd_volume 1)])).
Proof.
  split; [exact mute_round_trip|].
  split.
  { intros c Hv. now rewrite toggleMute_mute. }
  split.
  { intros c Hv Hl. rewrite toggleMute_restore by exact Hv.
    destruct (Qeq_bool (lastVolume c) 0) eqn:E; [|reflexivity].
    apply Qeq_bool_iff in E. contradiction. }
  intros t a r Hv. now rewrite toggleMute_restore.
Qed.

(** Clip "a" at volume 0.8: mute, then unmute. *)
Lemma C10_mute_round_trip_witness :
  let st := stage (Some "KeyA") None in
  let st1 := dispatch "a" ClickMute st in
  let st2 := dispatch "a" ClickMute st1 in
  (forall t, In t (items st1) -> id t = "a" -> volume t = 0%Q) /\
  (forall t, In t (items st2) -> id t = "a" -> volume t = (8 # 10)%Q).
Proof.
  intros st st1 st2.
  apply (proj1 C10_mute_round_trip st "a"
               (card_of (clip "a" (Some "KeyA") 1) true 5)).
  - reflexivity.
  - left. reflexivity.
  - reflexivity.
Defined.

(** A freshly mounted control on a clip at volume 0: the click asks for
    volume 1, not 0.8. *)
Lemma C10_counterexample : ~ mute_claim.
Proof.
  intros [_ H].
  specialize (H (mkTrack "a" audio "a" "" 0 0 false None 10 None) None None).
  discriminate H. reflexivity.
Qed.

End StudioFacts.

(* ===================================================================== *)
(** * More on the decode queue and the shared audio context *)
(* ===================================================================== *)

Module DecodeQueueProps.
Import DecodeQueue DecodeQueueFacts.

Section Facts.
Context {ArrayBuffer AudioBuffer DecodeError : Type}.
Abbreviation State := (State ArrayBuffer AudioBuffer DecodeError).
Abbreviation Event := (Event ArrayBuffer AudioBuffer DecodeError).

(** A submission finds a free slot and starts at once, or finds both slots
    taken and waits behind every task that already waits. *)
Theorem submit_starts_or_waits (evs : list Event) (buf : ArrayBuffer) :
  let s := run evs in
  let task := mkTask buf (nextPromise s) in
  let s' := step s (Submit buf) in
  submitted s' = submitted s ++ [task] /\
  settled s' = settled s /\
  if activeDecodes s <? MAX_CONCURRENT_DECODES
  then decodeQueue s = [] /\ decodeQueue s' = [] /\
       awaiting s' = awaiting s ++ [task] /\
       started s' = started s ++ [task] /\
       activeDecodes s' = activeDecodes s + 1
  else decodeQueue s' = decodeQueue s ++ [task] /\
       awaiting s' = awaiting s /\
       started s' = started s /\
       activeDecodes s' = MAX_CONCURRENT_DECODES.
Proof.
  intros s task s'. pose proof (inv_run evs) as I. fold s in I.
  pose proof (inv_count s I) as Hc. pose proof (inv_bound s I) as Hb.
  subst s'. unfold step, decodeAudioDataSafely, processQueue. simpl.
  unfold MAX_CONCURRENT_DECODES.
  destruct (Z.ltb_spec (activeDecodes s) 2) as [Hfree|Hfull].
  - destruct (Z.leb_spec 2 (activeDecodes s)); [lia|]. simpl.
    assert (Hq : decodeQueue s = []) by (apply idle_queue_empty; [exact I|lia]).
    rewrite Hq. simpl. auto 10.
  - destruct (Z.leb_spec 2 (activeDecodes s)); [|lia]. simpl.
    repeat split; auto. lia.
Qed.

(** The slots are never idle while a task is owed a settlement: the number
    of running decodes is the smaller of two and the number of unsettled
    tasks. *)
Theorem slots_work_conserving (evs : list Event) :
  let s := run evs in
  List.length (awaiting s) = Nat.min 2 (outstanding s) /\
  (decodeQueue s = [] <-> (outstanding s <= 2)%nat).
Proof.
  intros s. pose proof (inv_run evs) as I. fold s in I.
  pose proof (inv_bound s I) as Hb. pose proof (inv_busy s I) as Hbusy.
  unfold outstanding.
  destruct (decodeQueue s) as [|w rest] eqn:Hq; cbn [List.length].
  - split; [lia|]. split; [lia|reflexivity].
  - rewrite Hbusy by discriminate. split; [lia|].
    split; [discriminate|lia].
Qed.

(** Two states with the same scheduling: they differ at most in the values
    delivered to the promises. *)
Lemma step_same_schedule (s1 s2 : State) (e1 e2 : Event) :
  same_schedule s1 s2 -> same_event e1 e2 ->
  same_schedule (step s1 e1) (step s2 e2).
Proof.
  intros (Hq & Ha & Hc & Hn & Hsub & Hst & Hset) He.
  destruct e1 as [b1|p1 r1], e2 as [b2|p2 r2]; simpl in He; try contradiction.
  - subst b2. unfold step, decodeAudioDataSafely, processQueue. simpl.
    rewrite <- Hq, <- Ha, <- Hc, <- Hn, <- Hsub, <- Hst.
    destruct (_ || _); [|destruct (decodeQueue s1 ++ _)];
      repeat split; simpl; auto.
  - subst p2. unfold step. rewrite <- Ha.
    destruct (find_task p1 (awaiting s1)) as [t|];
      [|repeat split; assumption].
    unfold resume, processQueue. simpl.
    rewrite <- Hq, <- Ha, <- Hc, <- Hn, <- Hsub, <- Hst.
    destruct (_ || _); [|destruct (decodeQueue s1)];
      repeat split; simpl; auto; rewrite !map_app, Hset; reflexivity.
Qed.

(** Whether decodes succeed or fail has no influence on the scheduling:
    two histories with the same submissions and the same completions, in
    the same order, but with any results, lead to the same queue, the same
    running decodes, the same counter, and settle the same promises in
    the same order. *)
Theorem scheduling_ignores_results (evs1 evs2 : list Event) :
  Forall2 same_event evs1 evs2 ->
  same_schedule (run evs1) (run evs2).
Proof.
  unfold run.
  assert (H0 : same_schedule (@init ArrayBuffer AudioBuffer DecodeError) init)
    by (repeat split; reflexivity).
  revert H0. generalize (@init ArrayBuffer AudioBuffer DecodeError) at 1 3.
  generalize (@init ArrayBuffer AudioBuffer DecodeError).
  intros s2 s1 Hs H. revert s1 s2 Hs.
  induction H as [|e1 e2 l1 l2 He _ IH]; intros s1 s2 Hs; simpl; [exact Hs|].
  apply IH. now apply step_same_schedule.
Qed.

End Facts.

(** Two buffers, the first decode ends: once well, once with an error. *)
Lemma scheduling_ignores_results_witness :
  same_schedule
    (run (AudioBuffer:=nat) (DecodeError:=string)
         [Submit 1%nat; Submit 2%nat; Submit 3%nat; Complete 0%nat (Decoded 7%nat)])
    (run [Submit 1%nat; Submit 2%nat; Submit 3%nat;
          Complete 0%nat (Failed "corrupt"%string)]).
Proof.
  apply scheduling_ignores_results.
  repeat constructor.
Defined.

(** However often [getAudioContext] is called, and whatever the window held
    before, every call returns the same context, at most one context is
    constructed, and none is when the window already holds one. *)
Theorem getAudioContext_shared (n : nat) (w : Window) :
  let '(ctxs, w') := getAudioContexts n w in
  (forall c1 c2, In c1 ctxs -> In c2 ctxs -> c1 = c2) /\
  (constructed w' <= S (constructed w))%nat /\
  (forall c, _sharedAudioContext w = Some c ->
             w' = w /\ Forall (eq c) ctxs) /\
  (n <> O -> exists c, _sharedAudioContext w' = Some c /\ Forall (eq c) ctxs).
Proof.
  assert (Hheld : forall n w c, _sharedAudioContext w = Some c ->
                    getAudioContexts n w = (repeat c n, w)).
  { clear. induction n as [|n IH]; intros w c Hw; simpl; [reflexivity|].
    unfold getAudioContext. rewrite Hw. now rewrite (IH w c Hw). }
  assert (Hrep : forall (c : nat) k, Forall (eq c) (repeat c k)).
  { clear. intros c k. apply List.Forall_forall. intros x Hx.
    now apply repeat_spec in Hx. }
  destruct (_sharedAudioContext w) as [c|] eqn:Hw.
  - rewrite (Hheld n w c Hw).
    split; [|split; [lia|split]].
    + intros c1 c2 H1 H2. apply repeat_spec in H1, H2. congruence.
    + intros c' [= <-]. split; [reflexivity|apply Hrep].
    + intros _. exists c. split; [exact Hw|apply Hrep].
  - destruct n as [|n]; simpl.
    + split; [intros ? ? []|]. split; [lia|]. split; [discriminate|congruence].
    + unfold getAudioContext at 1. rewrite Hw.
      rewrite (Hheld n (mkWindow (Some (constructed w)) (S (constructed w)))
                     (constructed w) eq_refl).
      split; [|split; [simpl; lia|split]].
      * intros c1 c2 H1 H2.
        change (In c1 (repeat (constructed w) (S n))) in H1.
        change (In c2 (repeat (constructed w) (S n))) in H2.
        apply repeat_spec in H1, H2. congruence.
      * discriminate.
      * intros _. exists (constructed w). split; [reflexivity|].
        apply (Hrep (constructed w) (S n)).
Qed.

End DecodeQueueProps.

(* ===================================================================== *)
(** * More on the serial port options *)
(* ===================================================================== *)

Module SerialProps.
Import Serial SerialFacts.

(** The port is opened with the DMX framing (8 data bits, two stop bits, no
    parity, no flow control) exactly when the caller passes
    [stopBits: "Two"] and, for each of the three other settings, either
    leaves it out or passes the DMX value; a setting passed as [undefined]
    loses its default. *)
Theorem opened_8N2_iff (o : SerialportOptions) :
  is_8N2 (args (open (constructor o))) <->
  stopBits o = Present (Some Two) /\
  (dataBits o = Absent \/ dataBits o = Present (Some Eight)) /\
  (parity o = Absent \/ parity o = Present (Some ParityNone)) /\
  (flowControl o = Absent \/ flowControl o = Present (Some FlowNone)).
Proof.
  destruct o as [p b db fc pa sb tm]. unfold is_8N2. simpl. split.
  - intros (Hd & Hs & Hp & Hf).
    split; [|split; [|split]].
    + destruct sb as [|[[]|]]; simpl in Hs; congruence.
    + destruct db as [|[[]|]]; simpl in Hd; try congruence; auto.
    + destruct pa as [|[[]|]]; simpl in Hp; try congruence; auto.
    + destruct fc as [|[[]|]]; simpl in Hf; try congruence; auto.
  - intros (-> & [-> | ->] & [-> | ->] & [-> | ->]); repeat split.
Qed.

End SerialProps.

(* ===================================================================== *)
(** * More on the DMX panel *)
(* ===================================================================== *)

Module DmxProps.
Import Dmx DmxFacts.

Lemma applyToAll_ok (st : DmxPanel) : panel_ok st -> panel_ok (applyToAll st).
Proof.
  intros (Hl & Hf & Hc). split; [|split].
  - simpl. now rewrite length_map.
  - simpl. apply List.Forall_forall. intros x Hx.
    apply in_map_iff in Hx as (y & <- & Hy).
    rewrite List.Forall_forall in Hf. destruct (Hf y Hy) as (v & -> & Hv).
    unfold selectedValue, array_get.
    destruct (Z.ltb_spec (selectedChannel st - 1) 0); [lia|].
    destruct (dmxLevels st !! Z.to_nat (selectedChannel st - 1)) as [e|] eqn:E.
    + apply list_elem_of_lookup_2, list_elem_of_In in E.
      destruct (Hf e E) as (w & -> & Hw). eexists. split; [reflexivity|exact Hw].
    + eexists. split; [reflexivity|simpl; lia].
  - exact Hc.
Qed.

Lemma act_ok (v : PanelView) (a : Action) :
  panel_ok (panel v) -> panel_ok (panel (fst (act v a))).
Proof.
  intros H. destruct a; simpl; try exact H.
  - now apply handleChannelChange_ok.
  - now apply handleLevelChange_ok.
  - now apply applyToAll_ok.
  - destruct result as [[|first rest]|]; exact H.
  - unfold pushLevels. destruct (String.eqb _ _); exact H.
Qed.

Lemma perform_ok (acts : list Action) (v : PanelView) :
  panel_ok (panel v) -> panel_ok (panel (fst (perform acts v))).
Proof.
  revert v. induction acts as [|a acts IH]; intros v H; simpl; [exact H|].
  pose proof (act_ok v a H) as H1. destruct (act v a) as [v1 out1].
  specialize (IH v1 H1). destruct (perform acts v1) as [v2 out2]. exact IH.
Qed.

Lemma selectedValue_read (st : DmxPanel) (v : Z) :
  panel_ok st ->
  dmxLevels st !! Z.to_nat (selectedChannel st - 1) = Some (Some v) ->
  selectedValue st = v.
Proof.
  intros (_ & _ & Hc) H. unfold selectedValue, array_get.
  destruct (Z.ltb_spec (selectedChannel st - 1) 0); [lia|]. now rewrite H.
Qed.

Lemma handleLevelChange_read (p : DmxPanel) (value : Z) :
  panel_ok p ->
  selectedValue (handleLevelChange value p) = Z.min 255 (Z.max 0 value).
Proof.
  intros Hp. apply selectedValue_read; [now apply handleLevelChange_ok|].
  rewrite handleLevelChange_spec by exact Hp. simpl.
  apply list_lookup_insert_eq. destruct Hp as (Hl & _ & Hc). rewrite Hl. lia.
Qed.

(** After any history of the panel, the level shown for the selected
    channel right after a level change is the requested level clamped to
    0..255, and a change of channel alone changes no level. *)
Theorem level_read_after_write (acts : list Action) (channel value : Z) :
  let st := panel (fst (perform acts initialView)) in
  selectedValue (handleLevelChange value st) = Z.min 255 (Z.max 0 value) /\
  selectedValue (setChannel channel value st) = Z.min 255 (Z.max 0 value) /\
  dmxLevels (handleChannelChange channel st) = dmxLevels st.
Proof.
  intros st.
  assert (Hok : panel_ok st) by (apply perform_ok, initial_ok).
  split; [now apply handleLevelChange_read|]. split; [|reflexivity].
  apply handleLevelChange_read. now apply handleChannelChange_ok.
Qed.

Lemma setChannel_levels (p : DmxPanel) (c v : Z) :
  panel_ok p ->
  dmxLevels (setChannel c v p)
  = <[Z.to_nat (Z.min 512 (Z.max 1 c) - 1) := Some (Z.min 255 (Z.max 0 v))]>
      (dmxLevels p).
Proof.
  intros Hp. unfold setChannel.
  rewrite handleLevelChange_spec by now apply handleChannelChange_ok.
  reflexivity.
Qed.

(** After any history of the panel: writes to two different channels give
    the same levels in either order, and of two writes to the same channel
    the later one alone counts. *)
Theorem channel_writes_compose (acts : list Action) (c1 v1 c2 v2 : Z) :
  let st := panel (fst (perform acts initialView)) in
  (Z.min 512 (Z.max 1 c1) <> Z.min 512 (Z.max 1 c2) ->
   dmxLevels (setChannel c1 v1 (setChannel c2 v2 st))
   = dmxLevels (setChannel c2 v2 (setChannel c1 v1 st)))
  /\
  (Z.min 512 (Z.max 1 c1) = Z.min 512 (Z.max 1 c2) ->
   dmxLevels (setChannel c1 v1 (setChannel c2 v2 st))
   = dmxLevels (setChannel c1 v1 st)).
Proof.
  intros st.
  assert (Hok : panel_ok st) by (apply perform_ok, initial_ok).
  assert (Hset : forall p c v, panel_ok p -> panel_ok (setChannel c v p)).
  { intros p c v Hp. unfold setChannel.
    now apply handleLevelChange_ok, handleChannelChange_ok. }
  split; intros Hc.
  - rewrite !setChannel_levels by auto.
    apply list_insert_insert_ne. lia.
  - rewrite !setChannel_levels by auto.
    rewrite Hc. apply list_insert_insert_eq.
Qed.

(** After any history of the panel, "Aplicar a todos" gives every one of
    the 512 channels the level of the selected channel; right after a
    channel write, that is the clamped level just written. *)
Theorem applyToAll_fills (acts : list Action) (channel value : Z) :
  let st := panel (fst (perform acts initialView)) in
  dmxLevels (applyToAll st) = repeat (Some (selectedValue st)) 512
  /\ dmxLevels (applyToAll (setChannel channel value st))
     = repeat (Some (Z.min 255 (Z.max 0 value))) 512
  /\ selectedChannel (applyToAll st) = selectedChannel st.
Proof.
  intros st.
  assert (Hok : panel_ok st) by (apply perform_ok, initial_ok).
  assert (Hgen : forall p, panel_ok p ->
            dmxLevels (applyToAll p) = repeat (Some (selectedValue p)) 512).
  { intros p (Hl & Hf & _). unfold applyToAll. cbn [dmxLevels].
    rewrite <- Hl. generalize (selectedValue p). intros sv.
    clear Hl. induction Hf as [|x l (b & -> & _) _ IH]; simpl; [reflexivity|].
    now rewrite IH. }
  split; [now apply Hgen|]. split; [|reflexivity].
  rewrite Hgen.
  - f_equal. f_equal. apply handleLevelChange_read.
    now apply handleChannelChange_ok.
  - unfold setChannel. now apply handleLevelChange_ok, handleChannelChange_ok.
Qed.

Lemma perform_sends (acts : list Action) (v : PanelView) :
  panel_ok (panel v) ->
  Forall (fun s => port_path s <> ""%string /\ frame_ok (levels s))
         (snd (perform acts v)).
Proof.
  revert v. induction acts as [|a acts IH]; intros v H; simpl; [constructor|].
  pose proof (act_ok v a H) as H1.
  assert (Hout : Forall (fun s => port_path s <> ""%string /\ frame_ok (levels s))
                        (snd (act v a))).
  { destruct a; simpl; try constructor.
    unfold pushLevels.
    destruct (String.eqb (selectedPort v) "") eqn:E; simpl; constructor;
      [|constructor].
    simpl. split; [now apply String.eqb_neq|].
    destruct H as (Hl & Hf & _). split; assumption. }
  destruct (act v a) as [v1 out1]. specialize (IH v1 H1).
  destruct (perform acts v1) as [v2 out2]. simpl in *.
  apply List.Forall_app. split; assumption.
Qed.

(** Whatever the operator does, in any order (edits, "Aplicar a todos",
    port choices, port scans, transmissions that succeed or fail), every
    frame handed to the native side goes to a chosen port (never to the
    empty selection) and carries exactly 512 levels, each between 0 and
    255. *)
Theorem every_frame_sent_is_valid (acts : list Action) :
  Forall (fun s => port_path s <> ""%string /\ frame_ok (levels s))
         (snd (perform acts initialView)).
Proof. apply perform_sends, initial_ok. Qed.

End DmxProps.

(* ===================================================================== *)
(** * More on the session loader *)
(* ===================================================================== *)

Module SessionProps.
Import Session SessionFacts.

Section Loader.

Variable generateId : nat -> string.
Variable convertFileSrc : JsVal -> JsVal.

(** The callback of [map] draws ids and does nothing else to the state. *)
Lemma loadItem_frame (item : JsVal) (st : State) :
  let st1 := snd (loadItem generateId convertFileSrc item st) in
  sessionName st1 = sessionName st /\ items st1 = items st /\
  alerts st1 = alerts st /\ errors st1 = errors st.
Proof.
  unfold loadItem. destruct (get item "id") as [i|e]; simpl; [|auto].
  destruct (truthy i); simpl; auto.
Qed.

Lemma mapItems_frame (elems : list JsVal) (st : State) :
  let st1 := snd (mapItems generateId convertFileSrc elems st) in
  sessionName st1 = sessionName st /\ items st1 = items st /\
  alerts st1 = alerts st /\ errors st1 = errors st.
Proof.
  revert st. induction elems as [|item elems IH]; intros st; simpl; [auto|].
  pose proof (loadItem_frame item st) as H1.
  destruct (loadItem generateId convertFileSrc item st) as [[x|e] st1];
    simpl in *; [|exact H1].
  pose proof (IH st1) as H2.
  destruct (mapItems generateId convertFileSrc elems st1) as [[xs|e] st2];
    simpl in *; intuition congruence.
Qed.

(** For every input and every state, the loader ends in one of three
    ways: silently, and only then can the items have been replaced; with
    the legacy warning as its only dialog and the items kept; or with the
    failure dialog, one logged error, and the items kept. *)
Theorem load_outcomes (input : Picked) (st : State) :
  let st' := handleLoadSession generateId convertFileSrc input st in
  (alerts st' = alerts st /\ errors st' = errors st)
  \/ (alerts st' = (alerts st ++ [legacy_warning])%list /\
      errors st' = errors st /\ items st' = items st)
  \/ (alerts st' = (alerts st ++ [failure_warning])%list /\
      errors st' = (errors st ++ ["Failed to load session"%string])%list /\
      items st' = items st).
Proof.
  destruct input as [| | |session]; simpl.
  - left; auto.
  - right; right; auto.
  - right; right; auto.
  - unfold loadParsed.
    destruct (get session "name") as [n|e]; [|right; right; simpl; auto].
    destruct (get session "items") as [its|e]; [|right; right; simpl; auto].
    destruct (truthy its); [|right; left; simpl; auto].
    destruct its; try (right; right; simpl; auto; fail).
    pose proof (mapItems_frame elems
                  (setSessionName (or_else n (JStr "Loaded Session")) st))
      as (_ & Hi & Ha & He).
    destruct (mapItems _ _ _ _) as [[xs|e] st2]; simpl in *.
    + left. auto.
    + right; right. rewrite Hi, Ha, He. auto.
Qed.

Lemma mapItems_app_null (pre post : list JsVal) (st : State) :
  Forall is_object pre ->
  exists st1,
    mapItems generateId convertFileSrc (pre ++ JNull :: post) st
    = (Throw "TypeError"%string, st1) /\
    idsDrawn st1 = (idsDrawn st + List.length (List.filter needs_id pre))%nat.
Proof.
  intros H. revert st. induction H as [|item pre [f ->] _ IH]; intros st.
  - exists st. simpl. split; [reflexivity|lia].
  - simpl. unfold loadItem at 1. rewrite get_object.
    destruct (truthy (field "id" f)) eqn:Eid; rewrite !get_object; simpl.
    + destruct (IH st) as (st1 & -> & Hn). exists st1. split; [reflexivity|].
      exact Hn.
    + destruct (IH (drawId st)) as (st1 & -> & Hn). exists st1.
      split; [reflexivity|]. rewrite Hn. simpl. lia.
Qed.

(** A [null] among the items makes the load fail half-way: the failure
    dialog is shown and the items are kept, but the session name has
    already been replaced, and an id has been drawn for every object
    without id that stands before the [null]. *)
Theorem load_fails_on_null_item
        (fields : list (string * JsVal)) (pre post : list JsVal) (st : State) :
  lookup_field "items" fields = Some (JArr (pre ++ JNull :: post)) ->
  Forall is_object pre ->
  let st' := handleLoadSession generateId convertFileSrc
                               (Parsed (JObj fields)) st in
  alerts st' = (alerts st ++ [failure_warning])%list /\
  items st' = items st /\
  sessionName st' = or_else (field "name" fields) (JStr "Loaded Session") /\
  idsDrawn st' = (idsDrawn st + List.length (List.filter needs_id pre))%nat.
Proof.
  intros Hit Hpre. simpl. unfold loadParsed. rewrite !get_object.
  assert (Hf : field "items" fields = JArr (pre ++ JNull :: post))
    by (unfold field; now rewrite Hit).
  rewrite Hf. simpl.
  pose proof (mapItems_frame (pre ++ JNull :: post)
                (setSessionName
                   (or_else (field "name" fields) (JStr "Loaded Session")) st))
    as (Hn & Hi & Ha & _).
  destruct (mapItems_app_null pre post
              (setSessionName
                 (or_else (field "name" fields) (JStr "Loaded Session")) st) Hpre)
    as (st1 & Hm & Hd).
  rewrite Hm in *. simpl in *.
  rewrite Ha, Hi, Hn, Hd. auto.
Qed.

(** The id of the [n]-th loaded item, when the items are objects: its own
    id when it has a truthy one, else a fresh one, drawn after those of
    the id-less items before it. *)
Lemma mapItems_ids (elems : list JsVal) (st : State) :
  Forall is_object elems ->
  exists rs st1,
    mapItems generateId convertFileSrc elems st = (Normal rs, st1) /\
    idsDrawn st1 = (idsDrawn st + List.length (List.filter needs_id elems))%nat /\
    List.length rs = List.length elems /\
    forall n f r,
      nth_error elems n = Some (JObj f) -> nth_error rs n = Some r ->
      id r = if truthy (field "id" f) then field "id" f
             else JStr (generateId
                          (idsDrawn st
                           + List.length (List.filter needs_id (firstn n elems)))).
Proof.
  intros H. revert st. induction H as [|item elems [f ->] _ IH]; intros st.
  - exists [], st. simpl. split; [reflexivity|]. split; [lia|]. split; [reflexivity|].
    intros [|n] f r; discriminate.
  - simpl. unfold loadItem at 1. rewrite get_object.
    destruct (truthy (field "id" f)) eqn:Eid; rewrite !get_object; simpl.
    + destruct (IH st) as (rs & st1 & -> & Hd & Hl & Hids).
      eexists; eexists. split; [reflexivity|]. split; [exact Hd|].
      split; [simpl; lia|].
      intros [|n] f' r; simpl.
      * intros [= <-] [= <-]. simpl. now rewrite Eid.
      * rewrite Eid. simpl. apply Hids.
    + destruct (IH (drawId st)) as (rs & st1 & -> & Hd & Hl & Hids).
      eexists; eexists. split; [reflexivity|].
      split; [rewrite Hd; simpl; lia|]. split; [simpl; lia|].
      intros [|n] f' r; simpl.
      * intros [= <-] [= <-]. simpl. rewrite Eid. f_equal. f_equal. lia.
      * rewrite Eid. simpl. intros Hn Hr. rewrite (Hids n f' r Hn Hr).
        destruct (truthy (field "id" f')); [reflexivity|].
        simpl. f_equal. f_equal. lia.
Qed.

(** Loading a document whose items are objects: as many items are built
    as the document has, an id is drawn exactly for the items without a
    truthy id, and the [n]-th item keeps its own id or gets the id drawn
    for it, in document order. *)
Theorem loaded_ids (fields : list (string * JsVal)) (elems : list JsVal)
        (st : State) :
  lookup_field "items" fields = Some (JArr elems) ->
  Forall is_object elems ->
  let st' := handleLoadSession generateId convertFileSrc
                               (Parsed (JObj fields)) st in
  List.length (items st') = List.length elems /\
  idsDrawn st' = (idsDrawn st + List.length (List.filter needs_id elems))%nat /\
  forall n f r,
    nth_error elems n = Some (JObj f) -> nth_error (items st') n = Some r ->
    id r = if truthy (field "id" f) then field "id" f
           else JStr (generateId
                        (idsDrawn st
                         + List.length (List.filter needs_id (firstn n elems)))).
Proof.
  intros Hit Hobj. simpl. unfold loadParsed. rewrite !get_object.
  assert (Hf : field "items" fields = JArr elems)
    by (unfold field; now rewrite Hit).
  rewrite Hf. simpl.
  destruct (mapItems_ids elems
              (setSessionName
                 (or_else (field "name" fields) (JStr "Loaded Session")) st) Hobj)
    as (rs & st1 & -> & Hd & Hl & Hids).
  simpl. split; [exact Hl|]. split; [exact Hd|]. exact Hids.
Qed.

End Loader.

(** A document whose second item is [null]: the first item, without id,
    has drawn an id before the load fails. *)
Lemma load_fails_on_null_item_witness :
  let generateId := uuid in
  let convertFileSrc := asset in
  let fields := [("name"%string, JStr "Gig");
                 ("items"%string, JArr [JObj [("name"%string, JStr "intro")]; JNull])] in
  let pre := [JObj [("name"%string, JStr "intro")]] in
  let st := fresh in
  let st' := handleLoadSession generateId convertFileSrc
                               (Parsed (JObj fields)) st in
  alerts st' = (alerts st ++ [failure_warning])%list /\
  items st' = items st /\
  sessionName st' = or_else (field "name" fields) (JStr "Loaded Session") /\
  idsDrawn st' = (idsDrawn st + List.length (List.filter needs_id pre))%nat.
Proof.
  intros generateId convertFileSrc fields pre st.
  apply (load_fails_on_null_item generateId convertFileSrc fields pre [] st).
  - reflexivity.
  - repeat constructor. now eexists.
Defined.

(** The document with sparse items: the first item keeps its id, the
    second gets the first id drawn. *)
Lemma loaded_ids_witness :
  let generateId := uuid in
  let convertFileSrc := asset in
  let fields := sparse_document in
  let elems := sparse_items in
  let st := fresh in
  let st' := handleLoadSession generateId convertFileSrc
                               (Parsed (JObj fields)) st in
  List.length (items st') = List.length elems /\
  idsDrawn st' = (idsDrawn st + List.length (List.filter needs_id elems))%nat /\
  forall n f r,
    nth_error elems n = Some (JObj f) -> nth_error (items st') n = Some r ->
    id r = if truthy (field "id" f) then field "id" f
           else JStr (generateId
                        (idsDrawn st
                         + List.length (List.filter needs_id (firstn n elems)))%nat).
Proof.
  intros generateId convertFileSrc fields elems st.
  apply (loaded_ids generateId convertFileSrc fields elems st).
  - reflexivity.
  - repeat constructor; now eexists.
Defined.

End SessionProps.

(* ===================================================================== *)
(** * Saving a session and loading it again *)
(* ===================================================================== *)

Module PersistProps.
Import Session Persist.

Section RoundTrip.

Variable generateId : nat -> string.
Variable convertFileSrc : JsVal -> JsVal.

Lemma loadItem_saved (t : Studio.TrackData) (ld : State) :
  Studio.id t <> ""%string ->
  loadItem generateId convertFileSrc (reparse (savedTrack t)) ld
  = (Normal (restored convertFileSrc t), ld).
Proof.
  intros Hid. apply String.eqb_neq in Hid.
  destruct t as [i ty n fu v sp lp k d p]. simpl in *.
  unfold loadItem, restored. simpl.
  destruct p as [p|], k as [k|]; simpl; rewrite Hid; simpl;
    try (destruct (String.eqb p ""); reflexivity); reflexivity.
Qed.

Lemma mapItems_saved (l : list Studio.TrackData) (ld : State) :
  Forall (fun t => Studio.id t <> ""%string) l ->
  mapItems generateId convertFileSrc
           (List.map (fun x => match x with
                               | JUndefined => JNull
                               | _ => reparse x
                               end) (List.map savedTrack l)) ld
  = (Normal (List.map (restored convertFileSrc) l), ld).
Proof.
  induction 1 as [|t l Ht _ IH]; [reflexivity|].
  cbn [List.map mapItems].
  change (match savedTrack t with
          | JUndefined => JNull
          | _ => reparse (savedTrack t)
          end) with (reparse (savedTrack t)).
  rewrite (loadItem_saved t ld Ht), IH. reflexivity.
Qed.

(** Saving and loading again: when no item has an empty id, loading the
    file that [handleSaveSession] wrote shows no dialog, logs nothing,
    draws no id, and rebuilds the items in order with the saved id, name,
    volume, start point, loop flag, assigned key and path; the duration
    starts again at 0 and the file URL is derived from the path.  The
    session name comes back too, except that an empty name comes back as
    "Loaded Session". *)
Theorem save_then_load (file : string) (st : Studio.App) (ld : State) :
  file <> ""%string ->
  Forall (fun t => Studio.id t <> ""%string) (Studio.items st) ->
  exists doc,
    handleSaveSession (Some file) true st
    = mkSaved ["Session saved successfully!"%string] (Some (file, doc)) /\
    let ld' := handleLoadSession generateId convertFileSrc
                                 (Parsed (reparse doc)) ld in
    quiet ld ld' /\
    idsDrawn ld' = idsDrawn ld /\
    sessionName ld' = JStr (if String.eqb (Studio.sessionName st) ""
                            then "Loaded Session"%string
                            else Studio.sessionName st) /\
    items ld' = List.map (restored convertFileSrc) (Studio.items st).
Proof.
  intros Hfile Hids. exists (sessionData st). split.
  - unfold handleSaveSession. apply String.eqb_neq in Hfile. now rewrite Hfile.
  - cbn [reparse sessionData List.flat_map snd fst List.app].
    unfold handleLoadSession, loadParsed.
    cbn [get lookup_field String.eqb Ascii.eqb Bool.eqb truthy].
    simpl lookup_field. cbn iota beta.
    rewrite (mapItems_saved (Studio.items st) _ Hids). simpl.
    repeat split.
    unfold or_else. simpl.
    destruct (String.eqb (Studio.sessionName st) ""); reflexivity.
Qed.

End RoundTrip.

(** The stage with two clips, saved and loaded into a fresh window. *)
Lemma save_then_load_witness :
  let generateId := uuid in
  let convertFileSrc := asset in
  let file := "set.json"%string in
  let st := Studio.stage (Some "KeyQ"%string) None in
  let ld := fresh in
  exists doc,
    handleSaveSession (Some file) true st
    = mkSaved ["Session saved successfully!"%string] (Some (file, doc)) /\
    let ld' := handleLoadSession generateId convertFileSrc
                                 (Parsed (reparse doc)) ld in
    quiet ld ld' /\
    idsDrawn ld' = idsDrawn ld /\
    sessionName ld' = JStr (if String.eqb (Studio.sessionName st) ""
                            then "Loaded Session"%string
                            else Studio.sessionName st) /\
    items ld' = List.map (restored convertFileSrc) (Studio.items st).
Proof.
  intros generateId convertFileSrc file st ld.
  apply (save_then_load generateId convertFileSrc file st ld).
  - discriminate.
  - repeat constructor; discriminate.
Defined.

End PersistProps.

(* ===================================================================== *)
(** * More on the studio: router, cards, items *)
(* ===================================================================== *)

Module StudioProps.
Import Studio StudioFacts.

(** ** The keyboard router *)

Lemma playingIds_spec (refs : gmap string (option AudioCard)) (i : string) :
  bool_decide (i ∈ playingIds refs) = plays refs i.
Proof.
  unfold playingIds, plays.
  destruct (refs !! i) as [ref|] eqn:Hi.
  - destruct (ref_isPlaying ref) eqn:Hp.
    + apply bool_decide_eq_true. apply list_elem_of_fmap.
      exists (i, ref). split; [reflexivity|].
      apply elem_of_map_to_list. apply map_lookup_filter_Some. auto.
    + apply bool_decide_eq_false. intros H.
      apply list_elem_of_fmap in H as ([j r] & -> & H).
      apply elem_of_map_to_list, map_lookup_filter_Some in H as [H1 H2].
      simpl in *. congruence.
  - apply bool_decide_eq_false. intros H.
    apply list_elem_of_fmap in H as ([j r] & -> & H).
    apply elem_of_map_to_list, map_lookup_filter_Some in H as [H1 H2].
    simpl in *. congruence.
Qed.

Lemma playingIds_nonempty (refs : gmap string (option AudioCard)) :
  Nat.ltb 0 (List.length (playingIds refs)) = true <->
  exists i, plays refs i = true.
Proof.
  rewrite Nat.ltb_lt. split.
  - intros H. destruct (playingIds refs) as [|i l] eqn:E; [simpl in H; lia|].
    exists i. rewrite <- playingIds_spec, E. apply bool_decide_eq_true. left.
  - intros (i & Hi). rewrite <- playingIds_spec in Hi.
    apply bool_decide_eq_true in Hi.
    destruct (playingIds refs); [inversion Hi|simpl; lia].
Qed.

Lemma pause_not_playing (c : AudioCard) :
  in_sync c -> isPlaying (pause c) = false.
Proof.
  unfold in_sync, pause, audio_pause. intros H.
  destruct (audioRef c) as [a|]; [|exact H].
  destruct (el_paused a); [exact H|reflexivity].
Qed.

Lemma pause_keeps (c : AudioCard) :
  track (pause c) = track c /\
  currentTime (pause c) = currentTime c /\
  el_currentTime <$> audioRef (pause c) = el_currentTime <$> audioRef c /\
  el_playable <$> audioRef (pause c) = el_playable <$> audioRef c /\
  el_paused <$> audioRef (pause c) = (fun _ => true) <$> audioRef c.
Proof.
  unfold pause, audio_pause.
  destruct (audioRef c) as [a|] eqn:Ha; [|rewrite Ha; auto].
  destruct (el_paused a) eqn:Hp; simpl; rewrite ?Ha; simpl; rewrite ?Hp;
    auto 6.
Qed.

Lemma pause_if_playing_idem (ref : option AudioCard) :
  pause_if_playing (pause_if_playing ref) = pause_if_playing ref.
Proof.
  unfold pause_if_playing. destruct ref as [c|]; simpl; [|reflexivity].
  destruct (isPlaying c) eqn:E; simpl; [|now rewrite E].
  destruct (isPlaying (pause c)) eqn:E'; [|reflexivity].
  f_equal. unfold pause, audio_pause in *.
  destruct (audioRef c) as [a|] eqn:Ha; [|now rewrite Ha].
  destruct (el_paused a) eqn:Hp; [now rewrite Ha, Hp|].
  simpl in E'. discriminate.
Qed.

(** Space, outside a text field: the element of every registered card
    that shows itself as playing is paused, where it is (and when flag and
    element agreed, the card no longer shows as playing); the cards that
    do not play, the null entries and the items are left alone; the
    default action is prevented, and a second press changes nothing
    more. *)
Theorem space_pauses_all (e : KeyboardEvent) (st : App) :
  target e = OtherElement -> code e = "Space"%string ->
  let st' := snd (handleGlobalKeyDown e st) in
  fst (handleGlobalKeyDown e st) = true /\
  items st' = items st /\
  (forall i c, trackRefs st !! i = Some (Some c) ->
     exists c', trackRefs st' !! i = Some (Some c') /\
                track c' = track c /\
                el_currentTime <$> audioRef c' = el_currentTime <$> audioRef c /\
                el_playable <$> audioRef c' = el_playable <$> audioRef c /\
                (isPlaying c = false -> c' = c) /\
                (isPlaying c = true ->
                 el_paused <$> audioRef c' = (fun _ => true) <$> audioRef c) /\
                (in_sync c -> isPlaying c' = false)) /\
  (forall i, trackRefs st !! i = Some None -> trackRefs st' !! i = Some None) /\
  (forall i, trackRefs st !! i = None -> trackRefs st' !! i = None) /\
  snd (handleGlobalKeyDown e st') = st'.
Proof.
  intros Ht Hc. unfold handleGlobalKeyDown. rewrite Ht, Hc. simpl.
  split; [reflexivity|]. split; [reflexivity|].
  split; [|split; [|split]].
  - intros i c Hi. rewrite lookup_fmap, Hi. simpl.
    destruct (isPlaying c) eqn:E; simpl.
    + exists (pause c). destruct (pause_keeps c) as (H1 & _ & H3 & H4 & H5).
      split; [reflexivity|]. split; [exact H1|]. split; [exact H3|].
      split; [exact H4|]. split; [discriminate|]. split; [intros _; exact H5|].
      apply pause_not_playing.
    + exists c. split; [reflexivity|]. split; [reflexivity|].
      split; [reflexivity|]. split; [reflexivity|]. split; [reflexivity|].
      split; [discriminate|]. intros H. unfold in_sync in H.
      rewrite <- E. reflexivity.
  - intros i Hi. rewrite lookup_fmap, Hi. reflexivity.
  - intros i Hi. rewrite lookup_fmap, Hi. reflexivity.
  - unfold set_trackRefs. simpl. f_equal.
    apply map_eq. intros i. rewrite !lookup_fmap.
    destruct (trackRefs st !! i) as [ref|]; simpl; [|reflexivity].
    f_equal. apply pause_if_playing_idem.
Qed.

(** *** Sums of doubles *)

Lemma nearest_even_err (num den : Z) :
  0 < den -> Z.abs (2 * (nearest_even num den * den - num)) <= den.
Proof.
  intros Hd. unfold nearest_even.
  pose proof (Z.div_mod num den ltac:(lia)) as E.
  pose proof (Z.mod_pos_bound num den Hd) as B.
  destruct (Z.compare_spec (2 * (num mod den)) den) as [H|H|H];
    [destruct (Z.even (num / den))| |]; nia.
Qed.

Lemma round_pos_err (n : Z) (d : positive) :
  0 < n -> n < 2 * Zpos d ->
  (Qabs (round_pos n d - (n # d)) <= ulp52)%Q.
Proof.
  intros Hn Hlt. unfold round_pos.
  set (k := Z.log2 n - Z.log2 (Zpos d)).
  assert (Hk : k <= 1).
  { assert (Z.log2 n <= Z.log2 (2 * Zpos d)) by (apply Z.log2_le_mono; lia).
    rewrite Z.log2_double in H by lia. unfold k. lia. }
  set (below := if 0 <=? k then _ else _).
  set (e0 := if below then k - 1 else k).
  assert (He0 : e0 <= 1) by (unfold e0; destruct below; lia).
  set (e := Z.max (e0 - 52) (-1074)).
  assert (He : e <= -51) by (unfold e; lia).
  destruct (Z.leb_spec 0 e) as [H0|H0]; [lia|].
  set (P := 2 ^ (- e)).
  assert (HP : 2 ^ 51 <= P) by (apply Z.pow_le_mono_r; lia).
  assert (HP0 : 0 < P) by (apply Z.pow_pos_nonneg; lia).
  pose proof (nearest_even_err (n * P) (Zpos d) ltac:(lia)) as Herr.
  set (m := nearest_even (n * P) (Zpos d)) in *.
  apply Qabs_Qle_condition. unfold ulp52, Qle, Qopp, Qminus, Qplus. simpl.
  rewrite !Z2Pos.id by lia.
  rewrite !Pos2Z.inj_mul, !Z2Pos.id by lia.
  change (Z.pow_pos 2 52) with (2 ^ 52).
  assert (H52 : 2 ^ 52 = 2 * 2 ^ 51) by reflexivity.
  split; nia.
Qed.

(** Between -2 and 2 a number and its double differ by at most
    [2 ^ -52]. *)
Lemma double_round_err (q : Q) :
  (Qabs q < 2)%Q -> (Qabs (double_round q - q) <= ulp52)%Q.
Proof.
  destruct q as [n d]. unfold double_round. simpl Qnum. simpl Qden.
  destruct n as [|n|n]; intros H.
  - unfold Qabs, Qminus, Qplus, Qle, ulp52. simpl. lia.
  - rewrite Qred_correct. apply round_pos_err; [lia|].
    unfold Qlt in H. simpl in H. lia.
  - rewrite Qred_correct.
    assert (E : (- round_pos (Z.pos n) d - (Z.neg n # d) ==
                 - (round_pos (Z.pos n) d - (Z.pos n # d)))%Q).
    { unfold Qeq, Qminus, Qplus, Qopp. simpl. lia. }
    rewrite E, Qabs_opp. apply round_pos_err; [lia|].
    unfold Qlt in H. simpl in H. lia.
Qed.

Lemma double_round_near (q : Q) :
  (-2 < q)%Q -> (q < 2)%Q ->
  (q - ulp52 <= double_round q)%Q /\ (double_round q <= q + ulp52)%Q.
Proof.
  intros Hlo Hhi.
  assert (H : (Qabs q < 2)%Q) by (apply Qabs_Qlt_condition; split; assumption).
  apply double_round_err, Qabs_Qle_condition in H. destruct H as [H1 H2].
  unfold ulp52 in *. split; lra.
Qed.

(** A step of 0.05 moves a volume within 0..1 the way it points, also after
    rounding. *)
Lemma js_add_step (v : Q) :
  (0 <= v)%Q -> (v <= 1)%Q ->
  (v < js_add v step)%Q /\ (js_add v (- step) < v)%Q.
Proof.
  intros H0 H1. unfold js_add.
  destruct (double_round_near v) as [A1 A2]; [lra|lra|].
  change (double_round step)
    with (3602879701896397 # 72057594037927936)%Q.
  change (double_round (- step))
    with (- (3602879701896397 # 72057594037927936))%Q.
  unfold ulp52 in *. change (2 ^ 52)%positive with 4503599627370496%positive in *.
  split.
  - destruct (double_round_near
                (double_round v + (3602879701896397 # 72057594037927936)))
      as [B1 B2]; [lra|lra|].
    unfold ulp52 in *. change (2 ^ 52)%positive with 4503599627370496%positive in *.
    lra.
  - destruct (double_round_near
                (double_round v + - (3602879701896397 # 72057594037927936)))
      as [B1 B2]; [lra|lra|].
    unfold ulp52 in *. change (2 ^ 52)%positive with 4503599627370496%positive in *.
    lra.
Qed.

Lemma clamp_range (x : Q) : (0 <= clamp 0 1 x)%Q /\ (clamp 0 1 x <= 1)%Q.
Proof.
  unfold clamp. split.
  - apply Q.min_glb; [discriminate|apply Q.le_max_l].
  - apply Q.le_min_l.
Qed.

Lemma clamp_step (v : Q) :
  (0 <= v)%Q -> (v <= 1)%Q ->
  (v <= clamp 0 1 (js_add v step))%Q /\ (clamp 0 1 (js_add v (- step)) <= v)%Q.
Proof.
  intros H0 H1. destruct (js_add_step v H0 H1) as [Hup Hdown].
  unfold clamp. split.
  - apply Q.min_glb; [exact H1|].
    apply Qle_trans with (js_add v step); [lra|apply Q.le_max_r].
  - apply Qle_trans with (Qmax 0 (js_add v (- step))); [apply Q.le_min_r|].
    apply Q.max_lub; [exact H0|lra].
Qed.

(** Comma and Period, outside a text field: every item whose card plays
    gets the volume that JavaScript computes for [volume - 0.05] (Comma)
    or [volume + 0.05] (Period), a sum of doubles, clamped to 0..1; from a
    volume within 0..1 it never moves the other way.  All other items,
    and all cards, are left as they are; the default action is prevented
    exactly when some card plays. *)
Theorem comma_period_nudge_playing (e : KeyboardEvent) (st : App) :
  target e = OtherElement ->
  code e = "Comma"%string \/ code e = "Period"%string ->
  let delta := if String.eqb (code e) "Period" then step else (- step)%Q in
  let st' := snd (handleGlobalKeyDown e st) in
  trackRefs st' = trackRefs st /\
  (fst (handleGlobalKeyDown e st) = true <->
   exists i, plays (trackRefs st) i = true) /\
  Forall2 (fun t t' =>
             if plays (trackRefs st) (id t)
             then t' = apply_updates t
                         (upd_volume (clamp 0 1 (js_add (volume t) delta)))
                  /\ (0 <= volume t')%Q /\ (volume t' <= 1)%Q
                  /\ ((0 <= volume t)%Q -> (volume t <= 1)%Q ->
                      if String.eqb (code e) "Period"
                      then (volume t <= volume t')%Q
                      else (volume t' <= volume t)%Q)
             else t' = t)
          (items st) (items st').
Proof.
  intros Ht Hc delta st'. subst st' delta.
  unfold handleGlobalKeyDown. rewrite Ht.
  assert (Hn : normalizeCode (code e) = code e)
    by (destruct Hc as [-> | ->]; reflexivity).
  rewrite Hn.
  assert (Hs : String.eqb (code e) "Space" = false)
    by (destruct Hc as [-> | ->]; reflexivity).
  assert (Ha : String.eqb (code e) "ArrowUp" || String.eqb (code e) "ArrowDown" = false)
    by (destruct Hc as [-> | ->]; reflexivity).
  assert (Hcp : String.eqb (code e) "Comma" || String.eqb (code e) "Period" = true)
    by (destruct Hc as [-> | ->]; reflexivity).
  rewrite Hs, Ha, andb_false_r, Hcp. cbv zeta.
  destruct (Nat.ltb 0 (List.length (playingIds (trackRefs st)))) eqn:Hany; simpl.
  - split; [reflexivity|]. split.
    { split; [intros _; now apply playingIds_nonempty|reflexivity]. }
    induction (items st) as [|t l IH]; simpl; constructor; [|exact IH].
    rewrite playingIds_spec. destruct (type t). simpl. rewrite andb_true_r.
    destruct (plays (trackRefs st) (id t)); [|reflexivity].
    split; [reflexivity|]. simpl.
    split; [apply clamp_range|]. split; [apply clamp_range|].
    intros H0 H1. destruct (clamp_step (volume t) H0 H1) as [Hup Hdown].
    destruct (String.eqb (code e) "Period"); assumption.
  - split; [reflexivity|]. split.
    { split; [discriminate|]. intros H. apply playingIds_nonempty in H. congruence. }
    assert (Hnone : forall i, plays (trackRefs st) i = false).
    { intros i. destruct (plays (trackRefs st) i) eqn:E; [|reflexivity].
      assert (Hex : exists i, plays (trackRefs st) i = true) by eauto.
      apply playingIds_nonempty in Hex. congruence. }
    induction (items st) as [|t l IH]; constructor; [|exact IH].
    now rewrite Hnone.
Qed.

(** ArrowUp and ArrowDown outside a text field go by the selection that
    the installed listener holds, the one of the last render in which the
    items changed, and not by the current one: a click on a card changes
    neither what the press does to items and cards nor whether the default
    action is prevented.  While the listener holds no selection the press
    reaches the key lookup.  While it holds one, the default action is
    prevented and no card is touched, also when a clip is bound to the
    arrow key; the items with that id get the volume that JavaScript
    computes for the first of them, [volume + 0.05] or [volume - 0.05] as
    a sum of doubles clamped to 0..1 (from a volume within 0..1 never
    moved the other way), every other item is left as it is, and the
    listener installed next holds the current selection; when no item has
    that id nothing changes. *)
Theorem arrows_follow_listener_selection (e : KeyboardEvent) (st : App) :
  target e = OtherElement ->
  code e = "ArrowUp"%string \/ code e = "ArrowDown"%string ->
  let delta := if String.eqb (code e) "ArrowUp" then step else (- step)%Q in
  let st' := snd (handleGlobalKeyDown e st) in
  (forall i,
      let clicked := handleGlobalKeyDown e (setSelectedItemId i st) in
      fst clicked = fst (handleGlobalKeyDown e st) /\
      items (snd clicked) = items st' /\
      trackRefs (snd clicked) = trackRefs st') /\
  (selected_truthy (listener_selectedItemId st) = false -> routed e st) /\
  (forall sel,
      listener_selectedItemId st = Some sel -> sel <> ""%string ->
      fst (handleGlobalKeyDown e st) = true /\
      trackRefs st' = trackRefs st /\
      match List.find (fun i => String.eqb (id i) sel) (items st) with
      | None => st' = st
      | Some item =>
          let v := clamp 0 1 (js_add (volume item) delta) in
          (0 <= v)%Q /\ (v <= 1)%Q /\
          ((0 <= volume item)%Q -> (volume item <= 1)%Q ->
           if String.eqb (code e) "ArrowUp"
           then (volume item <= v)%Q else (v <= volume item)%Q) /\
          items st' = List.map (fun t => if String.eqb (id t) sel
                                         then apply_updates t (upd_volume v)
                                         else t) (items st) /\
          listener_selectedItemId st' = selectedItemId st
      end).
Proof.
  intros Ht Hc delta st'. subst st' delta.
  assert (Hn : normalizeCode (code e) = code e)
    by (destruct Hc as [-> | ->]; reflexivity).
  assert (Hs : String.eqb (code e) "Space" = false)
    by (destruct Hc as [-> | ->]; reflexivity).
  assert (Ha : String.eqb (code e) "ArrowUp" || String.eqb (code e) "ArrowDown" = true)
    by (destruct Hc as [-> | ->]; reflexivity).
  split; [|split].
  - intros i. cbv zeta. unfold handleGlobalKeyDown.
    cbn [setSelectedItemId listener_selectedItemId items trackRefs].
    assert (Hcp : String.eqb (code e) "Comma" || String.eqb (code e) "Period"
                  = false)
      by (destruct Hc as [-> | ->]; reflexivity).
    rewrite Ht, Hs, Hn, Ha, Hcp, andb_true_r.
    destruct (selected_truthy (listener_selectedItemId st)).
    + destruct (listener_selectedItemId st); [|now repeat split].
      destruct (List.find _ (items st)); [|now repeat split].
      destruct (is_audio _); now repeat split.
    + destruct (List.find _ (items st)); [|now repeat split].
      cbn [fst snd]. split; [reflexivity|].
      destruct (trackRefs st !! _) as [[ref|]|]; try now split.
      destruct (isPlaying ref); now split.
  - intros Hsel. split; [exact Ht|].
    split; [intros E; rewrite E in Hs; discriminate|].
    rewrite Hn. split; [destruct Hc as [-> | ->]; discriminate|].
    split; [destruct Hc as [-> | ->]; discriminate|].
    intros E. congruence.
  - intros sel Hsel Hne.
    unfold handleGlobalKeyDown. rewrite Ht, Hn, Hs, Ha, Hsel. cbv zeta.
    simpl selected_truthy. apply String.eqb_neq in Hne. rewrite Hne. simpl.
    destruct (List.find (fun i => String.eqb (id i) sel) (items st))
      as [item|] eqn:Hf.
    + apply find_some in Hf as [_ Hid]. apply String.eqb_eq in Hid.
      destruct (type item). simpl.
      split; [reflexivity|]. split; [reflexivity|].
      split; [apply clamp_range|]. split; [apply clamp_range|].
      split.
      { intros H0 H1. destruct (clamp_step (volume item) H0 H1) as [Hup Hdown].
        destruct (String.eqb (code e) "ArrowUp"); assumption. }
      split; [|reflexivity].
      rewrite Hid. unfold handleUpdateTrack. apply List.map_ext. intros t.
      destruct (type t). simpl. now rewrite andb_true_r.
    + auto.
Qed.

(** A key press that reaches the key lookup and that no item is bound to
    does nothing at all, not even prevent the default action; a key bound
    to an item whose card is not registered is swallowed, and changes
    nothing either. *)
Theorem unbound_key_is_ignored (e : KeyboardEvent) (st : App) :
  routed e st ->
  (matchedTrack e st = None -> handleGlobalKeyDown e st = (false, st)) /\
  (forall m, matchedTrack e st = Some m ->
             (trackRefs st !! id m = None \/ trackRefs st !! id m = Some None) ->
             handleGlobalKeyDown e st = (true, st)).
Proof.
  intros Hr. rewrite (handleGlobalKeyDown_routed e st Hr). split.
  - intros ->. reflexivity.
  - intros m -> [-> | ->]; reflexivity.
Qed.

Lemma substring_all (s : string) : String.substring 0 (String.length s) s = s.
Proof. induction s as [|c s IH]; simpl; [reflexivity|now rewrite IH]. Qed.

Lemma normalizeCode_Digit (s : string) :
  normalizeCode (String.append "Digit" s) = String.append "Digit" s.
Proof. reflexivity. Qed.

Lemma prefix_split (p c : string) :
  String.prefix p c = true ->
  c = String.append p (String.substring (String.length p)
                                        (String.length c - String.length p) c).
Proof.
  revert c. induction p as [|a p IH]; intros c H; simpl in *.
  - now rewrite Nat.sub_0_r, substring_all.
  - destruct c as [|b c]; [discriminate|]. simpl in H.
    destruct (Ascii.ascii_dec a b) as [e|]; [subst b|discriminate].
    simpl. unfold String.append; fold String.append. f_equal. now apply IH.
Qed.

Lemma normalizeCode_cases (c : string) :
  normalizeCode c = c
  \/ exists s, c = String.append "Numpad" s /\
               normalizeCode c = String.append "Digit" s.
Proof.
  unfold normalizeCode.
  destruct (String.prefix "Numpad" c
            && existsb is_digit (list_ascii_of_string c)) eqn:E; [|now left].
  right. apply andb_true_iff in E as [Hp _].
  exists (String.substring 6 (String.length c - 6) c).
  split; [exact (prefix_split "Numpad" c Hp)|reflexivity].
Qed.

(** The normalisation of key codes, shared by the key capture and the
    router: normalising twice is normalising once; the numpad key and the
    main-row key of a digit get the same code; a code that does not start
    with "Numpad", or that contains no digit, is kept. *)
Theorem normalizeCode_canonical :
  (forall c, normalizeCode (normalizeCode c) = normalizeCode c)
  /\ (forall s, existsb is_digit (list_ascii_of_string s) = true ->
                normalizeCode (String.append "Numpad" s) = String.append "Digit" s
                /\ normalizeCode (String.append "Digit" s)
                   = normalizeCode (String.append "Numpad" s))
  /\ (forall c, String.prefix "Numpad" c = false
                \/ existsb is_digit (list_ascii_of_string c) = false ->
                normalizeCode c = c).
Proof.
  split; [|split].
  - intros c. destruct (normalizeCode_cases c) as [E | (s & _ & ->)].
    + now rewrite !E.
    + apply normalizeCode_Digit.
  - intros s Hs.
    assert (H : normalizeCode (String.append "Numpad" s) = String.append "Digit" s).
    { change (String.append "Numpad" s)
        with (String "N" (String "u" (String "m" (String "p"
               (String "a" (String "d" s)))))).
      unfold normalizeCode. simpl. rewrite Hs. simpl.
      rewrite Nat.sub_0_r, substring_all.
      now replace (String.prefix "" s) with true by now destruct s. }
    split; [exact H|]. now rewrite H, normalizeCode_Digit.
  - intros c [H|H]; unfold normalizeCode; rewrite H; simpl; [reflexivity|].
    now rewrite andb_false_r.
Qed.

(** ** The card and its element *)

Ltac sync :=
  intros; unfold in_sync in *; simpl in *;
  repeat match goal with
         | |- context [match ?x with _ => _ end] =>
             destruct x eqn:?; simpl in *
         | H : context [match ?x with _ => _ end] |- _ =>
             destruct x eqn:?; simpl in *
         end;
  simplify_eq; simpl in *;
  repeat match goal with
         | |- context [el_paused ?a] => destruct (el_paused a)
         end;
  simpl in *; try congruence; auto.

Lemma audio_pause_sync (c : AudioCard) : in_sync c -> in_sync (audio_pause c).
Proof. unfold audio_pause. sync. Qed.

Lemma audio_play_sync (c : AudioCard) : in_sync c -> in_sync (audio_play c).
Proof. unfold audio_play. sync. Qed.

Lemma audio_seek_sync (t : Q) (c : AudioCard) :
  in_sync c -> in_sync (audio_seek t c).
Proof. unfold audio_seek. sync. Qed.

Lemma play_sync (c : AudioCard) : in_sync c -> in_sync (play c).
Proof.
  intros H. unfold play. destruct (audioRef c) eqn:E; [|exact H].
  apply audio_play_sync.
  destruct (Qltb _ _); [now apply audio_seek_sync|exact H].
Qed.

Lemma stop_sync (c : AudioCard) : in_sync c -> in_sync (stop c).
Proof. unfold stop, audio_seek, audio_pause. sync. Qed.

Lemma handleEnded_sync (c : AudioCard) :
  in_sync c -> in_sync (handleEnded (audio_pause c)).
Proof. unfold handleEnded, audio_play, audio_seek, audio_pause. sync. Qed.

Lemma handleScrub_sync (x : Q) (c : AudioCard) :
  in_sync c -> in_sync (handleScrub x c).
Proof.
  intros H. unfold handleScrub.
  destruct (progressRef c); [|exact H].
  destruct (Qeq_bool _ _); [exact H|].
  cbv zeta. unfold in_sync in *. simpl. unfold audio_seek.
  destruct (audioRef c) eqn:E; simpl; rewrite ?E; exact H.
Qed.

Lemma card_handler_sync (e : CardEvent) (c : AudioCard) :
  in_sync c -> in_sync (fst (card_handler e c)).
Proof.
  intros H. destruct e; simpl; try exact H.
  - unfold handlePlayClick. destruct (isPlaying c) eqn:E; simpl; [|exact H].
    now apply audio_pause_sync.
  - unfold handleStopClick. destruct (audioRef c) eqn:E; simpl; [|exact H].
    now apply audio_seek_sync, audio_pause_sync.
  - unfold handleKeyDown. destruct (waitingForKey c); exact H.
  - unfold startScrub. destruct (negb _); [exact H|].
    now apply handleScrub_sync.
  - unfold toggleMute. destruct (Qltb _ _); exact H.
  - unfold handleTimeUpdate. destruct (audioRef c) eqn:E; [|exact H].
    destruct (isScrubbing c); [exact H|]. unfold in_sync in *. simpl. now rewrite E in *.
  - now apply handleEnded_sync.
Qed.

Lemma handlePlayRequest_sync (t : string) (sh : bool)
      (refs : gmap string (option AudioCard)) :
  all_in_sync refs -> all_in_sync (handlePlayRequest t sh refs).
Proof.
  intros H.
  assert (H1 : all_in_sync
                 (if negb sh
                  then map_imap
                         (fun i ref =>
                            Some (if negb (String.eqb i t) && ref_isPlaying ref
                                  then stop <$> ref else ref)) refs
                  else refs)).
  { destruct sh; simpl; [exact H|].
    intros i c Hi. rewrite map_lookup_imap in Hi.
    destruct (refs !! i) as [ref|] eqn:Hr; simpl in Hi; [|discriminate].
    destruct (negb (String.eqb i t) && ref_isPlaying ref).
    - destruct ref as [d|]; simpl in Hi; [|discriminate].
      injection Hi as <-. apply stop_sync. exact (H i d Hr).
    - injection Hi as ->. exact (H i c Hr). }
  unfold handlePlayRequest. cbv zeta.
  destruct (refs !! t) as [[h|]|] eqn:Ht; try exact H1.
  intros i c Hi. destruct (decide (i = t)) as [->|Hne].
  - rewrite lookup_insert_eq in Hi. injection Hi as <-.
    apply play_sync. exact (H t h Ht).
  - rewrite lookup_insert_ne in Hi by congruence. exact (H1 i c Hi).
Qed.

Lemma perform_sync (st : App) (cb : Callback) :
  all_in_sync (trackRefs st) -> all_in_sync (trackRefs (perform st cb)).
Proof.
  intros H. destruct cb; simpl; [exact H|]. now apply handlePlayRequest_sync.
Qed.

Lemma performs_sync (cbs : list Callback) (st : App) :
  all_in_sync (trackRefs st) ->
  all_in_sync (trackRefs (fold_left perform cbs st)).
Proof.
  revert st. induction cbs as [|cb cbs IH]; intros st H; simpl; [exact H|].
  apply IH. now apply perform_sync.
Qed.

Lemma rerender_sync (st : App) :
  all_in_sync (trackRefs st) -> all_in_sync (trackRefs (rerender st)).
Proof.
  intros H i c Hi. unfold rerender in Hi. simpl in Hi.
  rewrite lookup_fmap in Hi.
  destruct (trackRefs st !! i) as [[d|]|] eqn:Hr; simpl in Hi; try discriminate.
  injection Hi as <-. specialize (H i d Hr).
  destruct (List.find _ _); [|exact H]. exact H.
Qed.

(** The flag of a card and its audio element never part: starting from
    cards whose [isPlaying] agrees with their element, they still agree
    after any key press handled by the router and after any event of any
    card (clicks, key capture, scrubbing, time updates, the end of the
    media), with the callbacks it makes and the render that follows. *)
Theorem sync_invariant (st : App) :
  all_in_sync (trackRefs st) ->
  (forall e, all_in_sync (trackRefs (snd (handleGlobalKeyDown e st)))) /\
  (forall i ev, all_in_sync (trackRefs (dispatch i ev st))).
Proof.
  intros H. split.
  - intros e. unfold handleGlobalKeyDown.
    destruct (target e); try exact H.
    destruct (String.eqb (code e) "Space").
    { simpl. intros i c Hi. rewrite lookup_fmap in Hi.
      destruct (trackRefs st !! i) as [ref|] eqn:Hr; simpl in Hi; [|discriminate].
      destruct ref as [d|]; simpl in Hi; [|destruct (ref_isPlaying None); discriminate].
      destruct (isPlaying d); simpl in Hi; injection Hi as <-.
      - apply audio_pause_sync. exact (H i d Hr).
      - exact (H i d Hr). }
    cbv zeta.
    destruct (selected_truthy _ && _).
    { simpl. destruct (listener_selectedItemId st); [|exact H].
      destruct (List.find _ _) as [item|]; [|exact H].
      destruct (is_audio _); exact H. }
    destruct (_ || _).
    { destruct (Nat.ltb _ _); exact H. }
    destruct (List.find _ _) as [m|]; [|exact H]. simpl.
    destruct (trackRefs st !! id m) as [[ref|]|] eqn:Hm; try exact H.
    destruct (isPlaying ref); simpl.
    + intros i c Hi. destruct (decide (i = id m)) as [->|Hne].
      * rewrite lookup_insert_eq in Hi. injection Hi as <-.
        apply play_sync, stop_sync. exact (H _ _ Hm).
      * rewrite lookup_insert_ne in Hi by congruence. exact (H i c Hi).
    + now apply handlePlayRequest_sync.
  - intros i ev. unfold dispatch.
    destruct (trackRefs st !! i) as [[c|]|] eqn:Hi; try exact H.
    destruct (card_handler ev c) as [c' cbs] eqn:Hh.
    apply rerender_sync, performs_sync. simpl.
    intros j d Hj. destruct (decide (j = i)) as [->|Hne].
    + rewrite lookup_insert_eq in Hj. injection Hj as <-.
      change c' with (fst (c', cbs)). rewrite <- Hh.
      apply card_handler_sync. exact (H i c Hi).
    + rewrite lookup_insert_ne in Hj by congruence. exact (H j d Hj).
Qed.

(** ** The transport handle *)

(** Calling a method of the handle twice is calling it once, and stopping
    a paused card is stopping it. *)
Theorem transport_idempotent (c : AudioCard) :
  play (play c) = play c /\
  pause (pause c) = pause c /\
  stop (stop c) = stop c /\
  stop (pause c) = stop c.
Proof.
  destruct c as [t [[q tm pl]|] pr ip ct cd wk sc lv]; [|repeat split].
  unfold play, pause, stop, audio_play, audio_pause, audio_seek. simpl.
  split; [|split; [|split]].
  - destruct (Qltb tm (startPoint t)) eqn:Hlt; simpl.
    + destruct pl, q; simpl; rewrite ?Qltb_irrefl; reflexivity.
    + destruct pl, q; simpl; rewrite ?Hlt; reflexivity.
  - destruct q; reflexivity.
  - destruct q; reflexivity.
  - destruct q; reflexivity.
Qed.

(** Pausing a playing card and playing it again resumes where it was
    paused: the card is back as it was when the playhead is not before
    the start cue, and it plays from the cue otherwise. *)
Theorem pause_then_play_resumes (c : AudioCard) (a : HTMLAudioElement) :
  audioRef c = Some a -> el_paused a = false -> el_playable a = true ->
  isPlaying c = true ->
  play (pause c) =
  if Qltb (el_currentTime a) (startPoint (track c))
  then set_audio (mkAudio false (startPoint (track c)) true) c
  else c.
Proof.
  intros Ha Hq Hp Hi. destruct c as [t r pr ip ct cd wk sc lv].
  destruct a as [q tm pl]. simpl in *. subst.
  unfold play, pause, audio_pause. simpl.
  destruct (Qltb tm (startPoint t)); reflexivity.
Qed.

(** When the media of a card ends, the playhead goes back to the start
    cue; the card plays on exactly when the clip loops (and the element
    accepts [play()]), and shows itself stopped otherwise.  The card's flag
    agrees with its element beforehand. *)
Theorem ended_loops_or_stops (c : AudioCard) (a : HTMLAudioElement) :
  audioRef c = Some a -> in_sync c ->
  let c' := fst (card_handler Ended c) in
  let again := isLooping (track c) && el_playable a in
  audioRef c' = Some (mkAudio (negb again) (startPoint (track c)) (el_playable a))
  /\ isPlaying c' = again
  /\ track c' = track c /\ currentTime c' = currentTime c.
Proof.
  intros Ha Hs. destruct c as [t r pr ip ct cd wk sc lv].
  destruct a as [q tm pl]. simpl in Ha. subst r.
  unfold in_sync in Hs. simpl in Hs. subst ip.
  unfold card_handler, handleEnded, audio_play, audio_seek, audio_pause. simpl.
  destruct q, pl; simpl; destruct (isLooping t); simpl; auto.
Qed.

(** ** The volume wheel *)

(** The wheel over the volume control asks for one volume, always within
    0..1: not above the present one when the wheel turns down
    ([deltaY > 0]), not below it otherwise (a [deltaY] of 0 counts as
    up); the card itself is not changed. *)
Theorem wheel_volume (deltaY : Q) (c : AudioCard) :
  exists v,
    onWheel deltaY c = (c, [onUpdate (id (track c)) (upd_volume v)]) /\
    (0 <= v)%Q /\ (v <= 1)%Q /\
    ((0 <= volume (track c))%Q -> (volume (track c) <= 1)%Q ->
     if Qltb 0 deltaY then (v <= volume (track c))%Q
     else (volume (track c) <= v)%Q).
Proof.
  unfold onWheel. eexists. split; [reflexivity|].
  split; [apply clamp_range|]. split; [apply clamp_range|].
  intros H0 H1. destruct (clamp_step (volume (track c)) H0 H1) as [Hup Hdown].
  destruct (Qltb 0 deltaY); assumption.
Qed.

(** ** Removing an item *)

Lemma filter_all {A} (p : A -> bool) (l : list A) :
  (forall x, In x l -> p x = true) -> List.filter p l = l.
Proof.
  induction l as [|x l IH]; intros H; simpl; [reflexivity|].
  rewrite (H x (or_introl eq_refl)). f_equal. apply IH. intros y Hy.
  apply H. now right.
Qed.

Lemma find_filtered_out {A} (p q : A -> bool) (l : list A) :
  (forall x, p x = true -> q x = false) ->
  List.find p (List.filter q l) = None.
Proof.
  intros H. induction l as [|x l IH]; simpl; [reflexivity|].
  destruct (q x) eqn:Hq; simpl; [|exact IH].
  destruct (p x) eqn:Hp; [|exact IH]. apply H in Hp. congruence.
Qed.

Lemma find_filter_kept {A} (p q : A -> bool) (l : list A) (m : A) :
  List.find p l = Some m -> q m = true ->
  List.find p (List.filter q l) = Some m.
Proof.
  induction l as [|x l IH]; simpl; [discriminate|]. intros Hf Hq.
  destruct (p x) eqn:Hp.
  - injection Hf as ->. rewrite Hq. simpl. now rewrite Hp.
  - destruct (q x); simpl; rewrite ?Hp; now apply IH.
Qed.

Lemma remove_absent (i : string) (st : App) :
  (forall t, In t (items st) -> id t <> i) ->
  handleRemoveItem i st = setItems (items st) st.
Proof.
  intros H. unfold handleRemoveItem.
  destruct (List.find _ (items st)) as [t|] eqn:Hf.
  { apply find_some in Hf as [Hin Hid]. apply String.eqb_eq in Hid.
    now destruct (H t Hin). }
  rewrite filter_all; [reflexivity|].
  intros t Ht. apply negb_true_iff, String.eqb_neq. now apply H.
Qed.

(** Removing the item with id [i]: no item with that id is left and the
    others stay, in their order; the card registered under [i] is dropped
    when an item had the id, and no other card is touched; removing an id
    that no item has changes no item, card or selection, so removing
    twice is removing once; the key a remaining clip answers to still
    finds that clip; and the listener installed next holds the current
    selection. *)
Theorem remove_item (i : string) (st : App) :
  let st' := handleRemoveItem i st in
  (forall t, In t (items st') <-> In t (items st) /\ id t <> i) /\
  sublist (items st') (items st) /\
  (forall j, j <> i -> trackRefs st' !! j = trackRefs st !! j) /\
  ((exists t, In t (items st) /\ id t = i) -> trackRefs st' !! i = None) /\
  ((forall t, In t (items st) -> id t <> i) -> same_but_listener st st') /\
  handleRemoveItem i st' = st' /\
  (forall e m, matchedTrack e st = Some m -> id m <> i ->
               matchedTrack e st' = Some m) /\
  listener_selectedItemId st' = selectedItemId st.
Proof.
  intros st'. subst st'.
  split; [|split; [|split; [|split; [|split; [|split; [|split]]]]]].
  - intros t. unfold handleRemoveItem. simpl. rewrite filter_In.
    rewrite negb_true_iff, String.eqb_neq. tauto.
  - unfold handleRemoveItem. simpl.
    induction (items st) as [|t l IH]; simpl; [constructor|].
    destruct (negb _); [now apply sublist_skip|now apply sublist_cons].
  - intros j Hj. unfold handleRemoveItem. simpl.
    destruct (List.find _ _) as [t|]; [|reflexivity].
    destruct (is_audio _); [|reflexivity]. now apply lookup_delete_ne.
  - intros (t & Hin & Hid). unfold handleRemoveItem. simpl.
    destruct (List.find _ _) as [t'|] eqn:Hf.
    + destruct (type t'). simpl. apply lookup_delete_eq.
    + apply (find_none _ _ Hf) in Hin. apply String.eqb_neq in Hin. congruence.
  - intros H. rewrite (remove_absent i st H). now repeat split.
  - rewrite remove_absent.
    + unfold handleRemoveItem. reflexivity.
    + intros t Ht.
      unfold handleRemoveItem in Ht. simpl in Ht. apply filter_In in Ht as [_ Ht].
      now apply negb_true_iff, String.eqb_neq in Ht.
  - intros e m Hm Hne. unfold matchedTrack in *. unfold handleRemoveItem. simpl.
    apply find_filter_kept; [exact Hm|].
    now apply negb_true_iff, String.eqb_neq.
  - reflexivity.
Qed.

(** The selection outlives the clip: after the selected clip is removed
    it is still the selected id, so ArrowUp and ArrowDown are swallowed
    (the default action is prevented, the key lookup is not reached) and
    change nothing. *)
Theorem removed_selection_is_stale (e : KeyboardEvent) (st : App) (sel : string) :
  target e = OtherElement ->
  code e = "ArrowUp"%string \/ code e = "ArrowDown"%string ->
  selectedItemId st = Some sel -> sel <> ""%string ->
  let st' := handleRemoveItem sel st in
  selectedItemId st' = Some sel /\
  handleGlobalKeyDown e st' = (true, st').
Proof.
  intros Ht Hc Hsel Hne st'. split; [exact Hsel|].
  unfold handleGlobalKeyDown. rewrite Ht.
  assert (Hn : normalizeCode (code e) = code e)
    by (destruct Hc as [-> | ->]; reflexivity).
  rewrite Hn.
  assert (Hs : String.eqb (code e) "Space" = false)
    by (destruct Hc as [-> | ->]; reflexivity).
  assert (Ha : String.eqb (code e) "ArrowUp" || String.eqb (code e) "ArrowDown" = true)
    by (destruct Hc as [-> | ->]; reflexivity).
  rewrite Hs, Ha. cbv zeta.
  change (listener_selectedItemId st') with (selectedItemId st). rewrite Hsel.
  simpl selected_truthy. apply String.eqb_neq in Hne. rewrite Hne. simpl.
  subst st'. unfold handleRemoveItem at 1. simpl.
  rewrite find_filtered_out; [reflexivity|].
  intros x Hx. now rewrite Hx.
Qed.

(** ** Adding files *)

Lemma span_until_app {A} (p : A -> bool) (a b : list A) (s : A) :
  (forall x, In x a -> p x = false) -> p s = true ->
  span_until p (a ++ s :: b) = (a, s :: b).
Proof.
  intros Ha Hs. induction a as [|x a IH]; simpl.
  - now rewrite Hs.
  - rewrite (Ha x (or_introl eq_refl)). rewrite IH; [reflexivity|].
    intros y Hy. apply Ha. now right.
Qed.

Lemma span_until_all {A} (p : A -> bool) (a : list A) :
  (forall x, In x a -> p x = false) -> span_until p a = (a, []).
Proof.
  intros Ha. induction a as [|x a IH]; simpl; [reflexivity|].
  rewrite (Ha x (or_introl eq_refl)). rewrite IH; [reflexivity|].
  intros y Hy. apply Ha. now right.
Qed.

Lemma span_until_parts {A} (p : A -> bool) (l : list A) :
  l = (fst (span_until p l) ++ snd (span_until p l))%list /\
  (forall x, In x (fst (span_until p l)) -> p x = false).
Proof.
  induction l as [|x l [IH1 IH2]]; simpl; [split; [reflexivity|intros x []]|].
  destruct (p x) eqn:Hp; simpl; [split; [reflexivity|intros y []]|].
  destruct (span_until p l) as [a b]. simpl in *. split.
  - now f_equal.
  - intros y [<-|Hy]; auto.
Qed.

Lemma last_segment_no_sep (cs : list ascii) (c : ascii) :
  In c (last_segment cs) -> is_sep c = false.
Proof.
  unfold last_segment. intros H. apply in_rev in H.
  now apply (proj2 (span_until_parts is_sep (rev cs))).
Qed.

Lemma strip_extension_incl (seg : list ascii) (c : ascii) :
  In c (strip_extension seg) -> In c seg.
Proof.
  unfold strip_extension.
  destruct (span_until_parts (fun c => Ascii.eqb c "." || Ascii.eqb c "/")
                             (rev seg)) as [Hp _].
  destruct (span_until _ (rev seg)) as [ext rest]. simpl in Hp.
  destruct rest as [|dot before]; [auto|].
  destruct ext as [|x ext]; [auto|].
  destruct (Ascii.eqb dot "."); [|auto].
  intros H. apply in_rev in H. apply in_rev. rewrite Hp.
  apply in_or_app. right. now right.
Qed.

Lemma last_segment_of (dir seg : list ascii) (sep : ascii) :
  is_sep sep = true -> (forall c, In c seg -> is_sep c = false) ->
  last_segment (dir ++ sep :: seg) = seg /\ last_segment seg = seg.
Proof.
  intros Hs Hseg. unfold last_segment. split.
  - rewrite rev_app_distr. simpl. rewrite <- app_assoc. simpl.
    rewrite span_until_app; [apply rev_involutive| |exact Hs].
    intros c Hc. apply Hseg. now apply in_rev.
  - rewrite span_until_all; [apply rev_involutive|].
    intros c Hc. apply Hseg. now apply in_rev.
Qed.

Lemma plain_not_cut (c : ascii) :
  plain c -> Ascii.eqb c "." || Ascii.eqb c "/" = false.
Proof.
  intros [Hd Hs]. apply Ascii.eqb_neq in Hd. rewrite Hd. simpl.
  unfold is_sep in Hs. now apply orb_false_iff in Hs as [-> _].
Qed.

Lemma strip_extension_of (base ext : list ascii) :
  ext <> [] -> (forall c, In c ext -> plain c) ->
  strip_extension (base ++ "."%char :: ext) = base.
Proof.
  intros Hne Hext. unfold strip_extension.
  rewrite rev_app_distr. simpl. rewrite <- app_assoc. simpl.
  rewrite span_until_app; [| |reflexivity].
  - destruct (rev ext) eqn:E.
    + apply (f_equal (@rev ascii)) in E. rewrite rev_involutive in E.
      now destruct Hne.
    + simpl. apply rev_involutive.
  - intros c Hc. apply plain_not_cut, Hext. now apply in_rev.
Qed.

Lemma strip_extension_none (base : list ascii) :
  (forall c, In c base -> plain c) -> strip_extension base = base.
Proof.
  intros Hb. unfold strip_extension.
  rewrite span_until_all; [reflexivity|].
  intros c Hc. apply plain_not_cut, Hb. now apply in_rev.
Qed.

Lemma trackName_of_chars (cs : list ascii) :
  cs <> [] ->
  match cs with
  | [] => "Untitled"%string
  | a :: l => string_of_list_ascii (a :: l)
  end = string_of_list_ascii cs.
Proof. now destruct cs. Qed.

(** The name of a new track is never empty and holds no path separator. *)
Theorem trackName_is_a_name (p : string) :
  trackName p <> ""%string /\
  forall c, In c (list_ascii_of_string (trackName p)) -> is_sep c = false.
Proof.
  unfold trackName.
  destruct (strip_extension (last_segment (list_ascii_of_string p)))
    as [|c cs] eqn:E.
  - split; [discriminate|].
    intros c Hc. simpl in Hc.
    repeat (destruct Hc as [<-|Hc]; [reflexivity|]). destruct Hc.
  - split; [discriminate|].
    rewrite list_ascii_of_string_of_list_ascii. intros x Hx.
    rewrite <- E in Hx. apply strip_extension_incl in Hx.
    now apply last_segment_no_sep in Hx.
Qed.

(** The name of a new track is the file name without its directories and
    without its last extension: for a path [dir/base.ext] (either
    separator) the name is [base], which may itself hold dots; without an
    extension it is the whole last segment; and a path that ends in a
    separator, or whose last segment is only an extension (".mp3"), gives
    "Untitled". *)
Theorem trackName_of_path (dir base ext : list ascii) (sep : ascii) :
  is_sep sep = true ->
  (forall c, In c base -> is_sep c = false) ->
  ext <> [] -> (forall c, In c ext -> plain c) ->
  let named (cs : list ascii) := trackName (string_of_list_ascii cs) in
  (base <> [] ->
   named (dir ++ sep :: base ++ "."%char :: ext)%list = string_of_list_ascii base /\
   named (base ++ "."%char :: ext)%list = string_of_list_ascii base) /\
  named (dir ++ sep :: ext)%list = string_of_list_ascii ext /\
  named (dir ++ [sep])%list = "Untitled"%string /\
  named (dir ++ sep :: "."%char :: ext)%list = "Untitled"%string.
Proof.
  intros Hs Hb Hne He named. subst named. cbv beta.
  assert (Hseg : forall c, In c (base ++ "."%char :: ext)%list -> is_sep c = false).
  { intros c Hc. apply in_app_or in Hc as [Hc|[<-|Hc]];
      [now apply Hb|reflexivity|now apply He]. }
  assert (Hext : forall c, In c ext -> is_sep c = false)
    by (intros c Hc; now apply He).
  unfold trackName. rewrite !list_ascii_of_string_of_list_ascii.
  split; [|split; [|split]].
  - intros Hbase.
    destruct (last_segment_of dir (base ++ "."%char :: ext)%list sep Hs Hseg)
      as [-> ->].
    rewrite (strip_extension_of base ext Hne He).
    split; now apply trackName_of_chars.
  - destruct (last_segment_of dir ext sep Hs Hext) as [-> _].
    rewrite (strip_extension_none ext He). now apply trackName_of_chars.
  - destruct (last_segment_of dir [] sep Hs) as [-> _]; [intros c []|].
    reflexivity.
  - assert (Hd : forall c, In c ("."%char :: ext) -> is_sep c = false).
    { intros c [<-|Hc]; [reflexivity|now apply He]. }
    destruct (last_segment_of dir ("."%char :: ext) sep Hs Hd) as [-> _].
    change ("."%char :: ext) with ([] ++ "."%char :: ext)%list.
    now rewrite (strip_extension_of [] ext Hne He).
Qed.

Lemma find_app_none {A} (p : A -> bool) (l new : list A) :
  (forall x, In x new -> p x = false) ->
  List.find p (l ++ new) = List.find p l.
Proof.
  intros H. induction l as [|x l IH]; simpl.
  - destruct (List.find p new) as [y|] eqn:E; [|reflexivity].
    apply find_some in E as [Hin Hp]. rewrite (H y Hin) in Hp. discriminate.
  - destruct (p x); [reflexivity|exact IH].
Qed.

Lemma filter_none {A} (p : A -> bool) (l : list A) :
  (forall x, In x l -> p x = false) -> List.filter p l = [].
Proof.
  induction l as [|x l IH]; intros H; simpl; [reflexivity|].
  rewrite (H x (or_introl eq_refl)). apply IH. intros y Hy. apply H. now right.
Qed.

Section AddFiles.
Variable generateId : nat -> string.
Variable convertFileSrc : string -> string.

Lemma newTracks_spec (paths : list string) (k : nat) :
  List.map path (newTracks generateId convertFileSrc k paths)
  = List.map Some paths /\
  List.map id (newTracks generateId convertFileSrc k paths)
  = List.map generateId (seq k (List.length paths)) /\
  (forall t, In t (newTracks generateId convertFileSrc k paths) ->
             assignedKey t = None).
Proof.
  revert k. induction paths as [|p paths IH]; intros k; simpl.
  - split; [reflexivity|]. split; [reflexivity|]. intros t [].
  - destruct (IH (S k)) as (H1 & H2 & H3).
    rewrite H1, H2. split; [reflexivity|]. split; [reflexivity|].
    intros t [<-|Ht]; [reflexivity|now apply H3].
Qed.

(** Adding files appends one track per chosen path, in the order of the
    paths, with the ids drawn in that order; the tracks already there and
    all cards are left as they are; the new tracks are bound to no key,
    so every key still finds the clip it found before and keys that were
    not shared are still not shared; ids stay distinct when the drawn ids
    are distinct and new.  A closed dialog changes nothing, and an empty
    choice changes no item, card or selection. *)
Theorem add_files (paths : list string) (drawn : nat) (st : App) :
  let st' := handleAddFiles generateId convertFileSrc (Some paths) drawn st in
  (exists new,
      items st' = (items st ++ new)%list /\
      List.map path new = List.map Some paths /\
      List.map id new
      = List.map generateId (seq drawn (List.length paths))) /\
  trackRefs st' = trackRefs st /\
  (forall e, matchedTrack e st' = matchedTrack e st) /\
  (keys_unique (items st) -> keys_unique (items st')) /\
  (NoDup (List.map id (items st)
          ++ List.map generateId (seq drawn (List.length paths))) ->
   NoDup (List.map id (items st'))) /\
  handleAddFiles generateId convertFileSrc None drawn st = st /\
  same_but_listener st
    (handleAddFiles generateId convertFileSrc (Some []) drawn st).
Proof.
  intros st'. subst st'. simpl.
  destruct (newTracks_spec paths drawn) as (H1 & H2 & H3).
  split; [eauto|]. split; [reflexivity|].
  split; [|split; [|split; [|split]]].
  - intros e. unfold matchedTrack. simpl. apply find_app_none.
    intros t Ht. unfold holds_key. rewrite (H3 t Ht). apply andb_false_r.
  - intros Hk k. rewrite List.filter_app.
    replace (List.filter (holds_key k)
                         (newTracks generateId convertFileSrc drawn paths))
      with (@nil TrackData); [rewrite app_nil_r; apply Hk|].
    symmetry. apply filter_none. intros t Ht.
    unfold holds_key. now rewrite (H3 t Ht).
  - intros Hn. now rewrite List.map_app, H2.
  - reflexivity.
  - unfold same_but_listener. simpl. rewrite app_nil_r. now repeat split.
Qed.

End AddFiles.

(** ** On the stage *)

(** Space on the stage: clip "a" is paused five seconds in. *)
Lemma space_pauses_all_witness :
  let e := press "Space" false in
  let st := stage None None in
  let st' := snd (handleGlobalKeyDown e st) in
  fst (handleGlobalKeyDown e st) = true /\
  items st' = items st /\
  (forall i c, trackRefs st !! i = Some (Some c) ->
     exists c', trackRefs st' !! i = Some (Some c') /\
                track c' = track c /\
                el_currentTime <$> audioRef c' = el_currentTime <$> audioRef c /\
                el_playable <$> audioRef c' = el_playable <$> audioRef c /\
                (isPlaying c = false -> c' = c) /\
                (isPlaying c = true ->
                 el_paused <$> audioRef c' = (fun _ => true) <$> audioRef c) /\
                (in_sync c -> isPlaying c' = false)) /\
  (forall i, trackRefs st !! i = Some None -> trackRefs st' !! i = Some None) /\
  (forall i, trackRefs st !! i = None -> trackRefs st' !! i = None) /\
  snd (handleGlobalKeyDown e st') = st'.
Proof.
  intros e st. apply (space_pauses_all e st); reflexivity.
Defined.

(** After Space the element of clip "a" is paused at five seconds and the
    card no longer shows as playing; clip "b" is as before. *)
Example space_on_stage :
  let st' := snd (handleGlobalKeyDown (press "Space" false) (stage None None)) in
  (c ← trackRefs st' !! "a"; c' ← c; a ← audioRef c';
   Some (isPlaying c', el_paused a, el_currentTime a)) = Some (false, true, 5%Q)
  /\ trackRefs st' !! "b" = trackRefs (stage None None) !! "b".
Proof. split; vm_compute; reflexivity. Qed.

(** Comma on the stage: the volume of the playing clip "a" goes down. *)
Lemma comma_period_nudge_playing_witness :
  let e := press "Comma" false in
  let st := stage None None in
  let delta := if String.eqb (code e) "Period" then step else (- step)%Q in
  let st' := snd (handleGlobalKeyDown e st) in
  trackRefs st' = trackRefs st /\
  (fst (handleGlobalKeyDown e st) = true <->
   exists i, plays (trackRefs st) i = true) /\
  Forall2 (fun t t' =>
             if plays (trackRefs st) (id t)
             then t' = apply_updates t
                         (upd_volume (clamp 0 1 (js_add (volume t) delta)))
                  /\ (0 <= volume t')%Q /\ (volume t' <= 1)%Q
                  /\ ((0 <= volume t)%Q -> (volume t <= 1)%Q ->
                      if String.eqb (code e) "Period"
                      then (volume t <= volume t')%Q
                      else (volume t' <= volume t)%Q)
             else t' = t)
          (items st) (items st').
Proof.
  intros e st. apply (comma_period_nudge_playing e st); [reflexivity|].
  left. reflexivity.
Defined.

(** Period on the stage: the volume 0.8 of the playing clip "a" becomes
    0.8500000000000001, the double that [0.8 + 0.05] gives; Comma gives
    0.75; clip "b" keeps 0.8. *)
Example period_and_comma_on_stage :
  List.map volume
    (items (snd (handleGlobalKeyDown (press "Period" false) (stage None None))))
  = [1914029841632461 # 2251799813685248; 8 # 10]%Q
  /\ List.map volume
       (items (snd (handleGlobalKeyDown (press "Comma" false) (stage None None))))
     = [3 # 4; 8 # 10]%Q.
Proof. split; vm_compute; reflexivity. Qed.

(** ArrowUp on the stage, with clip "b" selected when the items last
    changed. *)
Lemma arrows_follow_listener_selection_witness :
  let e := press "ArrowUp" false in
  let st := mkApp (items (stage None None)) "My Set"
                  (trackRefs (stage None None)) (Some "b"%string)
                  (Some "b"%string) in
  let delta := if String.eqb (code e) "ArrowUp" then step else (- step)%Q in
  let st' := snd (handleGlobalKeyDown e st) in
  (forall i,
      let clicked := handleGlobalKeyDown e (setSelectedItemId i st) in
      fst clicked = fst (handleGlobalKeyDown e st) /\
      items (snd clicked) = items st' /\
      trackRefs (snd clicked) = trackRefs st') /\
  (selected_truthy (listener_selectedItemId st) = false -> routed e st) /\
  (forall sel,
      listener_selectedItemId st = Some sel -> sel <> ""%string ->
      fst (handleGlobalKeyDown e st) = true /\
      trackRefs st' = trackRefs st /\
      match List.find (fun i => String.eqb (id i) sel) (items st) with
      | None => st' = st
      | Some item =>
          let v := clamp 0 1 (js_add (volume item) delta) in
          (0 <= v)%Q /\ (v <= 1)%Q /\
          ((0 <= volume item)%Q -> (volume item <= 1)%Q ->
           if String.eqb (code e) "ArrowUp"
           then (volume item <= v)%Q else (v <= volume item)%Q) /\
          items st' = List.map (fun t => if String.eqb (id t) sel
                                         then apply_updates t (upd_volume v)
                                         else t) (items st) /\
          listener_selectedItemId st' = selectedItemId st
      end).
Proof.
  intros e st. apply (arrows_follow_listener_selection e st).
  - reflexivity.
  - left. reflexivity.
Defined.

(** A click on clip "b" of the fresh stage, then ArrowUp: the listener is
    still the one of the first render, the press is neither prevented nor
    applied.  Once the items have changed (here by Period, which moves the
    playing clip "a"), ArrowUp is prevented and moves the volume of
    "b". *)
Example arrow_after_click :
  let clicked := setSelectedItemId "b" (stage None None) in
  handleGlobalKeyDown (press "ArrowUp" false) clicked = (false, clicked)
  /\ let later := snd (handleGlobalKeyDown (press "Period" false) clicked) in
     fst (handleGlobalKeyDown (press "ArrowUp" false) later) = true
     /\ List.map volume
          (items (snd (handleGlobalKeyDown (press "ArrowUp" false) later)))
        = [1914029841632461 # 2251799813685248;
           1914029841632461 # 2251799813685248]%Q.
Proof. split; [|split]; vm_compute; reflexivity. Qed.

(** KeyZ on the stage, where no clip is bound to a key. *)
Lemma unbound_key_is_ignored_witness :
  let e := press "KeyZ" false in
  let st := stage None None in
  (matchedTrack e st = None -> handleGlobalKeyDown e st = (false, st)) /\
  (forall m, matchedTrack e st = Some m ->
             (trackRefs st !! id m = None \/ trackRefs st !! id m = Some None) ->
             handleGlobalKeyDown e st = (true, st)).
Proof.
  intros e st. apply (unbound_key_is_ignored e st).
  repeat split; try discriminate; try (intros H; discriminate H).
Defined.

Lemma stage_in_sync : all_in_sync (trackRefs (stage None None)).
Proof.
  intros i c H. unfold stage in H. simpl in H.
  apply lookup_insert_Some in H as [[_ H]|[_ H]].
  - injection H as <-. reflexivity.
  - apply lookup_insert_Some in H as [[_ H]|[_ H]].
    + injection H as <-. reflexivity.
    + rewrite lookup_empty in H. discriminate.
Qed.

(** The cards of the stage agree with their elements, and go on doing
    so. *)
Lemma sync_invariant_witness :
  let st := stage None None in
  (forall e, all_in_sync (trackRefs (snd (handleGlobalKeyDown e st)))) /\
  (forall i ev, all_in_sync (trackRefs (dispatch i ev st))).
Proof.
  intros st. apply (sync_invariant st). exact stage_in_sync.
Defined.

(** Clip "a" of the stage, five seconds in with its cue at one second. *)
Lemma pause_then_play_resumes_witness :
  let c := card_of (clip "a" None 1) true 5 in
  let a := mkAudio false 5 true in
  play (pause c) =
  if Qltb (el_currentTime a) (startPoint (track c))
  then set_audio (mkAudio false (startPoint (track c)) true) c
  else c.
Proof.
  intros c a. apply (pause_then_play_resumes c a); reflexivity.
Defined.

(** Clip "a" of the stage reaches its end; it does not loop. *)
Lemma ended_loops_or_stops_witness :
  let c := card_of (clip "a" None 1) true 5 in
  let a := mkAudio false 5 true in
  let c' := fst (card_handler Ended c) in
  let again := isLooping (track c) && el_playable a in
  audioRef c' = Some (mkAudio (negb again) (startPoint (track c)) (el_playable a))
  /\ isPlaying c' = again
  /\ track c' = track c /\ currentTime c' = currentTime c.
Proof.
  intros c a. apply (ended_loops_or_stops c a); reflexivity.
Defined.

(** Clip "a" is selected and removed; ArrowUp follows. *)
Lemma removed_selection_is_stale_witness :
  let e := press "ArrowUp" false in
  let st := mkApp (items (stage None None)) "My Set"
                  (trackRefs (stage None None)) (Some "a"%string) None in
  let sel := "a"%string in
  let st' := handleRemoveItem sel st in
  selectedItemId st' = Some sel /\
  handleGlobalKeyDown e st' = (true, st').
Proof.
  intros e st sel. apply (removed_selection_is_stale e st sel).
  - reflexivity.
  - left. reflexivity.
  - reflexivity.
  - discriminate.
Defined.

(** The file [/home/dj/kick.v2.wav]. *)
Lemma trackName_of_path_witness :
  let dir := list_ascii_of_string "/home/dj" in
  let base := list_ascii_of_string "kick.v2" in
  let ext := list_ascii_of_string "wav" in
  let sep := "/"%char in
  let named (cs : list ascii) := trackName (string_of_list_ascii cs) in
  (base <> [] ->
   named (dir ++ sep :: base ++ "."%char :: ext)%list = string_of_list_ascii base /\
   named (base ++ "."%char :: ext)%list = string_of_list_ascii base) /\
  named (dir ++ sep :: ext)%list = string_of_list_ascii ext /\
  named (dir ++ [sep])%list = "Untitled"%string /\
  named (dir ++ sep :: "."%char :: ext)%list = "Untitled"%string.
Proof.
  intros dir base ext sep. apply (trackName_of_path dir base ext sep).
  - reflexivity.
  - intros c Hc. simpl in Hc.
    repeat (destruct Hc as [<-|Hc]; [reflexivity|]). destruct Hc.
  - discriminate.
  - intros c Hc. simpl in Hc.
    repeat (destruct Hc as [<-|Hc]; [split; [discriminate|reflexivity]|]).
    destruct Hc.
Defined.

End StudioProps.
